(** * permute_qpgraph: stepwise addition of populations to an admixture graph

    A shallow embedding of [permute_qpgraph.py] (class [PermuteQpgraph] and
    the driver [permute_qpgraph]) together with the properties of the search
    that the specification states.

    Python 2 byte strings are [string]; an [xml.etree.ElementTree] element is
    a tag, an attribute dictionary ([gmap string string]) and the list of its
    children; the attributes of the [PermuteQpgraph] object, the caller's node
    list it aliases and everything outside the process (log files, the
    qpGraph binary) are threaded through a state and exception monad.
    [export_qpgraph], which [run_qpgraph] calls for a graph that has no
    log file yet, works on the copy of the tree that it flags; what it
    raises ends the call of [run_qpgraph] and, with it, the run. *)

From Stdlib Require Import String Ascii List Arith Lia.
From Stdlib Require Import DecimalString DecimalNat DecimalFacts.
From Stdlib Require OrderedTypeEx.
From stdpp Require Import base list strings gmap sorting.

Open Scope string_scope.
Open Scope list_scope.

(** ** Python 2 [str] primitives used by the program *)

Module PyStr.

(** [str.isspace] on one byte: space, \t, \n, \x0b, \x0c, \r. *)
Definition isspace (c : ascii) : bool :=
  let n := nat_of_ascii c in
  Nat.eqb n 32 || (Nat.leb 9 n && Nat.leb n 13).

Definition isdigit (c : ascii) : bool :=
  let n := nat_of_ascii c in
  Nat.leb 48 n && Nat.leb n 57.

Definition is_empty (s : string) : bool :=
  match s with EmptyString => true | String _ _ => false end.

(** [sub in s] *)
Fixpoint contains (sub s : string) : bool :=
  String.prefix sub s ||
  match s with
  | EmptyString => false
  | String _ r => contains sub r
  end.

(** [s.split()]: the maximal runs of non-whitespace bytes. *)
Fixpoint split_go (tok s : string) : list string :=
  match s with
  | EmptyString => if is_empty tok then [] else [tok]
  | String c r =>
      if isspace c
      then (if is_empty tok then split_go "" r else tok :: split_go "" r)
      else split_go (tok +:+ String c "") r
  end.

Definition split (s : string) : list string := split_go "" s.

(** [s.strip()] *)
Fixpoint lstrip (s : string) : string :=
  match s with
  | EmptyString => ""
  | String c r => if isspace c then lstrip r else s
  end.

Definition strip (s : string) : string :=
  String.rev (lstrip (String.rev (lstrip s))).

(** [s.splitlines()]: lines end at \n, \r or \r\n; no empty last line. *)
Fixpoint splitlines_go (cur s : string) : list string :=
  match s with
  | EmptyString => if is_empty cur then [] else [cur]
  | String c r =>
      if Ascii.eqb c "010" then cur :: splitlines_go "" r
      else if Ascii.eqb c "013" then
        cur :: match r with
               | String c' r' =>
                   if Ascii.eqb c' "010" then splitlines_go "" r'
                   else splitlines_go "" r
               | EmptyString => splitlines_go "" r
               end
      else splitlines_go (cur +:+ String c "") r
  end.

Definition splitlines (s : string) : list string := splitlines_go "" s.

(** [s.replace(old, new)] for a non-empty [old]: [skip] counts the bytes of
    a replaced occurrence that are still to be passed over. *)
Fixpoint replace_go (old new : string) (skip : nat) (s : string) : string :=
  match s with
  | EmptyString => ""
  | String c r =>
      match skip with
      | S k => replace_go old new k r
      | O =>
          if String.prefix old s
          then new +:+ replace_go old new (String.length old - 1) r
          else String c (replace_go old new 0 r)
      end
  end.

Definition replace (old new s : string) : string := replace_go old new 0 s.

(** [sep.join(l)] *)
Definition join (sep : string) (l : list string) : string :=
  String.concat sep l.

(** ['{num}'.format(num=n)] *)
Definition format_num (n : nat) : string :=
  NilZero.string_of_uint (Nat.to_uint n).

(** [s[0:length]] *)
Definition slice_to (length : nat) (s : string) : string :=
  String.substring 0 (Nat.min length (String.length s)) s.

(** Comparison of two [str]: byte-wise lexicographic. *)
Definition lt (a b : string) : bool := String.ltb a b.

(** Comparison of two tuples [(str, str)]. *)
Definition pair_le (x y : string * string) : bool :=
  match String.compare (fst x) (fst y) with
  | Lt => true
  | Gt => false
  | Eq => String.leb (snd x) (snd y)
  end.

(** [list.sort()] on such tuples (a stable sort: insertion keeps the
    earlier of two equal elements first). *)
Fixpoint sort_insert (x : string * string) (l : list (string * string))
  : list (string * string) :=
  match l with
  | [] => [x]
  | y :: r => if pair_le y x then y :: sort_insert x r else x :: y :: r
  end.

Definition sort (l : list (string * string)) : list (string * string) :=
  fold_left (fun acc x => sort_insert x acc) l [].

(** [re.match('n[0-9]+|R', s)] is not [None]: the pattern is tried at the
    start of [s] only, and nothing requires it to reach the end of [s]. *)
Definition re_match_n_digits_or_R (s : string) : bool :=
  match s with
  | EmptyString => false
  | String c r =>
      if Ascii.eqb c "n" then
        match r with
        | EmptyString => false
        | String d _ => isdigit d
        end
      else Ascii.eqb c "R"
  end.

End PyStr.

(** ** [xml.etree.ElementTree] *)

#[warnings="-register-all"]
Inductive Element : Type :=
  Elem (tag : string) (attrib : gmap string string) (children : list Element).

Definition tag (e : Element) : string :=
  match e with Elem t _ _ => t end.
Definition attrib (e : Element) : gmap string string :=
  match e with Elem _ a _ => a end.
Definition children (e : Element) : list Element :=
  match e with Elem _ _ cs => cs end.

(** A position in a tree: the child indices from the root downwards. *)
Definition path := list nat.

Module ElemTree.

(** [e.get(key)] *)
Definition get (e : Element) (key : string) : option string :=
  attrib e !! key.

(** [e.iter()]: the element and its descendants in document order. *)
Fixpoint iter (e : Element) : list Element :=
  match e with
  | Elem _ _ cs => e :: flat_map iter cs
  end.

(** [e.findall('.//*')]: all proper descendants in document order. *)
Definition findall (e : Element) : list Element :=
  flat_map iter (children e).

(** [ElemTree.SubElement(parent, tag)] followed by [set(key, value)] for
    every item of [attrs]: the parent with one more, childless, last child. *)
Definition SubElement (parent : Element) (new_tag : string)
    (attrs : gmap string string) : Element :=
  Elem (tag parent) (attrib parent)
       (children parent ++ [Elem new_tag attrs []]).

Fixpoint node_at (e : Element) (p : path) : option Element :=
  match p with
  | [] => Some e
  | i :: p' =>
      match children e !! i with
      | Some c => node_at c p'
      | None => None
      end
  end.

(** In-place change of the element at position [p]. *)
Fixpoint update_at (f : Element -> Element) (e : Element) (p : path)
  : Element :=
  match p with
  | [] => f e
  | i :: p' =>
      match children e !! i with
      | Some c =>
          Elem (tag e) (attrib e) (<[i := update_at f c p']> (children e))
      | None => e
      end
  end.

(** [e.find('.//...')]: the position of the first proper descendant, in
    document order, that satisfies [q]. *)
Fixpoint find_path (q : Element -> bool) (e : Element) : option path :=
  match e with
  | Elem _ _ cs =>
      (fix go (i : nat) (l : list Element) : option path :=
         match l with
         | [] => None
         | c :: r =>
             if q c then Some [i]
             else match find_path q c with
                  | Some p => Some (i :: p)
                  | None => go (S i) r
                  end
         end) 0 cs
  end.

(** The step ['.//' + tag] with the optional predicate [[@side="..."]]. *)
Definition xpath_match (t : string) (side : option string) (e : Element)
  : bool :=
  String.eqb (tag e) t &&
  match side with
  | Some s => bool_decide (get e "side" = Some s)
  | None => true
  end.

End ElemTree.

Import ElemTree.

(** What [export_qpgraph] can raise: the unpacking of more than two
    parents, and a method call on the [None] that [find] returns. *)
Inductive ExportExn : Type :=
| ValueError
| NoneAttributeError.

(** Exceptions the program can raise; [ExportError] is one that comes out
    of [export_qpgraph]. *)
Inductive Exn : Type :=
| NodeUnplaceable (new_tag : string)
| IndexError
| TypeError
| AttributeError
| ExportError (e : ExportExn).

(** ** Topology builder: [new_label] and [insert_node] *)

Definition is_admix (node : Element) : bool :=
  bool_decide (get node "admix" = Some "1").

Definition is_internal (node : Element) : bool :=
  bool_decide (get node "internal" = Some "1").

Definition new_label (root_tree : Element) (admix : bool) : string :=
  let all_nodes := findall root_tree in
  if admix then
    let num := length (List.filter is_admix all_nodes) / 2 in
    "a" +:+ PyStr.format_num (num + 1)
  else
    let num :=
      length (List.filter (fun node => is_internal node && negb (is_admix node))
                          all_nodes) in
    "n" +:+ PyStr.format_num (num + 1).

(** The xpath [insert_node] builds for its target: the tag, and the side
    when the target has a non-empty [side] attribute. *)
Definition target_xpath (target_node : Element) : Element -> bool :=
  xpath_match (tag target_node)
    (match get target_node "side" with
     | Some s => if PyStr.is_empty s then None else Some s
     | None => None
     end).

Definition internal_attrs : gmap string string := {[ "internal" := "1" ]}.

(** [insert_node(new_tree, target_node, new_tag, attrs, append)].  The tree
    is changed in place; the result is the changed tree and the new node.
    [find] returning [None] makes [len(None)] (or [SubElement(None, ...)])
    raise. *)
Definition insert_node (new_tree target_node : Element) (new_tag : string)
    (attrs : gmap string string) (append : bool)
  : Exn + (Element * Element) :=
  let new_node := Elem new_tag attrs [] in
  match find_path (target_xpath target_node) new_tree with
  | None => inl (if append then AttributeError else TypeError)
  | Some p =>
      if append then
        inr (update_at (fun t => SubElement t new_tag attrs) new_tree p,
             new_node)
      else
        let pp := removelast p in
        let i := List.last p 0 in
        match node_at new_tree pp, node_at new_tree p with
        | Some parent_node, Some target =>
            if Nat.ltb 1 (length (children parent_node)) then
              let label := new_label new_tree false in
              inr (update_at
                     (fun par =>
                        Elem (tag par) (attrib par)
                          (delete i (children par) ++
                           [Elem label internal_attrs [target; new_node]]))
                     new_tree pp,
                   new_node)
            else
              inr (update_at (fun par => SubElement par new_tag attrs)
                     new_tree pp,
                   new_node)
        | _, _ => inl TypeError
        end
  end.

Definition admix_attrs (side : string) : gmap string string :=
  <["side" := side]> (<["admix" := "1"]> internal_attrs).

(** The body of the pair loop of [recurse_tree] (the copy of the tree, the
    two ingress nodes and the new node under one of them). *)
Definition insert_admixture (root_tree target1 target2 : Element)
    (new_tag : string) : Exn + Element :=
  let new_tree := root_tree in
  let admix_label := new_label new_tree true in
  match insert_node new_tree target1 admix_label (admix_attrs "l") false with
  | inl e => inl e
  | inr (tree1, node_l) =>
      match insert_node tree1 target2 admix_label (admix_attrs "r") false with
      | inl e => inl e
      | inr (tree2, node_r) =>
          let admix_node :=
            if PyStr.lt (tag target1) (tag target2) then node_l else node_r in
          match insert_node tree2 admix_node new_tag ∅ true with
          | inl e => inl e
          | inr (tree3, _) => inr tree3
          end
      end
  end.

(** The count [run_qpgraph] reports as [nodes]: elements not flagged
    internal. *)
Definition num_nodes (new_tree : Element) : nat :=
  length (List.filter (fun node => negb (is_internal node)) (findall new_tree)).

Definition num_admix (new_tree : Element) : nat :=
  length (List.filter is_admix (findall new_tree)) / 2.

(** ** Canonical form: [export_newick_tree] *)

Fixpoint export_newick_tree (parent_node : Element) : string :=
  match parent_node with
  | Elem t _ cs =>
      match cs with
      | [] => t
      | _ :: _ =>
          let children :=
            PyStr.sort
              (map (fun child_node =>
                      (tag child_node, export_newick_tree child_node)) cs) in
          let tag_name := if PyStr.re_match_n_digits_or_R t then "" else t in
          "(" +:+ PyStr.join "," (map snd children) +:+ ")" +:+ tag_name
      end
  end.

(** ** Oracle adapter: [extract_outliers] *)

Fixpoint extract_outliers_go (log : list string)
    (outliers : list (list string)) (read_log : bool)
    (worst_fstat : list string) : list (list string) * list string :=
  match log with
  | [] => (outliers, worst_fstat)
  | line :: rest =>
      if PyStr.contains "outliers" line then
        extract_outliers_go rest outliers true worst_fstat
      else if PyStr.contains "worst f-stat" line then
        extract_outliers_go rest outliers false (PyStr.split line)
      else if read_log && Nat.ltb 0 (String.length (PyStr.strip line)) then
        extract_outliers_go rest (outliers ++ [PyStr.split line]) read_log
          worst_fstat
      else extract_outliers_go rest outliers read_log worst_fstat
  end.

Definition extract_outliers (log : list string)
  : list (list string) * list string :=
  extract_outliers_go log [] false [].

(** [itertools.combinations(l, 2)] *)
Fixpoint combinations2 {A : Type} (l : list A) : list (A * A) :=
  match l with
  | [] => []
  | x :: r => map (pair x) r ++ combinations2 r
  end.

(** [itertools.permutations(l, n)] for [n <= len(l)]: tuples in the
    lexicographic order of the positions they take their elements from. *)
Fixpoint permutations_n {A : Type} (n : nat) (l : list A) : list (list A) :=
  match n with
  | O => [[]]
  | S n' =>
      flat_map
        (fun i =>
           match l !! i with
           | Some x => map (cons x) (permutations_n n' (delete i l))
           | None => []
           end)
        (seq 0 (length l))
  end.

Definition permutations {A : Type} (l : list A) : list (list A) :=
  permutations_n (length l) l.

(** [l.remove(x)] guarded by [x in l]. *)
Fixpoint list_remove (x : string) (l : list string) : list string :=
  match l with
  | [] => []
  | y :: r => if String.eqb x y then r else y :: list_remove x r
  end.

(** What the program prints, and the calls [check_results] makes. *)
Inductive Event : Type :=
| StartingList (nodes : list string)
    (* find_graph: INFO: Starting list ... *)
| Evaluated (graph_name : string) (num_outliers : nat)
    (* run_qpgraph: the summary line of one evaluated tree *)
| Recursed (new_tree : Element) (outliers : list (list string))
    (graph_name : string)
    (* check_results calls recurse_tree on this result *)
| Success (new_tree : Element) (outliers : list (list string))
    (graph_name : string)
    (* check_results: SUCCESS: ..., the graph joins the solutions *)
| Warning (new_tag : string).
    (* recurse_tree: WARNING: Unable to place node ... *)

(** A candidate as [run_qpgraph] returns it. *)
Definition Result : Type := Element * list (list string) * string.

Definition result_tree (r : Result) : Element := fst (fst r).
Definition result_outliers (r : Result) : list (list string) := snd (fst r).
Definition result_name (r : Result) : string := snd r.

(** Outcome of a computation: a value, an exception, or the recursion
    budget of the model used up. *)
Inductive Res (A : Type) : Type :=
| Ret (a : A)
| Raise (e : Exn)
| OutOfFuel.
Arguments Ret {A} a.
Arguments Raise {A} e.
Arguments OutOfFuel {A}.

(** * The qpGraph format: [export_qpgraph] *)

(** [hash_text(text, length)]; [sha1_hexdigest] is
    [hashlib.sha1(text).hexdigest()]. *)
Definition hash_text (sha1_hexdigest : string -> string) (text : string)
    (length : nat) : string :=
  PyStr.slice_to length (sha1_hexdigest text).

(** The bytes \t and \n. *)
Definition tab : string := String "009" "".
Definition eol : string := String "010" "".

Definition label_line (node : string) : string :=
  "label" +:+ tab +:+ node +:+ tab +:+ node +:+ eol.
Definition edge_line (code parent child : string) : string :=
  "edge" +:+ tab +:+ code +:+ tab +:+ parent +:+ tab +:+ child +:+ eol.
Definition admix_line (child parent1 parent2 : string) : string :=
  "admix" +:+ tab +:+ child +:+ tab +:+ parent1 +:+ tab +:+ parent2
  +:+ tab +:+ "50" +:+ tab +:+ "50" +:+ eol.

(** [e.iter()] with the position of every element, [p] being that of [e]. *)
Fixpoint iter_at (p : path) (e : Element) : list (path * Element) :=
  match e with
  | Elem _ _ cs =>
      (p, e) ::
      (fix go (i : nat) (l : list Element) : list (path * Element) :=
         match l with
         | [] => []
         | c :: r => iter_at (p ++ [i]) c ++ go (S i) r
         end) 0 cs
  end.

(** The positions of a list, once each, in the order they are first met. *)
Fixpoint first_seen (seen l : list path) : list path :=
  match l with
  | [] => []
  | x :: r =>
      if bool_decide (x ∈ seen) then first_seen seen r
      else x :: first_seen (x :: seen) r
  end.

(** [root.findall('.//' + t + '/..')]: the parents of the proper
    descendants with tag [t], each once, in the order in which the first
    such child of each is found. *)
Definition parents_of (t : string) (root : Element) : list path :=
  first_seen []
    (map (fun pe => removelast (fst pe))
       (List.filter (fun pe => String.eqb (tag (snd pe)) t)
          (tl (iter_at [] root)))).

Definition tag_at (root : Element) (p : path) : string :=
  match node_at root p with
  | Some e => tag e
  | None => ""
  end.

Definition is_printed (node : Element) : bool :=
  bool_decide (get node "printed" = Some "1").

(** [node.set('printed', '1')] *)
Definition set_printed (node : Element) : Element :=
  Elem (tag node) (<["printed" := "1"]> (attrib node)) (children node).

(** [parent.find(t)]: the index of the first child with tag [t]. *)
Fixpoint find_child (t : string) (i : nat) (l : list Element) : option nat :=
  match l with
  | [] => None
  | c :: r => if String.eqb (tag c) t then Some i else find_child t (S i) r
  end.

(** [parent.find(t).set('printed', '1')] for the parent at [p]. *)
Definition flag_printed (t : string) (p : path) (root_tree : Element)
  : ExportExn + Element :=
  match node_at root_tree p with
  | Some parent =>
      match find_child t 0 (children parent) with
      | Some i => inr (update_at set_printed root_tree (p ++ [i]))
      | None => inl NoneAttributeError
      end
  | None => inl NoneAttributeError
  end.

(** The lines [export_qpgraph_node] writes for one child (lines 357-387):
    nothing when the child is flagged printed, the two edges and the admix
    line when its tag has two parents, flagging the first child with that
    tag of either parent, and one edge from the node being exported
    otherwise.  The tree is the copy [export_qpgraph] made, with the flags
    set so far. *)
Definition export_child (sha1_hexdigest : string -> string)
    (parent_tag child_tag : string) (child_path : path) (graph : string)
    (root_tree : Element) : ExportExn + (string * Element) :=
  let printed :=
    match node_at root_tree child_path with
    | Some child_node => is_printed child_node
    | None => false
    end in
  if printed then inr (graph, root_tree)
  else
    match parents_of child_tag root_tree with
    | parent1 :: parent2 :: more =>
        match more with
        | _ :: _ => inl ValueError
        | [] =>
            let middle1 := child_tag +:+ "a" in
            let middle2 := child_tag +:+ "b" in
            let code1 := hash_text sha1_hexdigest middle1 7 in
            let code2 := hash_text sha1_hexdigest middle2 7 in
            let graph :=
              graph +:+ edge_line code1 (tag_at root_tree parent1) middle1 in
            let graph :=
              graph +:+ edge_line code2 (tag_at root_tree parent2) middle2 in
            let graph := graph +:+ admix_line child_tag middle1 middle2 in
            match flag_printed child_tag parent1 root_tree with
            | inl e => inl e
            | inr root_tree =>
                match flag_printed child_tag parent2 root_tree with
                | inl e => inl e
                | inr root_tree => inr (graph, root_tree)
                end
            end
        end
    | _ =>
        let code := hash_text sha1_hexdigest child_tag 7 in
        inr (graph +:+ edge_line code parent_tag child_tag, root_tree)
    end.

(** [export_qpgraph_node(root_tree, parent_node)]: [parent_node] is the
    element as the loop [for child_node in list(parent_node)] sees it,
    [parent_path] its position; the result is the text and the tree with
    the flags set on the way. *)
Fixpoint export_qpgraph_node (sha1_hexdigest : string -> string)
    (parent_node : Element) (parent_path : path) (root_tree : Element)
    {struct parent_node} : ExportExn + (string * Element) :=
  match parent_node with
  | Elem parent_tag _ cs =>
      (fix loop (i : nat) (l : list Element) (graph : string)
           (root_tree : Element) {struct l}
         : ExportExn + (string * Element) :=
         match l with
         | [] => inr (graph, root_tree)
         | child_node :: rest =>
             match export_child sha1_hexdigest parent_tag (tag child_node)
                     (parent_path ++ [i]) graph root_tree with
             | inl e => inl e
             | inr (graph, root_tree) =>
                 match children child_node with
                 | [] => loop (S i) rest graph root_tree
                 | _ :: _ =>
                     match export_qpgraph_node sha1_hexdigest child_node
                             (parent_path ++ [i]) root_tree with
                     | inl e => inl e
                     | inr (edges, root_tree) =>
                         loop (S i) rest (graph +:+ edges) root_tree
                     end
                 end
             end
         end) 0 cs "" root_tree
  end.

(** [export_qpgraph(root_tree)]; [root_node] is [self.root_node].  The
    flags go to a copy, the tree given is left as it is. *)
Definition export_qpgraph (sha1_hexdigest : string -> string)
    (root_node : string) (root_tree : Element) : ExportExn + string :=
  let local_tree := root_tree in
  let graph := "root" +:+ tab +:+ root_node +:+ eol in
  let nodes := findall local_tree in
  let graph :=
    fold_left
      (fun graph node =>
         if Nat.eqb (length (children node)) 0 && negb (is_admix node)
         then graph +:+ label_line (tag node)
         else graph)
      nodes graph in
  match export_qpgraph_node sha1_hexdigest local_tree [] local_tree with
  | inl e => inl e
  | inr (edges, _) => inr (graph +:+ edges)
  end.

(** * The search *)

Section Search.

(** Everything outside the process: the log files named after the graph
    hash and the qpGraph binary. *)
Variable World : Type.

(** Lines 249-256 and 262-270 of [run_qpgraph], for a graph name and its
    tree.  When the log file of that name can be read: its text.  When it
    cannot: the world once the tree is written to the xml file and, for the
    text that [export_qpgraph] gives, the log of qpGraph and the world once
    the graph and log files are saved. *)
Variable qpGraph_log :
  World -> string -> Element ->
  (string * World) + (World * (string -> string * World)).

(** [hashlib.sha1(text).hexdigest()] *)
Variable sha1_hexdigest : string -> string.

(** [Phylo.read], [ladderize] and [Phylo.write] on a Newick string. *)
Variable phylo_ladderize : string -> string.

(** The module constants of the same names. *)
Variable MAX_OUTLIER_THRESHOLD : nat.
Variable EXHAUSTIVE_SEARCH : bool.

(** The [PermuteQpgraph] object, the lists it can reach, the world and the
    output so far.  [nodes] is a reference: [__init__] stores the caller's
    list, not a copy. *)
Record State : Type := mkState {
  heap : gmap nat (list string);
  nodes : nat;
  outgroup : string;
  root_node : string;
  problem_nodes : list string;
  tested_graphs : gset string;
  solutions : gset string;
  world : World;
  trace : list Event
}.

Definition set_heap_nodes (st : State) (h : gmap nat (list string))
    (l : nat) : State :=
  mkState h l (outgroup st) (root_node st) (problem_nodes st)
          (tested_graphs st) (solutions st) (world st) (trace st).
Definition set_problem_nodes (st : State) (p : list string) : State :=
  mkState (heap st) (nodes st) (outgroup st) (root_node st) p
          (tested_graphs st) (solutions st) (world st) (trace st).
Definition set_tested_graphs (st : State) (t : gset string) : State :=
  mkState (heap st) (nodes st) (outgroup st) (root_node st)
          (problem_nodes st) t (solutions st) (world st) (trace st).
Definition set_solutions (st : State) (s : gset string) : State :=
  mkState (heap st) (nodes st) (outgroup st) (root_node st)
          (problem_nodes st) (tested_graphs st) s (world st) (trace st).
Definition set_world (st : State) (w : World) : State :=
  mkState (heap st) (nodes st) (outgroup st) (root_node st)
          (problem_nodes st) (tested_graphs st) (solutions st) w (trace st).
Definition emit (st : State) (ev : Event) : State :=
  mkState (heap st) (nodes st) (outgroup st) (root_node st)
          (problem_nodes st) (tested_graphs st) (solutions st) (world st)
          (trace st ++ [ev]).

(** The state survives an exception: the object is mutated in place. *)
Definition M (A : Type) : Type := State -> Res A * State.

Definition ret {A : Type} (a : A) : M A := fun st => (Ret a, st).
Definition raise {A : Type} (e : Exn) : M A := fun st => (Raise e, st).
Definition bind {A B : Type} (m : M A) (k : A -> M B) : M B :=
  fun st =>
    match m st with
    | (Ret a, st') => k a st'
    | (Raise e, st') => (Raise e, st')
    | (OutOfFuel, st') => (OutOfFuel, st')
    end.
Definition modify (f : State -> State) : M unit :=
  fun st => (Ret tt, f st).
Definition lift {A : Type} (r : Exn + A) : M A :=
  match r with
  | inl e => raise e
  | inr a => ret a
  end.

Notation "'let*' x ':=' m 'in' k" := (bind m (fun x => k))
  (at level 10, x binder, m at level 200, k at level 200).

Fixpoint mapM {A B : Type} (f : A -> M B) (l : list A) : M (list B) :=
  match l with
  | [] => ret []
  | x :: r => let* y := f x in let* ys := mapM f r in ret (y :: ys)
  end.

Definition print_newick_tree (root_tree : Element) : string :=
  let newick := export_newick_tree root_tree in
  PyStr.strip (PyStr.replace ":0.00000" "" (phylo_ladderize newick)).

(** [run_qpgraph((new_tree, depth))].  Without a log file the tree is
    exported, and what [export_qpgraph] raises ends the call before qpGraph
    runs.  The summary line indexes [worst_fstat[-1]]. *)
Definition run_qpgraph (new_tree : Element) (depth : nat) : M Result :=
  fun st =>
    let newick := print_newick_tree new_tree in
    let graph_name := hash_text sha1_hexdigest newick 7 in
    let read : Res string * State :=
      match qpGraph_log (world st) graph_name new_tree with
      | inl (log, w) => (Ret log, set_world st w)
      | inr (w, qpGraph) =>
          let st := set_world st w in
          match export_qpgraph sha1_hexdigest (root_node st) new_tree with
          | inl e => (Raise (ExportError e), st)
          | inr graph =>
              let '(log, w) := qpGraph graph in (Ret log, set_world st w)
          end
      end in
    match read with
    | (Ret log, st) =>
        let '(outliers, worst_fstat) :=
          extract_outliers (PyStr.splitlines log) in
        match List.last (map Some worst_fstat) None with
        | None => (Raise IndexError, st)
        | Some _ =>
            (Ret (new_tree, outliers, graph_name),
             emit st (Evaluated graph_name (length outliers)))
        end
    | (Raise e, st) => (Raise e, st)
    | (OutOfFuel, st) => (OutOfFuel, st)
    end.

(** [test_trees(new_trees, depth)]: one result per tree, in order. *)
Definition test_trees (new_trees : list Element) (depth : nat)
  : M (list Result) :=
  mapM (fun new_tree => run_qpgraph new_tree depth) new_trees.

(** [check_results(results, remaining, depth)], the loop with its flag
    [placed_node]; [recurse] is [self.recurse_tree]. *)
Fixpoint check_results_loop
    (recurse : Element -> string -> list string -> nat -> M unit)
    (results : list Result) (remaining : list string) (depth : nat)
    (placed_node : bool) : M bool :=
  match results with
  | [] => ret placed_node
  | (new_tree, outliers, graph_name) :: rest =>
      let* _ :=
        modify (fun st =>
                  set_tested_graphs st ({[ graph_name ]} ∪ tested_graphs st)) in
      if Nat.leb (length outliers) MAX_OUTLIER_THRESHOLD then
        let* _ :=
          match remaining with
          | next :: others =>
              let* _ :=
                modify (fun st =>
                          emit st (Recursed new_tree outliers graph_name)) in
              recurse new_tree next others (depth + 1)
          | [] =>
              modify (fun st =>
                        set_solutions
                          (emit st (Success new_tree outliers graph_name))
                          ({[ graph_name ]} ∪ solutions st))
          end in
        check_results_loop recurse rest remaining depth true
      else check_results_loop recurse rest remaining depth placed_node
  end.

Definition check_results
    (recurse : Element -> string -> list string -> nat -> M unit)
    (results : list Result) (remaining : list string) (depth : nat)
  : M bool :=
  check_results_loop recurse results remaining depth false.

(** The candidates of the two passes of [recurse_tree]. *)
Definition regular_trees (root_tree : Element)
    (target_nodes : list Element) (new_tag : string)
  : M (list Element) :=
  mapM (fun target_node =>
          let* r := lift (insert_node root_tree target_node new_tag ∅ false) in
          ret (fst r))
       target_nodes.

Definition admix_trees (root_tree : Element)
    (target_nodes : list Element) (new_tag : string)
  : M (list Element) :=
  mapM (fun pair =>
          lift (insert_admixture root_tree (fst pair) (snd pair) new_tag))
       (List.filter
          (fun pair => negb (String.eqb (tag (fst pair)) (tag (snd pair))))
          (combinations2 target_nodes)).

(** The two passes of [recurse_tree] (lines 68-124): the new node on
    every branch and, when none of those trees passes, on every pair of
    branches.  The result is [node_placed]. *)
Definition try_insertions
    (recurse : Element -> string -> list string -> nat -> M unit)
    (root_tree : Element) (new_tag : string) (remaining : list string)
    (depth : nat) : M bool :=
  fun st0 =>
    (let target_nodes :=
       List.filter
         (fun node => negb (String.eqb (tag node) (outgroup st0)))
         (findall root_tree) in
     let* new_trees := regular_trees root_tree target_nodes new_tag in
     let* results := test_trees new_trees depth in
     let* node_placed := check_results recurse results remaining depth in
     if node_placed then ret true
     else
       let* admix := admix_trees root_tree target_nodes new_tag in
       let* results := test_trees admix depth in
       check_results recurse results remaining depth) st0.

(** [recurse_tree(root_tree, new_tag, remaining, depth)] *)
Fixpoint recurse_tree (fuel : nat) (root_tree : Element) (new_tag : string)
    (remaining : list string) (depth : nat) : M unit :=
  match fuel with
  | O => fun st => (OutOfFuel, st)
  | S fuel' =>
      let* node_placed :=
        try_insertions (recurse_tree fuel') root_tree new_tag remaining
          depth in
      if node_placed then ret tt
      else
        fun st =>
          if negb (bool_decide (new_tag ∈ problem_nodes st))
             && negb (bool_decide (remaining = []))
             && negb EXHAUSTIVE_SEARCH
          then
            let st := emit st (Warning new_tag) in
            let st := set_problem_nodes st (problem_nodes st ++ [new_tag]) in
            let remaining := remaining ++ [new_tag] in
            match remaining with
            | next :: others =>
                recurse_tree fuel' root_tree next others depth st
            | [] => (Raise IndexError, st)
            end
          else (Raise (NodeUnplaceable new_tag), st)
  end.

(** [find_graph()] *)
Definition find_graph (fuel : nat) : M unit :=
  fun st =>
    let self_nodes := default [] (heap st !! nodes st) in
    let st := emit st (StartingList self_nodes) in
    let root := Elem (root_node st) ∅ [] in
    let root := SubElement root (outgroup st) ∅ in
    match self_nodes !! 0 with
    | None => (Raise IndexError, st)
    | Some first =>
        let root := SubElement root first ∅ in
        match self_nodes !! 1 with
        | None => (Raise IndexError, st)
        | Some second => recurse_tree fuel root second (drop 2 self_nodes) 0 st
        end
    end.

(** [PermuteQpgraph.__init__]: [nodes] is the caller's list, changed in
    place and kept by reference. *)
Definition init (h : gmap nat (list string)) (w : World) (nodes : nat)
    (outgroup : string) : State :=
  mkState (alter (list_remove outgroup) nodes h) nodes outgroup "R"
          [] ∅ ∅ w [].

(** The [while] loop of [permute_qpgraph]; [work] is [all_nodes_perms]
    read from its end, which is where [pop()] takes from. *)
Fixpoint search_loop (fuel : nat) (work : list (list string)) : M unit :=
  fun st =>
    if bool_decide (solutions st = ∅) || EXHAUSTIVE_SEARCH then
      let '(r, st) := find_graph fuel st in
      let continue (st : State) : Res unit * State :=
        match work with
        | [] => (Ret tt, st)
        | order :: work' =>
            let l := fresh (dom (heap st)) in
            search_loop fuel work'
              (set_heap_nodes st (<[l := order]> (heap st)) l)
        end in
      match r with
      | Ret _ => continue st
      | Raise (NodeUnplaceable _) => continue st
      | Raise e => (Raise e, st)
      | OutOfFuel => (OutOfFuel, st)
      end
    else (Ret tt, st).

(** [permute_qpgraph(par_file, dot_path, pdf_path, nodes, outgroup)] *)
Definition permute_qpgraph (fuel : nat) (h : gmap nat (list string))
    (w : World) (nodes : nat) (outgroup : string) : Res bool * State :=
  let qp := init h w nodes outgroup in
  let all_nodes_perms := permutations (default [] (heap qp !! nodes)) in
  match search_loop fuel (rev all_nodes_perms) qp with
  | (Ret _, qp) => (Ret (negb (bool_decide (solutions qp = ∅))), qp)
  | (Raise e, qp) => (Raise e, qp)
  | (OutOfFuel, qp) => (OutOfFuel, qp)
  end.

End Search.

Arguments heap {World} _.
Arguments nodes {World} _.
Arguments outgroup {World} _.
Arguments root_node {World} _.
Arguments problem_nodes {World} _.
Arguments tested_graphs {World} _.
Arguments solutions {World} _.
Arguments world {World} _.
Arguments trace {World} _.
Arguments emit {World} st ev.
Arguments set_problem_nodes {World} st p.
Arguments set_heap_nodes {World} st h l.
Arguments ret {World A} a _.
Arguments raise {World A} e _.
Arguments bind {World A B} m k _.
Arguments modify {World} f _.
Arguments lift {World A} r _.
Arguments mapM {World A B} f l _.

(** * Notions used in the statements *)

(** [find_path] over the children list, with the index of its head. *)
Fixpoint find_children (q : Element -> bool) (i : nat) (l : list Element)
  : option path :=
  match l with
  | [] => None
  | c :: r =>
      if q c then Some [i]
      else match find_path q c with
           | Some p => Some (i :: p)
           | None => find_children q (S i) r
           end
  end.

(** What the queries of the program see of one node: its tag, its
    attributes and whether it has children. *)
Definition is_leaf (e : Element) : bool :=
  match children e with [] => true | _ :: _ => false end.

Definition shape (e : Element) : string * gmap string string * bool :=
  (tag e, attrib e, is_leaf e).

(** The shapes of the nodes below the root, in document order. *)
Definition shapes (tree : Element)
  : list (string * gmap string string * bool) :=
  map shape (findall tree).

(** [len([x for x in l if q(x)])] *)
Definition count {A : Type} (q : A -> bool) (l : list A) : nat :=
  length (List.filter q l).

(** The xpath of a target only looks at tag and attributes. *)
Definition shape_match (target : Element)
    (sh : string * gmap string string * bool) : bool :=
  target_xpath target (Elem (fst (fst sh)) (snd (fst sh)) []).

(** Tag and attributes of every node below the root. *)
Definition keys (tree : Element) : list (string * gmap string string) :=
  map (fun x => (tag x, attrib x)) (findall tree).

(** The same on tag and attributes alone. *)
Definition key_match (target : Element)
    (k : string * gmap string string) : bool :=
  target_xpath target (Elem (fst k) (snd k) []).

(** The flags [internal] and [admix] read from the attributes. *)
Definition key_internal (k : string * gmap string string) : bool :=
  bool_decide (snd k !! "internal" = Some "1").

(** Number of childless nodes with a given tag. *)
Definition leaves_tagged (t : string) (tree : Element) : nat :=
  count (fun sh => String.eqb (fst (fst sh)) t && snd sh) (shapes tree).

Definition key_admix (k : string * gmap string string) : bool :=
  bool_decide (snd k !! "admix" = Some "1").


(** The trees the search builds: the two-leaf tree of [find_graph] and
    what the two kinds of insertion make of a tree already built. *)
Inductive built : Element -> Prop :=
| built_start root_label outgroup_label first :
    built (SubElement (SubElement (Elem root_label ∅ []) outgroup_label ∅)
             first ∅)
| built_regular tree target new_tag tree' n :
    built tree ->
    insert_node tree target new_tag ∅ false = inr (tree', n) ->
    built tree'
| built_admixture tree target1 target2 new_tag tree' :
    built tree ->
    In target1 (findall tree) -> In target2 (findall tree) ->
    insert_admixture tree target1 target2 new_tag = inr tree' ->
    built tree'.

(** Number of nodes with a given tag and a given attribute dictionary. *)
Definition count_key (t : string) (a : gmap string string) (tree : Element)
  : nat :=
  count (fun x => bool_decide (tag x = t /\ attrib x = a)) (findall tree).

(** The labels the specification says are left out: n followed by digits
    only (at least one), and the root label R itself. *)
Definition spec_label_suppressed (t : string) : bool :=
  String.eqb t "R" ||
  match t with
  | String c ds =>
      Ascii.eqb c "n" && negb (PyStr.is_empty ds) &&
      forallb PyStr.isdigit (list_ascii_of_string ds)
  | EmptyString => false
  end.

(** The events of the two passes and of the deferral; the candidates that
    are handed on carry an outlier list within the threshold. *)
Definition search_event (threshold : nat) (ev : Event) : Prop :=
  match ev with
  | StartingList _ => False
  | Evaluated _ _ => True
  | Recursed _ outliers _ => length outliers <= threshold
  | Success _ outliers _ => length outliers <= threshold
  | Warning _ => True
  end.

(** [st'] comes after [st] in one search attempt: the lists and the
    outgroup are the same, the problem nodes, the tested graphs, the
    solutions and the output have only grown. *)
Record extends {World : Type} (threshold : nat) (st st' : State World)
  : Prop := mkExtends {
  ext_heap : heap st' = heap st;
  ext_nodes : nodes st' = nodes st;
  ext_outgroup : outgroup st' = outgroup st;
  ext_root : root_node st' = root_node st;
  ext_problem : exists more, problem_nodes st' = problem_nodes st ++ more;
  ext_tested : tested_graphs st ⊆ tested_graphs st';
  ext_solutions : solutions st ⊆ solutions st';
  ext_trace : exists evs,
      trace st' = trace st ++ evs /\ Forall (search_event threshold) evs
}.

(** A computation that only moves the state forward. *)
Definition forward {World A : Type} (threshold : nat) (m : M World A)
  : Prop :=
  forall st, extends threshold st (snd (m st)).

(** [st'] comes after [st] in the run of the driver: the outgroup is the
    same, and the problem nodes, the tested graphs and the solutions have
    only grown. *)
Definition carries_over {World : Type} (st st' : State World) : Prop :=
  outgroup st' = outgroup st /\
  (exists more, problem_nodes st' = problem_nodes st ++ more) /\
  tested_graphs st ⊆ tested_graphs st' /\
  solutions st ⊆ solutions st'.

(** The outcomes of an attempt that ends well: a value for which [post]
    holds, NodeUnplaceable and, unless [strict], the ValueError of
    [export_qpgraph]. *)
Definition good {A : Type} (strict : bool) (post : A -> Prop) (r : Res A)
  : Prop :=
  match r with
  | Ret a => post a
  | Raise (NodeUnplaceable _) => True
  | Raise (ExportError ValueError) => strict = false
  | Raise _ => False
  | OutOfFuel => False
  end.

(** Every log has a worst f-stat line that is read as such. *)
Definition oracle_ok {World : Type}
    (qpGraph_log : World -> string -> Element ->
                   (string * World) + (World * (string -> string * World)))
  : Prop :=
  forall w name tree,
    match qpGraph_log w name tree with
    | inl (log, _) => snd (extract_outliers (PyStr.splitlines log)) <> []
    | inr (_, qpGraph) =>
        forall graph,
          snd (extract_outliers (PyStr.splitlines (fst (qpGraph graph)))) <> []
    end.

(** A computation that ends well from every state. *)
Definition ends_well {World A : Type} (strict : bool) (post : A -> Prop)
    (m : M World A) : Prop :=
  forall st, good strict post (fst (m st)).

(** Labels of a queue that are not yet problem nodes. *)
Definition undeferred (problem : list string) (queue : list string) : nat :=
  count (fun x => negb (bool_decide (x ∈ problem))) queue.

(** Nesting depth of [recurse_tree] calls that a queue of [n] remaining
    labels can need, deferrals not counted. *)
Fixpoint depth_bound (n : nat) : nat :=
  match n with
  | O => 1
  | S m => depth_bound m + S m + 1
  end.

(** [l.count(x)] *)
Definition occurrences (x : string) (l : list string) : nat :=
  count (String.eqb x) l.

(** No starting list announced so far holds [og]. *)
Definition starts_without {World : Type} (og : string) (st : State World)
  : Prop :=
  forall l, In (StartingList l) (trace st) -> ~ In og l.

(** The candidates named in an output are trees the search builds. *)
Definition tree_event (ev : Event) : Prop :=
  match ev with
  | Recursed new_tree _ _ => built new_tree
  | Success new_tree _ _ => built new_tree
  | _ => True
  end.

Definition traced_built {World : Type} (st : State World) : Prop :=
  Forall tree_event (trace st).

(** A computation that keeps it so, and whose value, if any, has [Q]. *)
Definition keeps_built {World A : Type} (Q : A -> Prop) (m : M World A)
  : Prop :=
  forall st, traced_built st ->
    traced_built (snd (m st)) /\ forall a, fst (m st) = Ret a -> Q a.

(** The count [new_label] takes for the next intermediate label. *)
Definition num_internal (tree : Element) : nat :=
  length (List.filter (fun node => is_internal node && negb (is_admix node))
            (findall tree)).

(** Tag and attributes of the [j]-th intermediate node and of the ingress
    nodes of the [j]-th admixture. *)
Definition n_key (j : nat) : string * gmap string string :=
  ("n" +:+ PyStr.format_num j, internal_attrs).
Definition a_key (j : nat) (side : string) : string * gmap string string :=
  ("a" +:+ PyStr.format_num j, admix_attrs side).

(** Flagged internal and not admix. *)
Definition key_plain_internal (k : string * gmap string string) : bool :=
  key_internal k && negb (key_admix k).

(** [l.count(x)] for a list of keys. *)
Definition occ (x : string * gmap string string)
    (l : list (string * gmap string string)) : nat :=
  count (fun k => bool_decide (k = x)) l.

(** A key is that of a population (no attributes), of one of the first
    [kn] intermediate nodes or of an ingress node of one of the first [ka]
    admixtures. *)
Definition kind_ok (kn ka : nat) (k : string * gmap string string) : Prop :=
  snd k = ∅ \/
  (exists j, 1 <= j <= kn /\ k = n_key j) \/
  (exists j s, 1 <= j <= ka /\ (s = "l" \/ s = "r") /\ k = a_key j s).

(** The generated labels of a list of keys are in order: n1 ... nk once
    each, a1 ... am once on each side, k and m being the counts [new_label]
    works from. *)
Definition gen_ok (K : list (string * gmap string string)) : Prop :=
  let kn := count key_plain_internal K in
  let ka := count key_admix K / 2 in
  count key_admix K = 2 * ka /\
  (forall k, In k K -> kind_ok kn ka k) /\
  (forall j, 1 <= j <= kn -> occ (n_key j) K = 1) /\
  (forall j s, 1 <= j <= ka -> s = "l" \/ s = "r" -> occ (a_key j s) K = 1).

(** A property of the state that the updates of the search keep: the
    world and the output may change freely, a name may join the tested
    graphs, a tested name the solutions, a label that is not yet a problem
    node the problem nodes (outside exhaustive mode only), and the node
    list may be replaced. *)
Definition stable {World : Type} (exhaustive : bool)
    (I : State World -> Prop) : Prop :=
  (forall st w, I st -> I (set_world World st w)) /\
  (forall st ev, I st -> I (emit st ev)) /\
  (forall st name, I st ->
     I (set_tested_graphs World st ({[ name ]} ∪ tested_graphs st))) /\
  (forall st name, I st -> name ∈ tested_graphs st ->
     I (set_solutions World st ({[ name ]} ∪ solutions st))) /\
  (exhaustive = false ->
   forall st new_tag, I st -> new_tag ∉ problem_nodes st ->
     I (set_problem_nodes st (problem_nodes st ++ [new_tag]))) /\
  (forall st h l, I st -> I (set_heap_nodes st h l)).

(** A computation that keeps a property of the state. *)
Definition holds_after {World A : Type} (I : State World -> Prop)
    (m : M World A) : Prop :=
  forall st, I st -> I (snd (m st)).

(** The starting lists announced in an output, in order. *)
Definition starting_lists (tr : list Event) : list (list string) :=
  flat_map (fun ev => match ev with StartingList l => [l] | _ => [] end) tr.

(** A result within the outlier threshold. *)
Definition passes (threshold : nat) (r : Result) : bool :=
  Nat.leb (length (result_outliers r)) threshold.

(** The line [check_results] prints for a solution. *)
Definition success_of (r : Result) : Event :=
  Success (result_tree r) (result_outliers r) (result_name r).

(** Between [st] and [st'] a graph was announced as a success, and it is
    among the solutions of [st']. *)
Definition found {World : Type} (st st' : State World) : Prop :=
  exists evs new_tree outliers name,
    trace st' = trace st ++ evs /\
    In (Success new_tree outliers name) evs /\
    name ∈ solutions st'.

(** The labels of the nodes [run_qpgraph] counts as nodes, those not
    marked internal, in document order. *)
Definition leaf_labels (tree : Element) : list string :=
  map tag (List.filter (fun node => negb (is_internal node)) (findall tree)).

(** A graph announced as a success holds the labels [all], each as often
    as [all] does. *)
Definition complete (all : list string) (ev : Event) : Prop :=
  match ev with
  | Success new_tree _ _ => leaf_labels new_tree ≡ₚ all
  | _ => True
  end.

(** A computation that only adds events with [E] to the output, and whose
    value, if any, has [Q]. *)
Definition adds {World A : Type} (E : Event -> Prop) (Q : A -> Prop)
    (m : M World A) : Prop :=
  forall st, exists evs,
    trace (snd (m st)) = trace st ++ evs /\
    Forall E evs /\
    forall a, fst (m st) = Ret a -> Q a.

(** A line [extract_outliers] takes for neither of its two markers. *)
Definition plain_line (line : string) : bool :=
  negb (PyStr.contains "outliers" line) &&
  negb (PyStr.contains "worst f-stat" line).

(** The test [len(line.strip()) > 0] of [extract_outliers]. *)
Definition not_blank (line : string) : bool :=
  Nat.ltb 0 (String.length (PyStr.strip line)).

(** The line [extract_outliers] reads the worst f-statistic from. *)
Definition worst_line (line : string) : bool :=
  negb (PyStr.contains "outliers" line) &&
  PyStr.contains "worst f-stat" line.

#[local] Unset Elimination Schemes.

(** [t'] is [t] with the children of any of its nodes in another order,
    and with any attributes. *)
Inductive shuffled : Element -> Element -> Prop :=
| shuffled_node t a a' cs cs' cs'' :
    Forall2 shuffled cs cs'' -> cs'' ≡ₚ cs' ->
    shuffled (Elem t a cs) (Elem t a' cs').
#[local] Set Elimination Schemes.

(** The order [list.sort] puts the children in. *)
Definition pair_le_prop (x y : string * string) : Prop :=
  PyStr.pair_le x y = true.

(** The loop of [iter_at] over the children, with the index of its head. *)
Fixpoint iter_children_at (p : path) (i : nat) (l : list Element)
  : list (path * Element) :=
  match l with
  | [] => []
  | c :: r => iter_at (p ++ [i]) c ++ iter_children_at p (S i) r
  end.

(** The loop of [export_qpgraph_node] over the children, with the index
    of its head and the text so far. *)
Fixpoint export_children (sha1_hexdigest : string -> string)
    (parent_tag : string) (parent_path : path) (i : nat) (l : list Element)
    (graph : string) (root_tree : Element)
  : ExportExn + (string * Element) :=
  match l with
  | [] => inr (graph, root_tree)
  | child_node :: rest =>
      match export_child sha1_hexdigest parent_tag (tag child_node)
              (parent_path ++ [i]) graph root_tree with
      | inl e => inl e
      | inr (graph, root_tree) =>
          match children child_node with
          | [] =>
              export_children sha1_hexdigest parent_tag parent_path (S i)
                rest graph root_tree
          | _ :: _ =>
              match export_qpgraph_node sha1_hexdigest child_node
                      (parent_path ++ [i]) root_tree with
              | inl e => inl e
              | inr (edges, root_tree) =>
                  export_children sha1_hexdigest parent_tag parent_path (S i)
                    rest (graph +:+ edges) root_tree
              end
          end
      end
  end.

(** One edge line for every node below [parent_node], from its parent to
    it, in document order. *)
Fixpoint tree_edges (sha1_hexdigest : string -> string)
    (parent_node : Element) : string :=
  match parent_node with
  | Elem parent_tag _ cs =>
      (fix go (l : list Element) : string :=
         match l with
         | [] => ""
         | c :: r =>
             edge_line (hash_text sha1_hexdigest (tag c) 7) parent_tag (tag c)
             +:+ tree_edges sha1_hexdigest c +:+ go r
         end) cs
  end.

Fixpoint children_edges (sha1_hexdigest : string -> string)
    (parent_tag : string) (l : list Element) : string :=
  match l with
  | [] => ""
  | c :: r =>
      edge_line (hash_text sha1_hexdigest (tag c) 7) parent_tag (tag c)
      +:+ tree_edges sha1_hexdigest c
      +:+ children_edges sha1_hexdigest parent_tag r
  end.

(** One label line for every childless node that is not flagged admix,
    in document order. *)
Definition label_lines (tree : Element) : string :=
  String.concat ""
    (map (fun node => label_line (tag node))
       (List.filter
          (fun node =>
             Nat.eqb (length (children node)) 0 && negb (is_admix node))
          (findall tree))).

(** Position and tag, all that [parents_of] reads of an element. *)
Definition place (pe : path * Element) : path * string :=
  (fst pe, tag (snd pe)).

(** The element without its attributes, and so without the flags the
    export sets. *)
Fixpoint erase (e : Element) : Element :=
  match e with
  | Elem t _ cs => Elem t ∅ (map erase cs)
  end.

(** Every node flagged printed has a tag with at most two parents. *)
Definition printed_ok (root_tree : Element) : Prop :=
  forall q x, q <> [] -> node_at root_tree q = Some x ->
    is_printed x = true -> length (parents_of (tag x) root_tree) <= 2.

(** ** Concrete inputs *)

(** A childless element without attributes. *)
Definition leaf (t : string) : Element := Elem t ∅ [].

(** The newline byte. *)
Definition nl : string := String "010" "".

(** A log with an empty outliers section, and one with one outlier. *)
Definition log_no_outliers : string :=
  "outliers:" +:+ nl +:+ nl +:+ "worst f-stat: A B C D 0.001 0.5" +:+ nl.
Definition log_one_outlier : string :=
  "outliers:" +:+ nl +:+ "A B C D 0.02 0.001 4.1" +:+ nl +:+ nl +:+
  "worst f-stat: A B C D 0.02 4.1" +:+ nl.

(** Logs that lack markers: no outliers line, and neither line. *)
Definition log_without_outliers_line : string :=
  "worst f-stat: A B C D 0.001 0.5" +:+ nl.
Definition log_without_markers : string := "fatalx: bad graph" +:+ nl.

(** Oracles: the world is trivial, no log file is ever found, and the log
    of qpGraph depends on nothing, or only on the tree. *)
Definition Oracle : Type :=
  unit -> string -> Element ->
  (string * unit) + (unit * (string -> string * unit)).
Definition oracle_pass : Oracle :=
  fun w name t => inr (w, fun graph => (log_no_outliers, w)).
Definition oracle_fail : Oracle :=
  fun w name t => inr (w, fun graph => (log_one_outlier, w)).
Definition oracle_without_outliers_line : Oracle :=
  fun w name t => inr (w, fun graph => (log_without_outliers_line, w)).
Definition oracle_one_bad_log : Oracle :=
  fun w name t =>
    inr (w, fun graph =>
              (if String.eqb (export_newick_tree t) "(Out,(B,(A,C)))"
               then log_without_markers else log_no_outliers, w)).

(** Stand-in for the digest and for the ladderizing: the text itself. *)
Definition same (s : string) : string := s.

(** The object for a caller's list at location 0 and the outgroup Out. *)
Definition qp_for (order : list string) : State unit :=
  init unit {[ 0 := order ]} tt 0 "Out".

(** R(Out, A) and R(Out, n1(A, B)). *)
Definition tree_A : Element := Elem "R" ∅ [leaf "Out"; leaf "A"].
Definition tree_AB : Element :=
  Elem "R" ∅ [leaf "Out"; Elem "n1" internal_attrs [leaf "A"; leaf "B"]].

(** The batch of the regular pass that adds C to R(Out, n1(A, B)). *)
Definition batch_C : list Element :=
  [ Elem "R" ∅
      [leaf "Out";
       Elem "n2" internal_attrs
         [Elem "n1" internal_attrs [leaf "A"; leaf "B"]; leaf "C"]];
    Elem "R" ∅
      [leaf "Out";
       Elem "n1" internal_attrs
         [leaf "B"; Elem "n2" internal_attrs [leaf "A"; leaf "C"]]];
    Elem "R" ∅
      [leaf "Out";
       Elem "n1" internal_attrs
         [leaf "A"; Elem "n2" internal_attrs [leaf "B"; leaf "C"]]] ].

(** The deferrals in an output. *)
Definition is_warning (ev : Event) : bool :=
  match ev with Warning _ => true | _ => false end.

(** R(Out, n1(n2(A, a1(C)), n3(B, a1))): C admixed from A and B, and a
    tree in which the label A has three parents. *)
Definition tree_admix_C : Element :=
  Elem "R" ∅
    [leaf "Out";
     Elem "n1" internal_attrs
       [Elem "n2" internal_attrs
          [leaf "A"; Elem "a1" (admix_attrs "l") [leaf "C"]];
        Elem "n3" internal_attrs
          [leaf "B"; Elem "a1" (admix_attrs "r") []]]].
Definition tree_three_A : Element :=
  Elem "R" ∅
    [leaf "Out";
     Elem "n1" internal_attrs
       [leaf "A"; Elem "n2" internal_attrs [leaf "B"; leaf "A"]];
     leaf "A"].

(** * Properties *)

(** ** Trees: induction, positions and document order *)

Lemma Element_ind' (P : Element -> Prop) :
  (forall t a cs, Forall P cs -> P (Elem t a cs)) -> forall e, P e.
Proof.
  intros H. fix IH 1. intros [t a cs]. apply H.
  induction cs as [|c cs IHcs]; constructor; [apply IH | exact IHcs].
Qed.

Lemma iter_unfold e : iter e = e :: findall e.
Proof. destruct e; reflexivity. Qed.

Lemma find_path_unfold q e : find_path q e = find_children q 0 (children e).
Proof.
  destruct e as [t a cs]. simpl. generalize 0.
  induction cs as [|c cs IH]; intros i; simpl; [reflexivity|].
  destruct (q c); [reflexivity|].
  destruct (find_path q c); [reflexivity|]. apply IH.
Qed.

Lemma find_children_Some q l : forall i p,
  find_children q i l = Some p ->
  exists j c, l !! j = Some c /\
    ((p = [i + j] /\ q c = true) \/
     (exists p', p = (i + j) :: p' /\ find_path q c = Some p')).
Proof.
  induction l as [|c r IH]; intros i p; simpl; [discriminate|].
  destruct (q c) eqn:Hq.
  - intros [= <-]. exists 0, c. split; [reflexivity|]. left.
    rewrite Nat.add_0_r. auto.
  - destruct (find_path q c) as [p'|] eqn:Hf.
    + intros [= <-]. exists 0, c. split; [reflexivity|]. right.
      exists p'. rewrite Nat.add_0_r. auto.
    + intros H. apply IH in H as (j & c' & Hj & H).
      exists (S j), c'. split; [exact Hj|].
      replace (i + S j) with (S i + j) by lia. exact H.
Qed.

(** The position [find] returns is that of a child of some element of the
    tree, and the child satisfies the predicate. *)
Lemma find_path_Some q e : forall p,
  find_path q e = Some p ->
  exists pp i parent s,
    p = pp ++ [i] /\ node_at e pp = Some parent /\
    children parent !! i = Some s /\ q s = true.
Proof.
  induction e as [t a cs IH] using Element_ind'. intros p.
  rewrite find_path_unfold. simpl. intros H.
  apply find_children_Some in H as (j & c & Hj & H). simpl in H.
  destruct H as [[-> Hq] | (p' & -> & Hp')].
  - exists [], j, (Elem t a cs), c. auto.
  - rewrite Forall_forall in IH.
    assert (Hc : c ∈ cs) by (eapply list_elem_of_lookup_2; eauto).
    destruct (IH c Hc p' Hp') as (pp & i & parent & s & -> & Hn & Hi & Hq).
    exists (j :: pp), i, parent, s. simpl. rewrite Hj. auto.
Qed.

Lemma find_children_None q l : forall i,
  find_children q i l = None ->
  forall c, In c l -> q c = false /\ find_path q c = None.
Proof.
  induction l as [|c r IH]; intros i; simpl; [intros _ ? []|].
  destruct (q c) eqn:Hq; [discriminate|].
  destruct (find_path q c) eqn:Hf; [discriminate|].
  intros H c' [<- | Hin]; [auto | eapply IH; eauto].
Qed.

Lemma find_path_None q e :
  find_path q e = None -> forall x, In x (findall e) -> q x = false.
Proof.
  induction e as [t a cs IH] using Element_ind'.
  rewrite find_path_unfold. simpl. intros H x Hx.
  unfold findall in Hx. simpl in Hx. apply in_flat_map in Hx as (c & Hc & Hx).
  destruct (find_children_None _ _ _ H c Hc) as [Hq Hf].
  rewrite iter_unfold in Hx. destruct Hx as [<- | Hx]; [exact Hq|].
  rewrite Forall_forall in IH. eapply IH; eauto.
  apply list_elem_of_In. exact Hc.
Qed.

(** [find] succeeds as soon as some descendant satisfies the predicate. *)
Lemma find_path_is_Some q e x :
  In x (findall e) -> q x = true -> exists p, find_path q e = Some p.
Proof.
  intros Hx Hq. destruct (find_path q e) as [p|] eqn:Hf; [eauto|].
  rewrite (find_path_None _ _ Hf x Hx) in Hq. discriminate.
Qed.

Lemma node_at_app e p1 : forall p2 s,
  node_at e p1 = Some s -> node_at e (p1 ++ p2) = node_at s p2.
Proof.
  revert e. induction p1 as [|i p1 IH]; intros e p2 s; simpl.
  - intros [= ->]. reflexivity.
  - destruct (children e !! i); [apply IH | discriminate].
Qed.

Lemma node_at_In_iter p : forall e s, node_at e p = Some s -> In s (iter e).
Proof.
  induction p as [|i p IH]; intros e s; simpl.
  - intros [= ->]. rewrite iter_unfold. left. reflexivity.
  - destruct (children e !! i) as [c|] eqn:Hc; [|discriminate].
    intros H. rewrite iter_unfold. right. unfold findall.
    apply in_flat_map. exists c. split; [|eauto].
    apply list_elem_of_In. eapply list_elem_of_lookup_2; eauto.
Qed.

Lemma node_at_In_findall e p s :
  p <> [] -> node_at e p = Some s -> In s (findall e).
Proof.
  destruct p as [|i p]; [congruence|]. intros _. simpl.
  destruct (children e !! i) as [c|] eqn:Hc; [|discriminate].
  intros H. unfold findall. apply in_flat_map. exists c. split.
  - apply list_elem_of_In. eapply list_elem_of_lookup_2; eauto.
  - eapply node_at_In_iter; eauto.
Qed.

Lemma node_at_update_at f p : forall e s,
  node_at e p = Some s -> node_at (update_at f e p) p = Some (f s).
Proof.
  induction p as [|i p IH]; intros e s; simpl.
  - intros [= ->]. reflexivity.
  - destruct (children e !! i) as [c|] eqn:Hc; [|discriminate].
    intros H. simpl. rewrite list_lookup_insert_eq.
    + eapply IH; eauto.
    + eapply lookup_lt_Some; eauto.
Qed.

(** ** What an in-place change does to the multiset of nodes *)

Lemma flat_map_iter_insert (cs : list Element) i c c' :
  cs !! i = Some c ->
  flat_map iter cs ≡ₚ iter c ++ flat_map iter (delete i cs) /\
  flat_map iter (<[i := c']> cs) ≡ₚ iter c' ++ flat_map iter (delete i cs).
Proof.
  revert i. induction cs as [|x cs IH]; intros [|i]; simpl; try discriminate.
  - intros [= ->]. split; reflexivity.
  - intros H. destruct (IH i H) as [H1 H2]. split.
    + rewrite H1. rewrite !app_assoc. apply Permutation_app_tail.
      apply Permutation_app_comm.
    + rewrite H2. rewrite !app_assoc. apply Permutation_app_tail.
      apply Permutation_app_comm.
Qed.

Lemma shape_update_at f e i p :
  shape (update_at f e (i :: p)) = shape e.
Proof.
  destruct e as [t a cs]. simpl. destruct (cs !! i) eqn:Hi; [|reflexivity].
  unfold shape, is_leaf. simpl. f_equal.
  destruct cs; [discriminate|]. destruct i; reflexivity.
Qed.

(** A change at position [p] that trades the nodes [rem] for the nodes
    [extra] below [p] does the same to the whole tree. *)
Lemma update_at_shapes f p : forall e s rem extra,
  node_at e p = Some s ->
  rem ++ map shape (iter (f s)) ≡ₚ extra ++ map shape (iter s) ->
  rem ++ map shape (iter (update_at f e p)) ≡ₚ extra ++ map shape (iter e).
Proof.
  induction p as [|i p IH]; intros e s rem extra.
  - simpl. intros [= ->]. auto.
  - intros Hn Hs. pose proof (shape_update_at f e i p) as Hsh.
    destruct e as [t a cs]. simpl in Hn, Hsh |- *.
    destruct (cs !! i) as [c|] eqn:Hc; [|discriminate].
    specialize (IH c s rem extra Hn Hs).
    destruct (flat_map_iter_insert cs i c (update_at f c p) Hc) as [H1 H2].
    simpl. rewrite Hsh.
    rewrite <- !Permutation_middle. apply perm_skip.
    rewrite H1, H2, !map_app, !app_assoc.
    apply Permutation_app_tail. exact IH.
Qed.

Lemma shapes_update_at f p e s rem extra :
  node_at e p = Some s ->
  shape (update_at f e p) = shape e ->
  rem ++ map shape (iter (f s)) ≡ₚ extra ++ map shape (iter s) ->
  rem ++ shapes (update_at f e p) ≡ₚ extra ++ shapes e.
Proof.
  intros Hn Hsh Hs.
  pose proof (update_at_shapes f p e s rem extra Hn Hs) as H.
  rewrite !iter_unfold in H. simpl in H. rewrite Hsh in H.
  rewrite <- !Permutation_middle in H.
  apply Permutation_cons_inv in H. exact H.
Qed.

Lemma shape_update_at_keep f e p s :
  node_at e p = Some s -> shape (f s) = shape s ->
  shape (update_at f e p) = shape e.
Proof.
  destruct p as [|i p]; simpl.
  - intros [= ->]. auto.
  - intros _ _. apply (shape_update_at f e i p).
Qed.

Lemma count_app {A} (q : A -> bool) l1 l2 :
  count q (l1 ++ l2) = count q l1 + count q l2.
Proof. unfold count. rewrite List.filter_app, length_app. reflexivity. Qed.

Lemma count_cons {A} (q : A -> bool) x l :
  count q (x :: l) = (if q x then 1 else 0) + count q l.
Proof. unfold count. simpl. destruct (q x); reflexivity. Qed.

Lemma count_Permutation {A} (q : A -> bool) l1 l2 :
  l1 ≡ₚ l2 -> count q l1 = count q l2.
Proof.
  induction 1; rewrite ?count_cons; lia.
Qed.

Lemma count_map {A B} (q : B -> bool) (g : A -> B) l :
  count q (map g l) = count (fun x => q (g x)) l.
Proof.
  induction l as [|x l IH]; [reflexivity|].
  simpl. rewrite !count_cons, IH. reflexivity.
Qed.

(** ** [insert_node] *)

Lemma target_xpath_shape target x :
  target_xpath target x = shape_match target (shape x).
Proof. destruct x. reflexivity. Qed.

Lemma target_xpath_self target : target_xpath target target = true.
Proof.
  unfold target_xpath, xpath_match. rewrite String.eqb_refl. simpl.
  destruct (get target "side") as [s|] eqn:Hs; [|reflexivity].
  destruct (PyStr.is_empty s); [reflexivity|].
  apply bool_decide_eq_true. reflexivity.
Qed.

Lemma In_shapes tree sh :
  In sh (shapes tree) <-> exists x, In x (findall tree) /\ shape x = sh.
Proof.
  unfold shapes. rewrite in_map_iff. split; intros (x & H1 & H2); eauto.
Qed.

Lemma insert_node_succeeds tree target new_tag attrs append sh :
  In sh (shapes tree) -> shape_match target sh = true ->
  exists r, insert_node tree target new_tag attrs append = inr r.
Proof.
  intros Hin Hm. apply In_shapes in Hin as (x & Hx & <-).
  rewrite <- target_xpath_shape in Hm.
  destruct (find_path_is_Some _ _ _ Hx Hm) as [p Hp].
  unfold insert_node. rewrite Hp.
  destruct append; [eauto|].
  apply find_path_Some in Hp as (pp & i & parent & s & -> & Hpp & Hi & Hq).
  rewrite removelast_last, last_last, Hpp.
  rewrite (node_at_app _ _ _ _ Hpp). simpl. rewrite Hi.
  destruct (Nat.ltb 1 (length (children parent))); eauto.
Qed.

(** Regular insertion: every node of the tree is kept as it is; the new,
    childless node joins them, and with it an intermediate internal node
    when the parent of the target had more than one child. *)
Lemma insert_node_regular tree target new_tag attrs tree' n :
  insert_node tree target new_tag attrs false = inr (tree', n) ->
  n = Elem new_tag attrs [] /\
  exists extra,
    (extra = [] \/ extra = [(new_label tree false, internal_attrs, false)]) /\
    shapes tree' ≡ₚ (new_tag, attrs, true) :: extra ++ shapes tree.
Proof.
  unfold insert_node.
  set (label := new_label tree false). clearbody label.
  destruct (find_path (target_xpath target) tree) as [p|] eqn:Hp;
    [|discriminate].
  apply find_path_Some in Hp as (pp & i & parent & s & -> & Hpp & Hi & Hq).
  rewrite removelast_last, last_last, Hpp.
  rewrite (node_at_app _ _ _ _ Hpp). simpl. rewrite Hi.
  destruct parent as [pt pa cs]. simpl in Hi. simpl.
  assert (Hcs : match cs with [] => False | _ :: _ => True end)
    by (destruct cs; [discriminate | exact I]).
  destruct (flat_map_iter_insert cs i s s Hi) as [Hperm _].
  destruct (Nat.ltb 1 (length cs)).
  - intros [= <- <-]. split; [reflexivity|].
    exists [(label, internal_attrs, false)].
    split; [right; reflexivity|].
    apply (shapes_update_at _ pp tree (Elem pt pa cs) []
             [(new_tag, attrs, true); (label, internal_attrs, false)]
             Hpp).
    + eapply shape_update_at_keep; [exact Hpp|].
      unfold shape, is_leaf. simpl. destruct cs; [contradiction|].
      destruct (delete i (e :: cs)); reflexivity.
    + simpl. rewrite flat_map_app. simpl.
      replace (shape (Elem pt pa (delete i cs ++
                 [Elem label internal_attrs [s; Elem new_tag attrs []]])))
        with (shape (Elem pt pa cs)).
      2:{ unfold shape, is_leaf. simpl. destruct cs; [contradiction|].
          destruct (delete i (e :: cs)); reflexivity. }
      rewrite Hperm, ?app_nil_r, ?map_app. simpl.
      rewrite ?app_nil_r, ?map_app. simpl.
      change (shape (Elem label internal_attrs [s; Elem new_tag attrs []]))
        with (label, internal_attrs, false).
      change (shape (Elem new_tag attrs [])) with (new_tag, attrs, true).
      set (A := map shape (iter s)).
      set (B := map shape (flat_map iter (delete i cs))).
      set (x := (new_tag, attrs, true)).
      set (y := (label, internal_attrs, false)).
      set (z := shape (Elem pt pa cs)).
      solve_Permutation.
  - intros [= <- <-]. split; [reflexivity|].
    exists []. split; [left; reflexivity|].
    apply (shapes_update_at _ pp tree (Elem pt pa cs) []
             [(new_tag, attrs, true)] Hpp).
    + eapply shape_update_at_keep; [exact Hpp|].
      unfold shape, is_leaf, SubElement. simpl. destruct cs; [contradiction|].
      reflexivity.
    + unfold SubElement. simpl. rewrite flat_map_app. simpl.
      replace (shape (Elem pt pa (cs ++ [Elem new_tag attrs []])))
        with (shape (Elem pt pa cs)).
      2:{ unfold shape, is_leaf. simpl. destruct cs; [contradiction|].
          reflexivity. }
      rewrite !map_app. simpl.
      change (shape (Elem new_tag attrs [])) with (new_tag, attrs, true).
      solve_Permutation.
Qed.

(** Appending insertion: the new node becomes the last child of the first
    node that matches the target. *)
Lemma insert_node_append tree target new_tag attrs tree' n :
  insert_node tree target new_tag attrs true = inr (tree', n) ->
  n = Elem new_tag attrs [] /\
  exists p s,
    p <> [] /\ node_at tree p = Some s /\ target_xpath target s = true /\
    node_at tree' p = Some (SubElement s new_tag attrs) /\
    shape s :: shapes tree' ≡ₚ
      (new_tag, attrs, true) :: (tag s, attrib s, false) :: shapes tree.
Proof.
  unfold insert_node.
  destruct (find_path (target_xpath target) tree) as [p|] eqn:Hp;
    [|discriminate].
  apply find_path_Some in Hp as (pp & i & parent & s & -> & Hpp & Hi & Hq).
  intros [= <- <-]. split; [reflexivity|].
  assert (Hs : node_at tree (pp ++ [i]) = Some s).
  { rewrite (node_at_app _ _ _ _ Hpp). simpl. rewrite Hi. reflexivity. }
  exists (pp ++ [i]), s. split; [destruct pp; discriminate|].
  split; [exact Hs|]. split; [exact Hq|].
  split.
  { apply (node_at_update_at (fun t => SubElement t new_tag attrs)).
    exact Hs. }
  apply (shapes_update_at _ (pp ++ [i]) tree s [shape s]
           [(new_tag, attrs, true); (tag s, attrib s, false)] Hs).
  - destruct pp; apply shape_update_at.
  - destruct s as [t a cs]. unfold SubElement. simpl.
    rewrite flat_map_app, !map_app. simpl.
    change (shape (Elem new_tag attrs [])) with (new_tag, attrs, true).
    replace (shape (Elem t a (cs ++ [Elem new_tag attrs []])))
      with (t, a, false).
    2:{ unfold shape, is_leaf. simpl. destruct cs; reflexivity. }
    set (x := (new_tag, attrs, true)). set (y := (t, a, false)).
    set (z := shape (Elem t a cs)).
    solve_Permutation.
Qed.

Lemma keys_shapes tree : keys tree = map fst (shapes tree).
Proof. unfold keys, shapes. rewrite map_map. reflexivity. Qed.

Lemma In_keys tree k :
  In k (keys tree) <-> exists x, In x (findall tree) /\ (tag x, attrib x) = k.
Proof.
  unfold keys. rewrite in_map_iff. split; intros (x & H1 & H2); eauto.
Qed.

(** Both kinds of insertion keep every node and add the new one, plus at
    most one intermediate internal node. *)
Lemma insert_node_keys tree target new_tag attrs append tree' n :
  insert_node tree target new_tag attrs append = inr (tree', n) ->
  n = Elem new_tag attrs [] /\
  exists extra,
    (extra = [] \/ extra = [(new_label tree false, internal_attrs)]) /\
    keys tree' ≡ₚ (new_tag, attrs) :: extra ++ keys tree.
Proof.
  destruct append; intros H.
  - apply insert_node_append in H
      as (-> & p & s & _ & _ & _ & _ & Hperm).
    split; [reflexivity|]. exists []. split; [left; reflexivity|].
    apply (Permutation_map fst) in Hperm. simpl in Hperm.
    rewrite <- !keys_shapes in Hperm. rewrite perm_swap in Hperm.
    apply Permutation_cons_inv in Hperm. exact Hperm.
  - apply insert_node_regular in H as (-> & extra & Hex & Hperm).
    split; [reflexivity|]. exists (map fst extra). split.
    + destruct Hex as [-> | ->]; [left | right]; reflexivity.
    + apply (Permutation_map fst) in Hperm. simpl in Hperm.
      rewrite map_app, <- !keys_shapes in Hperm. exact Hperm.
Qed.

Lemma insert_node_succeeds_key tree target new_tag attrs append k :
  In k (keys tree) -> key_match target k = true ->
  exists tree', insert_node tree target new_tag attrs append =
                inr (tree', Elem new_tag attrs []).
Proof.
  intros Hin Hk. rewrite keys_shapes in Hin.
  apply in_map_iff in Hin as (sh & <- & Hsh).
  destruct (insert_node_succeeds tree target new_tag attrs append sh Hsh Hk)
    as [[tree' n] H].
  pose proof (insert_node_keys _ _ _ _ _ _ _ H) as [-> _]. eauto.
Qed.

Lemma key_match_self target :
  key_match target (tag target, attrib target) = true.
Proof.
  pose proof (target_xpath_self target) as H.
  rewrite target_xpath_shape in H. exact H.
Qed.

Lemma In_findall_key tree x :
  In x (findall tree) -> In (tag x, attrib x) (keys tree).
Proof. intros H. apply In_keys. eauto. Qed.

(** The three insertions of the admixture step succeed for targets taken
    from the tree. *)
Lemma insert_admixture_steps tree target1 target2 new_tag :
  In target1 (findall tree) -> In target2 (findall tree) ->
  let a := new_label tree true in
  let side := if PyStr.lt (tag target1) (tag target2) then "l" else "r" in
  exists tree1 tree2 tree3,
    insert_node tree target1 a (admix_attrs "l") false =
      inr (tree1, Elem a (admix_attrs "l") []) /\
    insert_node tree1 target2 a (admix_attrs "r") false =
      inr (tree2, Elem a (admix_attrs "r") []) /\
    insert_node tree2 (Elem a (admix_attrs side) []) new_tag ∅ true =
      inr (tree3, Elem new_tag ∅ []) /\
    insert_admixture tree target1 target2 new_tag = inr tree3.
Proof.
  intros H1 H2 a side.
  destruct (insert_node_succeeds_key tree target1 a (admix_attrs "l") false
              _ (In_findall_key _ _ H1) (key_match_self _)) as [tree1 E1].
  destruct (insert_node_keys _ _ _ _ _ _ _ E1) as (_ & ex1 & _ & P1).
  assert (K2 : In (tag target2, attrib target2) (keys tree1)).
  { eapply Permutation_in; [symmetry; exact P1|].
    right. apply in_or_app. right. apply In_findall_key. exact H2. }
  destruct (insert_node_succeeds_key tree1 target2 a (admix_attrs "r") false
              _ K2 (key_match_self _)) as [tree2 E2].
  destruct (insert_node_keys _ _ _ _ _ _ _ E2) as (_ & ex2 & _ & P2).
  assert (K3 : In (a, admix_attrs side) (keys tree2)).
  { eapply Permutation_in; [symmetry; exact P2|].
    subst side. destruct (PyStr.lt (tag target1) (tag target2)).
    - right. apply in_or_app. right.
      eapply Permutation_in; [symmetry; exact P1|]. left. reflexivity.
    - left. reflexivity. }
  destruct (insert_node_succeeds_key tree2 (Elem a (admix_attrs side) [])
              new_tag ∅ true _ K3 (key_match_self (Elem a (admix_attrs side) [])))
    as [tree3 E3].
  exists tree1, tree2, tree3. repeat split; try assumption.
  unfold insert_admixture. fold a. rewrite E1, E2.
  subst side. destruct (PyStr.lt (tag target1) (tag target2));
    rewrite E3; reflexivity.
Qed.

(** ** Leaf count (C8) *)

Lemma num_nodes_keys tree :
  num_nodes tree = count (fun k => negb (key_internal k)) (keys tree).
Proof. unfold num_nodes, keys. rewrite count_map. reflexivity. Qed.

Lemma count_internal_extra tree (extra : list (string * gmap string string)) :
  extra = [] \/ extra = [(new_label tree false, internal_attrs)] ->
  count (fun k => negb (key_internal k)) extra = 0.
Proof. intros [-> | ->]; reflexivity. Qed.

Lemma num_nodes_insert_node tree target new_tag attrs append tree' n :
  insert_node tree target new_tag attrs append = inr (tree', n) ->
  num_nodes tree' =
    (if key_internal (new_tag, attrs) then 0 else 1) + num_nodes tree.
Proof.
  intros H. apply insert_node_keys in H as (_ & extra & Hex & Hperm).
  rewrite !num_nodes_keys, (count_Permutation _ _ _ Hperm).
  rewrite count_cons, count_app, (count_internal_extra _ _ Hex).
  destruct (key_internal (new_tag, attrs)); reflexivity.
Qed.

Lemma key_internal_plain t : key_internal (t, ∅) = false.
Proof. reflexivity. Qed.

Lemma key_internal_admix t side : key_internal (t, admix_attrs side) = true.
Proof.
  unfold key_internal, admix_attrs, internal_attrs. simpl.
  apply bool_decide_eq_true.
  rewrite !lookup_insert_ne by discriminate. apply lookup_singleton_eq.
Qed.

(** C8.  Insertion monotonicity: for a target (two targets) taken from
    the tree, the regular insertion and the admixture insertion both
    succeed, and the tree they produce has exactly one more node that is not
    flagged internal than the tree they started from; the intermediate and
    ingress nodes they create are all flagged internal. *)
Theorem insertion_adds_one_leaf tree target1 target2 new_tag :
  In target1 (findall tree) -> In target2 (findall tree) ->
  (exists tree' n,
     insert_node tree target1 new_tag ∅ false = inr (tree', n) /\
     num_nodes tree' = num_nodes tree + 1) /\
  (exists tree',
     insert_admixture tree target1 target2 new_tag = inr tree' /\
     num_nodes tree' = num_nodes tree + 1).
Proof.
  intros H1 H2. split.
  - destruct (insert_node_succeeds_key tree target1 new_tag ∅ false
                _ (In_findall_key _ _ H1) (key_match_self _)) as [tree' E].
    exists tree', (Elem new_tag ∅ []). split; [exact E|].
    rewrite (num_nodes_insert_node _ _ _ _ _ _ _ E), key_internal_plain. lia.
  - destruct (insert_admixture_steps tree target1 target2 new_tag H1 H2)
      as (tree1 & tree2 & tree3 & E1 & E2 & E3 & E).
    exists tree3. split; [exact E|].
    rewrite (num_nodes_insert_node _ _ _ _ _ _ _ E3).
    rewrite (num_nodes_insert_node _ _ _ _ _ _ _ E2).
    rewrite (num_nodes_insert_node _ _ _ _ _ _ _ E1).
    rewrite key_internal_plain, !key_internal_admix. lia.
Qed.

(** ** Duplicate labels (C9) *)

(** C9 (amended).  The builder does not compare the new label with the
    labels already in the tree: when the label is already there, the
    insertion of a second population of that name succeeds like any other
    and the tree it produces has one more childless node of that name, so at
    least two. *)
Theorem insert_node_accepts_duplicate tree target new_tag :
  In target (findall tree) ->
  1 <= leaves_tagged new_tag tree ->
  exists tree' n,
    insert_node tree target new_tag ∅ false = inr (tree', n) /\
    leaves_tagged new_tag tree' = leaves_tagged new_tag tree + 1 /\
    2 <= leaves_tagged new_tag tree'.
Proof.
  intros Ht Hdup.
  destruct (insert_node_succeeds_key tree target new_tag ∅ false
              _ (In_findall_key _ _ Ht) (key_match_self _)) as [tree' E].
  exists tree', (Elem new_tag ∅ []). split; [exact E|].
  apply insert_node_regular in E as (_ & extra & Hex & Hperm).
  assert (leaves_tagged new_tag tree' = leaves_tagged new_tag tree + 1);
    [|lia].
  unfold leaves_tagged. rewrite (count_Permutation _ _ _ Hperm).
  rewrite count_cons, count_app. simpl. rewrite String.eqb_refl. simpl.
  destruct Hex as [-> | ->]; simpl.
  - lia.
  - rewrite count_cons. simpl. rewrite andb_false_r. unfold count. simpl. lia.
Qed.

(** ** Admixture insertion (C5) *)

Lemma string_of_uint_inj d : forall d',
  NilEmpty.string_of_uint d = NilEmpty.string_of_uint d' -> d = d'.
Proof.
  induction d; intros d'; destruct d'; simpl; intros H;
    try discriminate; try reflexivity;
    injection H as H; f_equal; auto.
Qed.

Lemma to_uint_nonnil n : Nat.to_uint n <> Decimal.Nil.
Proof.
  rewrite <- (Unsigned.of_to n) at 1. rewrite Unsigned.to_of.
  apply DecimalFacts.unorm_nonnil.
Qed.

Lemma format_num_inj n m : PyStr.format_num n = PyStr.format_num m -> n = m.
Proof.
  unfold PyStr.format_num, NilZero.string_of_uint. intros H.
  pose proof (to_uint_nonnil n) as Hn. pose proof (to_uint_nonnil m) as Hm.
  apply Unsigned.to_uint_inj. apply string_of_uint_inj.
  destruct (Nat.to_uint n), (Nat.to_uint m); try congruence.
Qed.

Lemma num_admix_keys tree : num_admix tree = count key_admix (keys tree) / 2.
Proof. unfold num_admix, keys. rewrite count_map. reflexivity. Qed.

Lemma new_label_admix tree :
  new_label tree true = "a" +:+ PyStr.format_num (num_admix tree + 1).
Proof. reflexivity. Qed.



Lemma key_admix_plain t : key_admix (t, ∅) = false.
Proof. reflexivity. Qed.

Lemma key_admix_internal t : key_admix (t, internal_attrs) = false.
Proof. reflexivity. Qed.

Lemma key_admix_admix t side : key_admix (t, admix_attrs side) = true.
Proof.
  unfold key_admix, admix_attrs. simpl. apply bool_decide_eq_true.
  rewrite lookup_insert_ne by discriminate. apply lookup_insert_eq.
Qed.

Lemma count_admix_extra tree (extra : list (string * gmap string string)) :
  extra = [] \/ extra = [(new_label tree false, internal_attrs)] ->
  count key_admix extra = 0.
Proof. intros [-> | ->]; reflexivity. Qed.


(** Keys of the tree an admixture insertion produces. *)
Lemma insert_admixture_keys tree target1 target2 new_tag tree' :
  In target1 (findall tree) -> In target2 (findall tree) ->
  insert_admixture tree target1 target2 new_tag = inr tree' ->
  exists extra,
    (forall k, In k extra -> snd k = internal_attrs) /\
    keys tree' ≡ₚ
      (new_tag, ∅) :: (new_label tree true, admix_attrs "r")
      :: (new_label tree true, admix_attrs "l") :: extra ++ keys tree.
Proof.
  intros H1 H2 E.
  destruct (insert_admixture_steps tree target1 target2 new_tag H1 H2)
    as (tree1 & tree2 & tree3 & E1 & E2 & E3 & E').
  rewrite E in E'. injection E' as ->.
  apply insert_node_keys in E1 as (_ & ex1 & Hex1 & P1).
  apply insert_node_keys in E2 as (_ & ex2 & Hex2 & P2).
  apply insert_node_keys in E3 as (_ & ex3 & Hex3 & P3).
  exists (ex3 ++ ex2 ++ ex1). split.
  - intros k Hk. rewrite !in_app_iff in Hk.
    destruct Hk as [Hk | [Hk | Hk]];
      [destruct Hex3 as [-> | ->] | destruct Hex2 as [-> | ->]
       | destruct Hex1 as [-> | ->]];
      simpl in Hk; try contradiction;
      destruct Hk as [<- | []]; reflexivity.
  - rewrite P3, P2, P1. solve_Permutation.
Qed.





Lemma admix_attrs_side c : admix_attrs c !! "side" = Some c.
Proof. unfold admix_attrs. apply lookup_insert_eq. Qed.

Lemma admix_attrs_inj c c' : admix_attrs c = admix_attrs c' -> c = c'.
Proof.
  intros H. pose proof (admix_attrs_side c) as Hc.
  rewrite H, admix_attrs_side in Hc. congruence.
Qed.

Lemma target_xpath_ingress a c s :
  PyStr.is_empty c = false ->
  target_xpath (Elem a (admix_attrs c) []) s = true ->
  tag s = a /\ attrib s !! "side" = Some c.
Proof.
  intros Hc. unfold target_xpath, xpath_match, get. simpl.
  rewrite admix_attrs_side, Hc.
  intros H. apply andb_true_iff in H as [H1 H2].
  apply String.eqb_eq in H1. apply bool_decide_eq_true in H2. auto.
Qed.




Lemma insert_admixture_count_admix tree target1 target2 new_tag tree' :
  In target1 (findall tree) -> In target2 (findall tree) ->
  insert_admixture tree target1 target2 new_tag = inr tree' ->
  count is_admix (findall tree') = count is_admix (findall tree) + 2.
Proof.
  intros H1 H2 E.
  destruct (insert_admixture_keys _ _ _ _ _ H1 H2 E) as (extra & Hex & P).
  assert (Hc : count key_admix extra = 0).
  { clear P. induction extra as [|k extra IH]; [reflexivity|].
    rewrite count_cons, IH by (intros; apply Hex; right; assumption).
    destruct k as [t a]. rewrite (Hex (t, a) (or_introl eq_refl) : a = _).
    reflexivity. }
  change (count is_admix (findall tree'))
    with (count (fun x => key_admix (tag x, attrib x)) (findall tree')).
  change (count is_admix (findall tree))
    with (count (fun x => key_admix (tag x, attrib x)) (findall tree)).
  rewrite <- !(count_map key_admix (fun x => (tag x, attrib x))).
  fold (keys tree') (keys tree). rewrite (count_Permutation _ _ _ P).
  rewrite !count_cons, count_app, Hc, key_admix_plain, !key_admix_admix.
  simpl. lia.
Qed.

Lemma count_key_keys t a tree :
  count_key t a tree = count (fun k => bool_decide (k = (t, a))) (keys tree).
Proof.
  unfold count_key, keys. rewrite count_map. unfold count. f_equal.
  apply List.filter_ext. intros x. apply bool_decide_ext.
  split; [intros [-> ->]; reflexivity | intros [= -> ->]; auto].
Qed.

Lemma count_zero {A} (q : A -> bool) l :
  (forall x, In x l -> q x = false) -> count q l = 0.
Proof.
  induction l as [|x l IH]; intros H; [reflexivity|].
  rewrite count_cons, (H x (or_introl eq_refl)), IH; [reflexivity|].
  intros y Hy. apply H. right. exact Hy.
Qed.


(** ** Logs without the expected markers (C7) *)

Lemma extract_outliers_go_no_marker log : forall outliers worst,
  (forall line, In line log -> PyStr.contains "outliers" line = false) ->
  fst (extract_outliers_go log outliers false worst) = outliers.
Proof.
  induction log as [|line rest IH]; intros outliers worst H; [reflexivity|].
  simpl. rewrite (H line (or_introl eq_refl)).
  assert (Hrest : forall l, In l rest -> PyStr.contains "outliers" l = false)
    by (intros; apply H; right; assumption).
  destruct (PyStr.contains "worst f-stat" line); simpl; apply IH; exact Hrest.
Qed.

(** C7 (amended).  [extract_outliers] has no outcome for a malformed log:
    for a log in which no line contains the word outliers it returns the
    empty list of outliers, which is what a log with an empty outliers
    section gives, and which is within every threshold. *)
Theorem missing_outliers_marker_reads_as_none log threshold :
  (forall line, In line log -> PyStr.contains "outliers" line = false) ->
  fst (extract_outliers log) = [] /\
  Nat.leb (length (fst (extract_outliers log))) threshold = true.
Proof.
  intros H. unfold extract_outliers.
  rewrite (extract_outliers_go_no_marker log [] [] H). split; reflexivity.
Qed.

(** ** More on [insert_node] *)

Lemma find_path_None_iff q e :
  find_path q e = None <-> forall x, In x (findall e) -> q x = false.
Proof.
  split; [apply find_path_None|]. intros H.
  destruct (find_path q e) as [p|] eqn:Hp; [|reflexivity]. exfalso.
  apply find_path_Some in Hp as (pp & i & parent & s & -> & Hpp & Hi & Hq).
  assert (Hs : node_at e (pp ++ [i]) = Some s).
  { rewrite (node_at_app _ _ _ _ Hpp). simpl. rewrite Hi. reflexivity. }
  assert (Hne : pp ++ [i] <> []) by (destruct pp; discriminate).
  rewrite (H s (node_at_In_findall _ _ _ Hne Hs)) in Hq. discriminate.
Qed.

Lemma root_update_at f e p :
  (forall x, tag (f x) = tag x /\ attrib (f x) = attrib x) ->
  tag (update_at f e p) = tag e /\ attrib (update_at f e p) = attrib e.
Proof.
  intros Hf. destruct p as [|i p]; simpl; [apply Hf|].
  destruct (children e !! i); auto.
Qed.

(** X1.  [insert_node] changes nothing it does not add: the root keeps
    its tag and attributes, every node below it keeps its tag and
    attributes, and the nodes that join them are the new, childless node
    and, for an insertion that does not append, at most one intermediate
    node, which is labelled by [new_label] and only flagged internal. *)
Theorem insert_node_keeps_every_node tree target new_tag attrs append tree' n :
  insert_node tree target new_tag attrs append = inr (tree', n) ->
  n = Elem new_tag attrs [] /\
  tag tree' = tag tree /\ attrib tree' = attrib tree /\
  exists extra,
    (extra = [] \/
     (append = false /\ extra = [(new_label tree false, internal_attrs)])) /\
    keys tree' ≡ₚ (new_tag, attrs) :: extra ++ keys tree.
Proof.
  intros E.
  assert (Hroot : tag tree' = tag tree /\ attrib tree' = attrib tree).
  { revert E. unfold insert_node.
    destruct (find_path (target_xpath target) tree) as [p|]; [|discriminate].
    destruct append.
    - intros [= <- _]. apply root_update_at. intros x. split; reflexivity.
    - destruct (node_at tree (removelast p)) as [par|]; [|discriminate].
      destruct (node_at tree p) as [s|]; [|discriminate].
      destruct (Nat.ltb 1 (length (children par))); intros [= <- _];
        apply root_update_at; intros x; split; reflexivity. }
  destruct Hroot as [Ht Ha].
  destruct append.
  - apply insert_node_append in E as (-> & p & s & _ & _ & _ & _ & Hperm).
    repeat (split; [assumption || reflexivity|]).
    exists []. split; [left; reflexivity|].
    apply (Permutation_map fst) in Hperm. simpl in Hperm.
    rewrite <- !keys_shapes in Hperm. rewrite perm_swap in Hperm.
    apply Permutation_cons_inv in Hperm. exact Hperm.
  - apply insert_node_keys in E as (-> & extra & Hex & Hperm).
    repeat (split; [assumption || reflexivity|]).
    exists extra. split; [|exact Hperm].
    destruct Hex as [-> | ->]; [left | right]; auto.
Qed.

(** X2.  [insert_node] fails exactly when no node below the root has the
    tag (and the side, if it has one) of the target: then [find] gives None
    and the insertion raises TypeError, or AttributeError when it
    appends. *)
Theorem insert_node_fails_iff tree target new_tag attrs append :
  (forall x, In x (findall tree) -> target_xpath target x = false) <->
  insert_node tree target new_tag attrs append
  = inl (if append then AttributeError else TypeError).
Proof.
  split.
  - intros H. apply find_path_None_iff in H. unfold insert_node.
    rewrite H. reflexivity.
  - intros E x Hx.
    destruct (target_xpath target x) eqn:Hq; [|reflexivity]. exfalso.
    rewrite target_xpath_shape in Hq.
    destruct (insert_node_succeeds tree target new_tag attrs append
                (shape x) (proj2 (In_shapes tree (shape x))
                                 (ex_intro _ x (conj Hx eq_refl))) Hq)
      as [r Hr].
    rewrite Hr in E. discriminate.
Qed.

(** X3.  The admixture count: a regular insertion leaves the number of
    nodes flagged admix as it is, an admixture insertion adds two, so the
    count [run_qpgraph] reports as admix goes up by exactly one. *)
Theorem admix_count_after_insertion tree target1 target2 new_tag :
  In target1 (findall tree) -> In target2 (findall tree) ->
  (forall tree' n,
     insert_node tree target1 new_tag ∅ false = inr (tree', n) ->
     count is_admix (findall tree') = count is_admix (findall tree) /\
     num_admix tree' = num_admix tree) /\
  (forall tree',
     insert_admixture tree target1 target2 new_tag = inr tree' ->
     count is_admix (findall tree') = count is_admix (findall tree) + 2 /\
     num_admix tree' = num_admix tree + 1).
Proof.
  intros H1 H2. split.
  - intros tree' n E. apply insert_node_keys in E as (_ & extra & Hex & P).
    assert (Hc : count is_admix (findall tree') = count is_admix (findall tree)).
    { change (count is_admix (findall tree'))
        with (count (fun x => key_admix (tag x, attrib x)) (findall tree')).
      change (count is_admix (findall tree))
        with (count (fun x => key_admix (tag x, attrib x)) (findall tree)).
      rewrite <- !(count_map key_admix (fun x => (tag x, attrib x))).
      fold (keys tree') (keys tree). rewrite (count_Permutation _ _ _ P).
      rewrite count_cons, count_app, (count_admix_extra _ _ Hex).
      rewrite key_admix_plain. reflexivity. }
    split; [exact Hc|]. unfold num_admix.
    change (length (List.filter is_admix (findall tree')))
      with (count is_admix (findall tree')).
    rewrite Hc. reflexivity.
  - intros tree' E.
    pose proof (insert_admixture_count_admix _ _ _ _ _ H1 H2 E) as Hc.
    split; [exact Hc|]. unfold num_admix.
    change (length (List.filter is_admix (findall tree')))
      with (count is_admix (findall tree')).
    rewrite Hc.
    change (length (List.filter is_admix (findall tree)))
      with (count is_admix (findall tree)).
    replace (count is_admix (findall tree) + 2)
      with (1 * 2 + count is_admix (findall tree)) by lia.
    rewrite Nat.div_add_l by discriminate. lia.
Qed.


(** ** The labels of the trees the search builds *)

Lemma attrs_plain_internal : (∅ : gmap string string) <> internal_attrs.
Proof. intros H. apply (f_equal (fun m => m !! "internal")) in H. discriminate. Qed.

Lemma attrs_plain_admix s : (∅ : gmap string string) <> admix_attrs s.
Proof.
  intros H. apply (f_equal (fun m => m !! "side")) in H.
  rewrite admix_attrs_side, lookup_empty in H. discriminate.
Qed.

Lemma attrs_internal_admix s : internal_attrs <> admix_attrs s.
Proof.
  intros H. apply (f_equal (fun m => m !! "side")) in H.
  rewrite admix_attrs_side in H. vm_compute in H. discriminate.
Qed.

Lemma n_key_inj j j' : n_key j = n_key j' -> j = j'.
Proof.
  unfold n_key. intros H. apply (f_equal fst) in H. simpl in H.
  injection H as H. apply format_num_inj. exact H.
Qed.

Lemma a_key_inj j s j' s' : a_key j s = a_key j' s' -> j = j' /\ s = s'.
Proof.
  unfold a_key. intros H. split.
  - apply (f_equal fst) in H. simpl in H. injection H as H.
    apply format_num_inj. exact H.
  - apply (f_equal snd) in H. cbn [snd] in H. apply admix_attrs_inj. exact H.
Qed.

Lemma n_key_not_a_key j j' s : n_key j <> a_key j' s.
Proof.
  unfold n_key, a_key. intros H. apply (f_equal snd) in H. cbn [snd] in H.
  exact (attrs_internal_admix s H).
Qed.

Lemma kpi_plain t : key_plain_internal (t, ∅) = false.
Proof. reflexivity. Qed.
Lemma kpi_n j : key_plain_internal (n_key j) = true.
Proof. reflexivity. Qed.
Lemma kpi_a j s : key_plain_internal (a_key j s) = false.
Proof.
  unfold key_plain_internal, a_key. rewrite key_admix_admix.
  apply andb_false_r.
Qed.
Lemma ka_n j : key_admix (n_key j) = false.
Proof. reflexivity. Qed.
Lemma ka_a j s : key_admix (a_key j s) = true.
Proof. apply key_admix_admix. Qed.

Lemma occ_cons x k K :
  occ x (k :: K) = (if bool_decide (k = x) then 1 else 0) + occ x K.
Proof. unfold occ. rewrite count_cons. reflexivity. Qed.

Lemma insert_node_append_keys tree target new_tag attrs tree' n :
  insert_node tree target new_tag attrs true = inr (tree', n) ->
  keys tree' ≡ₚ (new_tag, attrs) :: keys tree.
Proof.
  intros E.
  apply insert_node_append in E as (_ & p & s & _ & _ & _ & _ & Hperm).
  apply (Permutation_map fst) in Hperm. simpl in Hperm.
  rewrite <- !keys_shapes in Hperm. rewrite perm_swap in Hperm.
  apply Permutation_cons_inv in Hperm. exact Hperm.
Qed.

Lemma occ_zero x K : (forall k, In k K -> k <> x) -> occ x K = 0.
Proof.
  intros H. apply count_zero. intros k Hk. apply bool_decide_eq_false.
  apply H. exact Hk.
Qed.

Lemma kind_ok_mono kn ka kn' ka' k :
  kn <= kn' -> ka <= ka' -> kind_ok kn ka k -> kind_ok kn' ka' k.
Proof.
  intros Hn Ha [H | [(j & Hj & ->) | (j & s & Hj & Hs & ->)]].
  - left. exact H.
  - right. left. exists j. split; [lia | reflexivity].
  - right. right. exists j, s. split; [lia|]. split; [exact Hs | reflexivity].
Qed.

Lemma gen_ok_nil : gen_ok [].
Proof.
  unfold gen_ok. simpl. repeat split.
  - intros k [].
  - intros j Hj. unfold count in Hj. simpl in Hj. lia.
  - intros j s Hj. unfold count in Hj. simpl in Hj. lia.
Qed.

Lemma gen_ok_plain t K : gen_ok K -> gen_ok ((t, ∅) :: K).
Proof.
  unfold gen_ok. rewrite !count_cons, kpi_plain, key_admix_plain.
  cbv iota. rewrite !Nat.add_0_l.
  intros (He & Hk & Hn & Ha). split; [exact He|]. split; [|split].
  - intros k [<- | Hin]; [left; reflexivity | apply Hk; exact Hin].
  - intros j Hj. rewrite occ_cons, bool_decide_eq_false_2; [apply Hn; exact Hj|].
    intros H. apply (f_equal snd) in H. exact (attrs_plain_internal H).
  - intros j s Hj Hs.
    rewrite occ_cons, bool_decide_eq_false_2; [apply Ha; assumption|].
    intros H. apply (f_equal snd) in H. exact (attrs_plain_admix s H).
Qed.

Lemma gen_ok_n K :
  gen_ok K -> gen_ok (n_key (count key_plain_internal K + 1) :: K).
Proof.
  unfold gen_ok. rewrite !count_cons, kpi_n, ka_n.
  cbv iota. rewrite !Nat.add_0_l.
  set (kn := count key_plain_internal K). set (ka := count key_admix K / 2).
  intros (He & Hk & Hn & Ha). split; [exact He|]. split; [|split].
  - intros k [<- | Hin].
    + right. left. exists (kn + 1). split; [lia | reflexivity].
    + apply (kind_ok_mono kn ka); [lia | lia | apply Hk; exact Hin].
  - intros j Hj. rewrite occ_cons.
    destruct (decide (j = kn + 1)) as [-> | Hne].
    + rewrite bool_decide_eq_true_2 by reflexivity.
      rewrite occ_zero; [reflexivity|]. intros k Hin ->.
      destruct (Hk _ Hin) as [H | [(j' & Hj' & H) | (j' & s & _ & _ & H)]].
      * exact (attrs_plain_internal (eq_sym H)).
      * apply n_key_inj in H. lia.
      * exact (n_key_not_a_key _ _ _ H).
    + rewrite bool_decide_eq_false_2; [apply Hn; lia|].
      intros H. apply n_key_inj in H. lia.
  - intros j s Hj Hs.
    rewrite occ_cons, bool_decide_eq_false_2; [apply Ha; assumption|].
    apply n_key_not_a_key.
Qed.

Lemma gen_ok_a K :
  gen_ok K ->
  gen_ok (a_key (count key_admix K / 2 + 1) "r"
          :: a_key (count key_admix K / 2 + 1) "l" :: K).
Proof.
  unfold gen_ok. rewrite !count_cons, !kpi_a, !ka_a.
  cbv iota. rewrite !Nat.add_0_l.
  set (kn := count key_plain_internal K). set (c := count key_admix K).
  intros (He & Hk & Hn & Ha).
  assert (Hdiv : (1 + (1 + c)) / 2 = c / 2 + 1).
  { replace (1 + (1 + c)) with (1 * 2 + c) by lia.
    rewrite Nat.div_add_l by discriminate. lia. }
  rewrite Hdiv. set (ka := c / 2) in *.
  split; [lia|]. split; [|split].
  - intros k [<- | [<- | Hin]].
    + right. right. exists (ka + 1), "r". split; [lia|]. auto.
    + right. right. exists (ka + 1), "l". split; [lia|]. auto.
    + apply (kind_ok_mono kn ka); [lia | lia | apply Hk; exact Hin].
  - intros j Hj. rewrite !occ_cons.
    rewrite !bool_decide_eq_false_2;
      [apply Hn; exact Hj | |];
      intros H; exact (n_key_not_a_key _ _ _ (eq_sym H)).
  - intros j s Hj Hs. rewrite !occ_cons.
    destruct (decide (j = ka + 1)) as [-> | Hne].
    + rewrite (occ_zero (a_key (ka + 1) s) K).
      2:{ intros k Hin ->.
          destruct (Hk _ Hin) as [H | [(j' & _ & H) | (j' & s' & Hj' & _ & H)]].
          - exact (attrs_plain_admix _ (eq_sym H)).
          - exact (n_key_not_a_key _ _ _ (eq_sym H)).
          - apply a_key_inj in H as [H _]. lia. }
      destruct Hs as [-> | ->].
      * rewrite bool_decide_eq_false_2, bool_decide_eq_true_2;
          [reflexivity | reflexivity |].
        intros H. apply a_key_inj in H as [_ H]. discriminate.
      * rewrite bool_decide_eq_true_2, bool_decide_eq_false_2;
          [reflexivity | | reflexivity].
        intros H. apply a_key_inj in H as [_ H]. discriminate.
    + rewrite !bool_decide_eq_false_2; [apply Ha; [lia | exact Hs] | |];
        intros H; apply a_key_inj in H as [H _]; lia.
Qed.

Lemma gen_ok_Permutation K K' : K ≡ₚ K' -> gen_ok K -> gen_ok K'.
Proof.
  intros P. unfold gen_ok.
  rewrite <- (count_Permutation key_plain_internal _ _ P).
  rewrite <- (count_Permutation key_admix _ _ P).
  intros (He & Hk & Hn & Ha). split; [exact He|]. split; [|split].
  - intros k Hin. apply Hk. eapply Permutation_in; [symmetry; exact P|].
    exact Hin.
  - intros j Hj. unfold occ. rewrite <- (count_Permutation _ _ _ P).
    apply Hn. exact Hj.
  - intros j s Hj Hs. unfold occ. rewrite <- (count_Permutation _ _ _ P).
    apply Ha; assumption.
Qed.

Lemma num_internal_keys tree :
  num_internal tree = count key_plain_internal (keys tree).
Proof. unfold num_internal, keys. rewrite count_map. reflexivity. Qed.

Lemma new_label_n_key tree :
  (new_label tree false, internal_attrs) = n_key (num_internal tree + 1).
Proof. reflexivity. Qed.

(** One insertion of a node that is not itself an intermediate node. *)
Lemma gen_ok_insert_node tree target new_tag attrs append tree' n K :
  insert_node tree target new_tag attrs append = inr (tree', n) ->
  key_plain_internal (new_tag, attrs) = false ->
  keys tree ≡ₚ K ->
  gen_ok K ->
  exists K', keys tree' ≡ₚ (new_tag, attrs) :: K' /\ gen_ok K' /\
             count key_admix K' = count key_admix K.
Proof.
  intros E Hnew P Hok.
  apply insert_node_keys in E as (_ & extra & Hex & Hperm).
  destruct Hex as [-> | ->].
  - exists K. simpl in Hperm. rewrite Hperm, P. auto.
  - exists (n_key (count key_plain_internal K + 1) :: K).
    split; [|split].
    + rewrite Hperm, new_label_n_key, num_internal_keys.
      rewrite (count_Permutation _ _ _ P). simpl. rewrite P. reflexivity.
    + apply gen_ok_n. exact Hok.
    + rewrite count_cons, ka_n. reflexivity.
Qed.

Lemma built_gen_ok tree : built tree -> gen_ok (keys tree).
Proof.
  induction 1 as [root out first | tree target new_tag tree' n Hb IH E
                  | tree t1 t2 new_tag tree' Hb IH H1 H2 E].
  - apply (gen_ok_plain out), (gen_ok_plain first), gen_ok_nil.
  - destruct (gen_ok_insert_node _ _ _ _ _ _ _ (keys tree) E (kpi_plain _)
                (Permutation_refl _) IH) as (K' & P & Hok & _).
    apply (gen_ok_Permutation _ _ (Permutation_sym P)).
    apply gen_ok_plain. exact Hok.
  - destruct (insert_admixture_steps tree t1 t2 new_tag H1 H2)
      as (tree1 & tree2 & tree3 & E1 & E2 & E3 & E').
    rewrite E in E'. injection E' as ->.
    set (a := new_label tree true) in *.
    assert (Ha : forall s, (a, admix_attrs s) = a_key (num_admix tree + 1) s)
      by reflexivity.
    assert (Hkl : key_plain_internal (a, admix_attrs "l") = false)
      by (rewrite Ha; apply kpi_a).
    assert (Hkr : key_plain_internal (a, admix_attrs "r") = false)
      by (rewrite Ha; apply kpi_a).
    destruct (gen_ok_insert_node _ _ _ _ _ _ _ (keys tree) E1 Hkl
                (Permutation_refl _) IH) as (K1 & P1 & Hok1 & Hc1).
    (* the left ingress is set aside while the right one is inserted *)
    apply insert_node_keys in E2 as (_ & ex2 & Hex2 & P2).
    apply insert_node_append_keys in E3 as P3.
    assert (Hn1 : num_internal tree1 = count key_plain_internal K1).
    { rewrite num_internal_keys, (count_Permutation _ _ _ P1), count_cons, Hkl.
      reflexivity. }
    assert (Hex2' : exists K2, ex2 ++ K1 ≡ₚ K2 /\ gen_ok K2 /\
                               count key_admix K2 = count key_admix K1).
    { destruct Hex2 as [-> | ->].
      - exists K1. auto.
      - exists (n_key (count key_plain_internal K1 + 1) :: K1).
        rewrite new_label_n_key, Hn1. split; [reflexivity|].
        split; [apply gen_ok_n; exact Hok1|].
        rewrite count_cons, ka_n. reflexivity. }
    destruct Hex2' as (K2 & PK2 & Hok2 & Hc2).
    apply (gen_ok_Permutation
             ((new_tag, ∅) :: a_key (count key_admix K2 / 2 + 1) "r"
              :: a_key (count key_admix K2 / 2 + 1) "l" :: K2)).
    + rewrite P3, P2, P1.
      rewrite Hc2, Hc1, <- num_admix_keys, <- !Ha.
      rewrite <- PK2. solve_Permutation.
    + apply gen_ok_plain, gen_ok_a. exact Hok2.
Qed.

(** X5.  Labels in the trees the search builds: the nodes flagged admix
    come in pairs; every node below the root is either without attributes (a
    population), or an intermediate node labelled n<j> and only flagged
    internal, or an ingress node labelled a<j> with the flags internal and
    admix and a side; each of n1 ... nk is the label of exactly one
    intermediate node and each of a1 ... am of exactly one ingress node per
    side, k and m being the counts [new_label] works from; so the labels
    [new_label] returns next are carried by no node that has attributes. *)
Theorem built_labels_in_order tree :
  built tree ->
  count is_admix (findall tree) = 2 * num_admix tree /\
  (forall x, In x (findall tree) ->
     attrib x = ∅ \/
     (exists j, 1 <= j <= num_internal tree /\
                tag x = "n" +:+ PyStr.format_num j /\
                attrib x = internal_attrs) \/
     (exists j s, 1 <= j <= num_admix tree /\ (s = "l" \/ s = "r") /\
                  tag x = "a" +:+ PyStr.format_num j /\
                  attrib x = admix_attrs s)) /\
  (forall j, 1 <= j <= num_internal tree ->
     count_key ("n" +:+ PyStr.format_num j) internal_attrs tree = 1) /\
  (forall j s, 1 <= j <= num_admix tree -> s = "l" \/ s = "r" ->
     count_key ("a" +:+ PyStr.format_num j) (admix_attrs s) tree = 1) /\
  (forall x, In x (findall tree) -> attrib x <> ∅ ->
     tag x <> new_label tree false /\ tag x <> new_label tree true).
Proof.
  intros Hb. pose proof (built_gen_ok tree Hb) as (He & Hk & Hn & Ha).
  rewrite <- num_internal_keys, <- num_admix_keys in *.
  assert (Hkind : forall x, In x (findall tree) ->
     attrib x = ∅ \/
     (exists j, 1 <= j <= num_internal tree /\
                tag x = "n" +:+ PyStr.format_num j /\
                attrib x = internal_attrs) \/
     (exists j s, 1 <= j <= num_admix tree /\ (s = "l" \/ s = "r") /\
                  tag x = "a" +:+ PyStr.format_num j /\
                  attrib x = admix_attrs s)).
  { intros x Hx.
    destruct (Hk _ (In_findall_key _ _ Hx))
      as [H | [(j & Hj & H) | (j & s & Hj & Hs & H)]].
    - left. exact H.
    - right. left. exists j. injection H as H1 H2. auto.
    - right. right. exists j, s. unfold a_key in H.
      pose proof (f_equal fst H) as H1. pose proof (f_equal snd H) as H2.
      cbn [fst snd] in H1, H2. auto. }
  split; [|split; [exact Hkind | split; [|split]]].
  - rewrite <- He. unfold keys. rewrite count_map. reflexivity.
  - intros j Hj. rewrite count_key_keys. apply (Hn j Hj).
  - intros j s Hj Hs. rewrite count_key_keys. apply (Ha j s Hj Hs).
  - intros x Hx Hne.
    change (new_label tree false)
      with ("n" +:+ PyStr.format_num (num_internal tree + 1)).
    rewrite new_label_admix.
    destruct (Hkind x Hx) as [H | [(j & Hj & Ht & _) | (j & s & Hj & _ & Ht & _)]];
      [contradiction | |]; rewrite Ht; split; intros H;
      try discriminate; injection H as H; apply format_num_inj in H; lia.
Qed.

(** ** Canonical form (C4) *)

Lemma internal_attrs_non_empty : internal_attrs <> ∅.
Proof.
  intros H. apply (f_equal (fun m : gmap string string => m !! "internal")) in H.
  unfold internal_attrs in H. rewrite lookup_singleton_eq in H.
  discriminate.
Qed.

Lemma admix_attrs_non_empty c : admix_attrs c <> ∅.
Proof.
  intros H. pose proof (admix_attrs_side c) as Hc. rewrite H in Hc.
  discriminate.
Qed.

Lemma admix_attrs_admix c : admix_attrs c !! "admix" = Some "1".
Proof.
  unfold admix_attrs. rewrite lookup_insert_ne by discriminate.
  apply lookup_insert_eq.
Qed.

(** Only nodes with attributes get children: the intermediate nodes and
    the ingress nodes.  A population stays childless. *)
Lemma built_parents_flagged tree :
  built tree ->
  forall sh, In sh (shapes tree) -> snd sh = false -> snd (fst sh) <> ∅.
Proof.
  induction 1 as [root out first
                 | tree target new_tag tree' n Hb IH E
                 | tree target1 target2 new_tag tree' Hb IH H1 H2 E];
    intros sh Hsh Hleaf.
  - simpl in Hsh. destruct Hsh as [<-|[<-|[]]]; discriminate.
  - destruct (insert_node_regular _ _ _ _ _ _ E) as (_ & extra & Hextra & P).
    apply (Permutation_in _ P) in Hsh. destruct Hsh as [<-|Hsh];
      [discriminate|].
    apply in_app_or in Hsh as [Hsh|Hsh]; [|exact (IH sh Hsh Hleaf)].
    destruct Hextra as [-> | ->]; [destruct Hsh|].
    destruct Hsh as [<-|[]]. exact internal_attrs_non_empty.
  - destruct (insert_admixture_steps tree target1 target2 new_tag H1 H2)
      as (t1 & t2 & t3 & E1 & E2 & E3 & E').
    rewrite E in E'. injection E' as <-.
    destruct (insert_node_regular _ _ _ _ _ _ E1) as (_ & ex1 & Hex1 & P1).
    destruct (insert_node_regular _ _ _ _ _ _ E2) as (_ & ex2 & Hex2 & P2).
    destruct (insert_node_append _ _ _ _ _ _ E3)
      as (_ & p & s & _ & _ & Hq & _ & P3).
    assert (Hs : attrib s <> ∅).
    { apply target_xpath_ingress in Hq as [_ Hside].
      - intros Hempty. rewrite Hempty in Hside. discriminate.
      - destruct (PyStr.lt (tag target1) (tag target2)); reflexivity. }
    assert (Hsh' : In sh (shape s :: shapes tree')) by (right; exact Hsh).
    apply (Permutation_in _ P3) in Hsh'.
    destruct Hsh' as [<-|[<-|Hsh']]; [discriminate | exact Hs |].
    apply (Permutation_in _ P2) in Hsh'. destruct Hsh' as [<-|Hsh'];
      [discriminate|].
    apply in_app_or in Hsh' as [Hsh'|Hsh'].
    { destruct Hex2 as [-> | ->]; [destruct Hsh'|].
      destruct Hsh' as [<-|[]]. exact internal_attrs_non_empty. }
    apply (Permutation_in _ P1) in Hsh'. destruct Hsh' as [<-|Hsh'];
      [discriminate|].
    apply in_app_or in Hsh' as [Hsh'|Hsh']; [|exact (IH sh Hsh' Hleaf)].
    destruct Hex1 as [-> | ->]; [destruct Hsh'|].
    destruct Hsh' as [<-|[]]. exact internal_attrs_non_empty.
Qed.

Lemma string_of_uint_digits d :
  forallb PyStr.isdigit (list_ascii_of_string (NilEmpty.string_of_uint d))
  = true.
Proof. induction d; simpl; try exact IHd; reflexivity. Qed.

(** A number is written as one digit at least, and digits only. *)
Lemma format_num_digits j :
  exists d ds,
    PyStr.format_num j = String d ds /\
    forallb PyStr.isdigit (list_ascii_of_string (String d ds)) = true.
Proof.
  unfold PyStr.format_num, NilZero.string_of_uint.
  pose proof (string_of_uint_digits (Nat.to_uint j)) as H.
  destruct (Nat.to_uint j); [exists "0"%char, ""; split; reflexivity|..];
    simpl in H |- *; eexists _, _; (split; [reflexivity|exact H]).
Qed.

Lemma generated_label_suppressed j :
  PyStr.re_match_n_digits_or_R ("n" +:+ PyStr.format_num j) = true /\
  spec_label_suppressed ("n" +:+ PyStr.format_num j) = true.
Proof.
  destruct (format_num_digits j) as (d & ds & -> & Hd).
  change ("n" +:+ String d ds) with (String "n" (String d ds)).
  unfold spec_label_suppressed. rewrite Hd. simpl in Hd |- *.
  apply andb_true_iff in Hd as [Hd _]. rewrite Hd. split; reflexivity.
Qed.

(** C4.  In the canonical form of a tree the search has built, under the
    root label R, every node with children is rendered as its sorted
    children in brackets followed by a suffix.  The suffix is empty exactly
    when the label of the node is n followed by digits or is the root label
    R; every other label is shown, and the nodes with such a label are the
    ingress nodes of the admixtures. *)
Theorem newick_label_suppression tree node :
  built tree ->
  tag tree = "R" ->
  In node (iter tree) ->
  children node <> [] ->
  exists suffix,
    export_newick_tree node =
      "(" +:+
      PyStr.join ","
        (map snd
           (PyStr.sort
              (map (fun child => (tag child, export_newick_tree child))
                   (children node)))) +:+
      ")" +:+ suffix /\
    ((spec_label_suppressed (tag node) = true /\ suffix = "") \/
     (spec_label_suppressed (tag node) = false /\ suffix = tag node /\
      is_admix node = true)).
Proof.
  intros Hb Hroot Hin Hcs.
  assert (Hkey : PyStr.re_match_n_digits_or_R (tag node)
                 = spec_label_suppressed (tag node) /\
                 (spec_label_suppressed (tag node) = false ->
                  is_admix node = true)).
  { assert (Hnode : node = tree \/ In node (findall tree))
      by (destruct tree; destruct Hin as [<-|Hin]; [left | right]; auto).
    destruct Hnode as [-> | Hnode].
    { rewrite Hroot. split; [reflexivity | discriminate]. }
    assert (Hattr : attrib node <> ∅).
    { apply (built_parents_flagged tree Hb (shape node)).
      - apply In_shapes. eauto.
      - unfold shape, is_leaf. simpl. destruct (children node); congruence. }
    destruct (built_gen_ok tree Hb) as (_ & Hkind & _ & _).
    destruct (Hkind _ (In_findall_key _ _ Hnode))
      as [Hplain | [(j & _ & Hk) | (j & s & _ & _ & Hk)]].
    - contradiction.
    - injection Hk as Ht _. rewrite Ht.
      destruct (generated_label_suppressed j) as [-> ->].
      split; [reflexivity | discriminate].
    - injection Hk as Ht Ha. rewrite Ht. split; [reflexivity|]. intros _.
      unfold is_admix, get. rewrite Ha, admix_attrs_admix.
      reflexivity. }
  destruct Hkey as [Hre Hadmix].
  destruct node as [t a [|c cs]]; [contradiction|].
  exists (if PyStr.re_match_n_digits_or_R t then "" else t).
  split; [reflexivity|]. simpl in Hre, Hadmix |- *. rewrite Hre.
  destruct (spec_label_suppressed t); [left | right]; auto.
Qed.

(** ** The labels an insertion adds *)

Lemma List_filter_Permutation {A} (q : A -> bool) l1 l2 :
  l1 ≡ₚ l2 -> List.filter q l1 ≡ₚ List.filter q l2.
Proof.
  induction 1 as [|x l l' _ IH|x y l|l l' l'' _ IH1 _ IH2]; simpl.
  - reflexivity.
  - destruct (q x); [constructor|]; exact IH.
  - destruct (q x), (q y); try reflexivity. apply perm_swap.
  - etransitivity; eassumption.
Qed.

Lemma leaf_labels_keys tree :
  leaf_labels tree
  = map fst (List.filter (fun k => negb (key_internal k)) (keys tree)).
Proof.
  unfold leaf_labels, keys. induction (findall tree) as [|x l IH];
    [reflexivity|].
  simpl. change (key_internal (tag x, attrib x)) with (is_internal x).
  destruct (is_internal x); simpl; rewrite IH; reflexivity.
Qed.

Lemma filter_all_internal (extra : list (string * gmap string string)) :
  (forall k, In k extra -> snd k = internal_attrs) ->
  List.filter (fun k => negb (key_internal k)) extra = [].
Proof.
  induction extra as [|[t a] extra IH]; intros H; [reflexivity|].
  simpl. assert (Ha : a = internal_attrs) by (apply (H (t, a)); left; reflexivity).
  subst a. rewrite IH by (intros k Hk; apply H; right; exact Hk).
  reflexivity.
Qed.

Lemma leaf_labels_regular tree target new_tag tree' n :
  insert_node tree target new_tag ∅ false = inr (tree', n) ->
  leaf_labels tree' ≡ₚ new_tag :: leaf_labels tree.
Proof.
  intros H. apply insert_node_keys in H as (_ & extra & Hextra & Hperm).
  rewrite !leaf_labels_keys.
  rewrite (List_filter_Permutation _ _ _ Hperm).
  cbn [List.filter]. rewrite List.filter_app.
  rewrite (filter_all_internal extra).
  - reflexivity.
  - intros k Hk. destruct Hextra as [->| ->]; [destruct Hk|].
    destruct Hk as [<-|[]]. reflexivity.
Qed.

Lemma leaf_labels_admixture tree target1 target2 new_tag tree' :
  In target1 (findall tree) -> In target2 (findall tree) ->
  insert_admixture tree target1 target2 new_tag = inr tree' ->
  leaf_labels tree' ≡ₚ new_tag :: leaf_labels tree.
Proof.
  intros H1 H2 H.
  apply insert_admixture_keys in H as (extra & Hextra & Hperm);
    [|assumption..].
  rewrite !leaf_labels_keys.
  rewrite (List_filter_Permutation _ _ _ Hperm).
  cbn [List.filter]. rewrite List.filter_app.
  rewrite (filter_all_internal extra Hextra).
  reflexivity.
Qed.

(** ** More on [extract_outliers] *)

Lemma extract_outliers_go_plain lines : forall rest outliers read_log worst,
  Forall (fun line => plain_line line = true) lines ->
  extract_outliers_go (lines ++ rest) outliers read_log worst
  = extract_outliers_go rest
      (outliers ++ (if read_log
                    then map PyStr.split (List.filter not_blank lines)
                    else []))
      read_log worst.
Proof.
  induction lines as [|line lines IH]; intros rest outliers read_log worst H.
  - simpl. destruct read_log; rewrite app_nil_r; reflexivity.
  - apply Forall_cons in H as [Hline H].
    unfold plain_line in Hline.
    apply andb_true_iff in Hline as [H1 H2].
    apply negb_true_iff in H1, H2.
    cbn [app extract_outliers_go]. rewrite H1, H2.
    cbn [List.filter]. unfold not_blank at 1.
    destruct read_log; cbn [andb].
    + destruct (Nat.ltb 0 (String.length (PyStr.strip line))).
      * rewrite IH by exact H. cbn [map]. rewrite <- app_assoc.
        reflexivity.
      * rewrite IH by exact H. reflexivity.
    + rewrite IH by exact H. reflexivity.
Qed.

(** X14.  For a log with one outliers line and, after it, one worst f-stat
    line, the outliers are the lines between the two that are not blank,
    each split into its fields, in the order of the log; the worst
    f-statistic is the fields of the worst f-stat line; what comes before
    the outliers line and after the worst f-stat line is not read. *)
Theorem extract_outliers_sections before header body worst after :
  Forall (fun line => plain_line line = true) before ->
  PyStr.contains "outliers" header = true ->
  Forall (fun line => plain_line line = true) body ->
  worst_line worst = true ->
  Forall (fun line => plain_line line = true) after ->
  extract_outliers (before ++ header :: body ++ worst :: after)
  = (map PyStr.split (List.filter not_blank body), PyStr.split worst).
Proof.
  intros Hbefore Hheader Hbody Hworst Hafter. unfold extract_outliers.
  unfold worst_line in Hworst.
  apply andb_true_iff in Hworst as [H1 H2]. apply negb_true_iff in H1.
  rewrite (extract_outliers_go_plain before _ _ _ _ Hbefore).
  cbn [extract_outliers_go app]. rewrite Hheader.
  rewrite (extract_outliers_go_plain body _ _ _ _ Hbody).
  cbn [extract_outliers_go app]. rewrite H1, H2.
  rewrite <- (app_nil_r after).
  rewrite (extract_outliers_go_plain after _ _ _ _ Hafter).
  simpl. rewrite app_nil_r. reflexivity.
Qed.

Lemma split_go_token tok s :
  PyStr.is_empty tok = false -> PyStr.split_go tok s <> [].
Proof.
  revert tok. induction s as [|c r IH]; intros tok Htok; simpl.
  - rewrite Htok. discriminate.
  - destruct (PyStr.isspace c).
    + rewrite Htok. discriminate.
    + apply IH. destruct tok; reflexivity.
Qed.

Lemma split_go_contains sub c sub' s :
  sub = String c sub' -> PyStr.isspace c = false ->
  PyStr.contains sub s = true ->
  forall tok, PyStr.split_go tok s <> [].
Proof.
  intros -> Hc. induction s as [|d r IH]; intros H tok.
  - simpl in H. discriminate.
  - cbn [PyStr.contains] in H. apply orb_true_iff in H as [H|H].
    + cbn [String.prefix] in H.
      destruct (ascii_dec c d) as [<-|]; [|discriminate].
      cbn [PyStr.split_go]. rewrite Hc. apply split_go_token.
      destruct tok; reflexivity.
    + cbn [PyStr.split_go]. destruct (PyStr.isspace d).
      * destruct (PyStr.is_empty tok); [apply IH; exact H | discriminate].
      * apply IH. exact H.
Qed.

Lemma extract_outliers_go_worst log : forall outliers read_log worst,
  snd (extract_outliers_go log outliers read_log worst) <> [] <->
  worst <> [] \/ exists line, In line log /\ worst_line line = true.
Proof.
  induction log as [|line log IH]; intros outliers read_log worst.
  - simpl. split; [intros H; left; exact H|].
    intros [H|(line & [] & _)]. exact H.
  - cbn [extract_outliers_go]. unfold worst_line.
    destruct (PyStr.contains "outliers" line) eqn:H1;
      [|destruct (PyStr.contains "worst f-stat" line) eqn:H2;
        [|destruct (read_log && _)]];
      rewrite IH; clear IH.
    + split; (intros [H|(l & Hin & Hl)]; [left; exact H|right]).
      * exists l. split; [right; exact Hin | exact Hl].
      * destruct Hin as [<-|Hin]; [rewrite H1 in Hl; discriminate|].
        exists l. split; assumption.
    + split; [intros _; right; exists line; split;
                [left; reflexivity | rewrite H1, H2; reflexivity]|].
      intros _. left.
      apply (split_go_contains "worst f-stat" "w" "orst f-stat" line eq_refl
               eq_refl H2).
    + split; (intros [H|(l & Hin & Hl)]; [left; exact H|right]).
      * exists l. split; [right; exact Hin | exact Hl].
      * destruct Hin as [<-|Hin]; [rewrite H1, H2 in Hl; discriminate|].
        exists l. split; assumption.
    + split; (intros [H|(l & Hin & Hl)]; [left; exact H|right]).
      * exists l. split; [right; exact Hin | exact Hl].
      * destruct Hin as [<-|Hin]; [rewrite H1, H2 in Hl; discriminate|].
        exists l. split; assumption.
Qed.

Lemma extract_outliers_worst log :
  snd (extract_outliers log) <> [] <->
  exists line, In line log /\ worst_line line = true.
Proof.
  unfold extract_outliers. rewrite extract_outliers_go_worst.
  split; [intros [H|H]; [congruence | exact H] | intros H; right; exact H].
Qed.

(** ** The canonical form does not depend on the order of the children *)

Lemma compare_refl s : String.compare s s = Eq.
Proof. apply OrderedTypeEx.String_as_OT.cmp_eq. reflexivity. Qed.

Lemma compare_Lt_trans a b c :
  String.compare a b = Lt -> String.compare b c = Lt ->
  String.compare a c = Lt.
Proof.
  intros H1 H2.
  apply OrderedTypeEx.String_as_OT.cmp_lt in H1, H2.
  apply OrderedTypeEx.String_as_OT.cmp_lt.
  exact (OrderedTypeEx.String_as_OT.lt_trans _ _ _ H1 H2).
Qed.

Lemma compare_Lt_Gt a b : String.compare a b = Lt -> String.compare b a = Gt.
Proof. intros H. rewrite String.compare_antisym, H. reflexivity. Qed.

Lemma pair_le_spec x y :
  PyStr.pair_le x y = true <->
  String.compare (fst x) (fst y) = Lt \/
  (fst x = fst y /\
   (String.compare (snd x) (snd y) = Lt \/ snd x = snd y)).
Proof.
  unfold PyStr.pair_le, String.leb.
  destruct (String.compare (fst x) (fst y)) eqn:H1.
  - apply String.compare_eq_iff in H1.
    destruct (String.compare (snd x) (snd y)) eqn:H2.
    + apply String.compare_eq_iff in H2. intuition.
    + intuition.
    + split; [discriminate|].
      intros [H|[_ [H|E]]]; try discriminate.
      rewrite E, compare_refl in H2. discriminate.
  - intuition.
  - split; [discriminate|]. intros [H|[H _]]; [discriminate|].
    rewrite H, compare_refl in H1. discriminate.
Qed.

Lemma pair_le_total x y : PyStr.pair_le x y = false -> PyStr.pair_le y x = true.
Proof.
  unfold PyStr.pair_le, String.leb.
  rewrite (String.compare_antisym (fst y) (fst x)).
  rewrite (String.compare_antisym (snd y) (snd x)).
  destruct (String.compare (fst x) (fst y)); simpl; try congruence.
  destruct (String.compare (snd x) (snd y)); simpl; congruence.
Qed.

Lemma pair_le_trans : Transitive pair_le_prop.
Proof.
  intros [a1 b1] [a2 b2] [a3 b3]. unfold pair_le_prop.
  rewrite !pair_le_spec. simpl.
  intros [H1|[-> H1]] [H2|[-> H2]].
  - left. exact (compare_Lt_trans _ _ _ H1 H2).
  - left. exact H1.
  - left. exact H2.
  - right. split; [reflexivity|].
    destruct H1 as [H1| ->], H2 as [H2| ->]; auto.
    left. exact (compare_Lt_trans _ _ _ H1 H2).
Qed.

Lemma pair_le_antisym : AntiSymm (=) pair_le_prop.
Proof.
  intros [a1 b1] [a2 b2]. unfold pair_le_prop.
  rewrite !pair_le_spec. simpl.
  intros [H1|[-> H1]] [H2|[E H2]].
  - apply compare_Lt_Gt in H1. congruence.
  - subst. rewrite compare_refl in H1. discriminate.
  - rewrite compare_refl in H2. discriminate.
  - destruct H1 as [H1| ->]; [|reflexivity].
    destruct H2 as [H2| ->]; [|reflexivity].
    apply compare_Lt_Gt in H1. congruence.
Qed.

Lemma sort_insert_Permutation x l : PyStr.sort_insert x l ≡ₚ x :: l.
Proof.
  induction l as [|y l IH]; simpl; [reflexivity|].
  destruct (PyStr.pair_le y x); [|reflexivity].
  rewrite IH. apply perm_swap.
Qed.

Lemma sort_insert_Sorted x l :
  Sorted pair_le_prop l -> Sorted pair_le_prop (PyStr.sort_insert x l).
Proof.
  induction l as [|y l IH]; intros H; simpl.
  - repeat constructor.
  - apply Sorted_inv in H as [Hl Hy].
    destruct (PyStr.pair_le y x) eqn:Hle.
    + constructor; [apply IH; exact Hl|].
      destruct l as [|z l]; simpl.
      * constructor. exact Hle.
      * apply HdRel_inv in Hy.
        destruct (PyStr.pair_le z x); constructor; assumption.
    + constructor; [constructor; assumption|].
      constructor. apply pair_le_total. exact Hle.
Qed.

Lemma sort_fold l : forall acc,
  Sorted pair_le_prop acc ->
  Sorted pair_le_prop (fold_left (fun acc x => PyStr.sort_insert x acc) l acc) /\
  fold_left (fun acc x => PyStr.sort_insert x acc) l acc ≡ₚ l ++ acc.
Proof.
  induction l as [|x l IH]; intros acc Hacc; simpl.
  - split; [exact Hacc | reflexivity].
  - destruct (IH (PyStr.sort_insert x acc) (sort_insert_Sorted x acc Hacc))
      as [H1 H2].
    split; [exact H1|]. rewrite H2, sort_insert_Permutation.
    symmetry. apply Permutation_middle.
Qed.

Lemma sort_Permutation l l' : l ≡ₚ l' -> PyStr.sort l = PyStr.sort l'.
Proof.
  intros H. unfold PyStr.sort.
  destruct (sort_fold l [] (Sorted_nil _)) as [S1 P1].
  destruct (sort_fold l' [] (Sorted_nil _)) as [S2 P2].
  rewrite app_nil_r in P1, P2.
  apply (Sorted_unique pair_le_prop (Transitive0 := pair_le_trans)
           (AntiSymm0 := pair_le_antisym)); try assumption.
  rewrite P1, P2. exact H.
Qed.

Lemma export_newick_tree_node t a cs :
  cs <> [] ->
  export_newick_tree (Elem t a cs)
  = "(" +:+ PyStr.join ","
              (map snd
                 (PyStr.sort
                    (map (fun c => (tag c, export_newick_tree c)) cs)))
    +:+ ")" +:+ (if PyStr.re_match_n_digits_or_R t then "" else t).
Proof. destruct cs; [congruence | reflexivity]. Qed.

Lemma shuffled_tag t t' : shuffled t t' -> tag t = tag t'.
Proof. intros H. inversion H. reflexivity. Qed.

Lemma shuffled_export : forall t t',
  shuffled t t' -> export_newick_tree t = export_newick_tree t'.
Proof.
  induction t as [t a cs IH] using Element_ind'. intros t' H.
  inversion H as [t0 a0 a' cs0 cs' cs'' Hcs Hperm]; subst.
  assert (Hmap : map (fun c => (tag c, export_newick_tree c)) cs
                 = map (fun c => (tag c, export_newick_tree c)) cs'').
  { clear H Hperm. revert cs'' Hcs.
    induction cs as [|c cs IHcs]; intros cs'' Hcs;
      inversion Hcs as [|c0 c'' cs0 cs1 Hc Hrest]; subst; [reflexivity|].
    apply Forall_cons in IH as [IHc IH]. simpl.
    rewrite (shuffled_tag _ _ Hc), (IHc _ Hc), (IHcs IH _ Hrest).
    reflexivity. }
  destruct cs as [|c cs].
  - inversion Hcs; subst. apply Permutation_nil in Hperm. subst.
    reflexivity.
  - assert (Hne : cs' <> []).
    { intros ->. inversion Hcs; subst. symmetry in Hperm.
      apply Permutation_nil in Hperm. discriminate. }
    rewrite !export_newick_tree_node by (assumption || discriminate).
    rewrite Hmap.
    rewrite (sort_Permutation _ _
               (Permutation_map (fun c => (tag c, export_newick_tree c)) Hperm)).
    reflexivity.
Qed.

(** X16.  Two trees that differ only in the order of the children of
    their nodes, and in attributes, have the same Newick string, and so
    the same printed tree and the same graph name. *)
Theorem newick_ignores_child_order t t' :
  shuffled t t' ->
  export_newick_tree t = export_newick_tree t' /\
  forall (sha1_hexdigest phylo_ladderize : string -> string),
    print_newick_tree phylo_ladderize t = print_newick_tree phylo_ladderize t' /\
    hash_text sha1_hexdigest (print_newick_tree phylo_ladderize t) 7
    = hash_text sha1_hexdigest (print_newick_tree phylo_ladderize t') 7.
Proof.
  intros H. apply shuffled_export in H. split; [exact H|].
  intros sha1_hexdigest phylo_ladderize. unfold print_newick_tree.
  rewrite H. split; reflexivity.
Qed.

(** ** The qpGraph format of a tree without repeated tags *)

Lemma string_app_assoc (a b c : string) : (a +:+ b) +:+ c = a +:+ (b +:+ c).
Proof.
  induction a as [|x a IH]; [reflexivity|].
  change (String x ((a +:+ b) +:+ c) = String x (a +:+ (b +:+ c))).
  f_equal. exact IH.
Qed.

Lemma string_app_nil_r (a : string) : a +:+ "" = a.
Proof.
  induction a as [|x a IH]; [reflexivity|].
  change (String x (a +:+ "") = String x a). f_equal. exact IH.
Qed.

Lemma iter_at_unfold p e :
  iter_at p e = (p, e) :: iter_children_at p 0 (children e).
Proof.
  destruct e as [t a cs]. simpl. f_equal. generalize 0.
  induction cs as [|c cs IH]; intros i; simpl; [reflexivity|].
  rewrite IH. reflexivity.
Qed.

Lemma export_qpgraph_node_unfold sha1_hexdigest e p root_tree :
  export_qpgraph_node sha1_hexdigest e p root_tree
  = export_children sha1_hexdigest (tag e) p 0 (children e) "" root_tree.
Proof.
  destruct e as [t a cs]. simpl. generalize 0, "", root_tree.
  induction cs as [|c cs IH]; intros i graph tree; simpl; [reflexivity|].
  destruct (export_child _ _ _ _ _ _) as [err|[graph' tree']]; [reflexivity|].
  destruct (children c); [apply IH|].
  destruct (export_qpgraph_node _ _ _ _) as [err|[edges tree'']];
    [reflexivity | apply IH].
Qed.

Lemma tree_edges_unfold sha1_hexdigest e :
  tree_edges sha1_hexdigest e
  = children_edges sha1_hexdigest (tag e) (children e).
Proof.
  destruct e as [t a cs]. simpl.
  induction cs as [|c cs IH]; simpl; [reflexivity|].
  rewrite IH. reflexivity.
Qed.

Lemma map_snd_iter_at : forall e p, map snd (iter_at p e) = iter e.
Proof.
  induction e as [t a cs IH] using Element_ind'. intros p.
  rewrite iter_at_unfold, iter_unfold. simpl. f_equal.
  unfold findall. simpl. generalize 0.
  induction cs as [|c cs IHcs]; intros i; simpl; [reflexivity|].
  apply Forall_cons in IH as [Hc IH].
  rewrite map_app, Hc, (IHcs IH). reflexivity.
Qed.

Lemma map_snd_descendants root :
  map snd (tl (iter_at [] root)) = findall root.
Proof.
  pose proof (map_snd_iter_at root []) as H.
  rewrite iter_at_unfold in *. rewrite iter_unfold in H.
  simpl in *. congruence.
Qed.

Lemma length_first_seen l : forall seen,
  length (first_seen seen l) <= length l.
Proof.
  induction l as [|x l IH]; intros seen; simpl; [lia|].
  destruct (bool_decide (x ∈ seen)).
  - specialize (IH seen). lia.
  - simpl. specialize (IH (x :: seen)). lia.
Qed.

Lemma length_filter_snd {A B} (q : B -> bool) (l : list (A * B)) :
  length (List.filter (fun pe => q (snd pe)) l)
  = count q (map snd l).
Proof.
  unfold count. induction l as [|x l IH]; simpl; [reflexivity|].
  destruct (q (snd x)); simpl; rewrite IH; reflexivity.
Qed.

Lemma parents_le_count t root :
  length (parents_of t root)
  <= count (fun x => String.eqb (tag x) t) (findall root).
Proof.
  unfold parents_of.
  etransitivity; [apply length_first_seen|].
  rewrite length_map.
  rewrite (length_filter_snd (fun x => String.eqb (tag x) t)).
  rewrite map_snd_descendants. reflexivity.
Qed.

Lemma count_tag_NoDup t (l : list Element) :
  NoDup (map tag l) -> count (fun x => String.eqb (tag x) t) l <= 1.
Proof.
  induction l as [|x l IH]; intros H; [unfold count; simpl; lia|].
  simpl in H. apply NoDup_cons in H as [Hx H]. rewrite count_cons.
  destruct (String.eqb (tag x) t) eqn:E; [|specialize (IH H); lia].
  apply String.eqb_eq in E.
  assert (Hz : count (fun x => String.eqb (tag x) t) l = 0).
  { apply count_zero. intros y Hy.
    apply String.eqb_neq. intros Ey. apply Hx.
    rewrite E, <- Ey. apply list_elem_of_In, in_map, Hy. }
  lia.
Qed.

Lemma export_child_regular sha1_hexdigest parent_tag child_tag child_path
    graph root_tree :
  (forall c, node_at root_tree child_path = Some c -> is_printed c = false) ->
  length (parents_of child_tag root_tree) <= 1 ->
  export_child sha1_hexdigest parent_tag child_tag child_path graph root_tree
  = inr (graph
         +:+ edge_line (hash_text sha1_hexdigest child_tag 7) parent_tag
               child_tag,
         root_tree).
Proof.
  intros Hp Hlen. unfold export_child.
  destruct (node_at root_tree child_path) as [c|].
  - rewrite (Hp c eq_refl).
    destruct (parents_of child_tag root_tree) as [|p1 [|p2 l]];
      simpl in *; try reflexivity; lia.
  - destruct (parents_of child_tag root_tree) as [|p1 [|p2 l]];
      simpl in *; try reflexivity; lia.
Qed.

Lemma export_plain sha1_hexdigest root_tree :
  (forall x, In x (findall root_tree) -> is_printed x = false) ->
  (forall t, length (parents_of t root_tree) <= 1) ->
  forall node p,
    export_qpgraph_node sha1_hexdigest node p root_tree
    = inr (tree_edges sha1_hexdigest node, root_tree).
Proof.
  intros Hp Hone.
  induction node as [t a cs IH] using Element_ind'. intros p.
  rewrite export_qpgraph_node_unfold, tree_edges_unfold. simpl.
  rewrite <- (string_app_nil_r (children_edges _ _ _)) at 1.
  assert (Hgen : forall i graph,
            export_children sha1_hexdigest t p i cs graph root_tree
            = inr (graph +:+ children_edges sha1_hexdigest t cs, root_tree)).
  { induction cs as [|c cs IHcs]; intros i graph; simpl.
    - rewrite string_app_nil_r. reflexivity.
    - apply Forall_cons in IH as [Hc IH].
      rewrite export_child_regular; [| |apply Hone].
      2: { intros x Hx. apply Hp.
           apply (node_at_In_findall root_tree (p ++ [i]) x);
             [destruct p; discriminate | exact Hx]. }
      destruct (children c) eqn:Hcs.
      + rewrite (IHcs IH). rewrite tree_edges_unfold, Hcs. simpl.
        rewrite !string_app_assoc. reflexivity.
      + rewrite Hc, (IHcs IH). rewrite !string_app_assoc. reflexivity. }
  rewrite Hgen. simpl. rewrite string_app_nil_r. reflexivity.
Qed.

Lemma fold_labels (q : Element -> bool) l : forall graph,
  fold_left
    (fun graph node => if q node then graph +:+ label_line (tag node)
                       else graph) l graph
  = graph
    +:+ String.concat ""
          (map (fun node => label_line (tag node)) (List.filter q l)).
Proof.
  assert (Hc : forall x l, String.concat "" (x :: l) = x +:+ String.concat "" l).
  { intros x [|y r]; simpl; [rewrite string_app_nil_r|]; reflexivity. }
  induction l as [|x l IH]; intros graph; simpl;
    [rewrite string_app_nil_r; reflexivity|].
  rewrite IH. destruct (q x); [|reflexivity].
  cbn [map]. rewrite Hc, string_app_assoc. reflexivity.
Qed.

(** X20.  For a tree in which no two nodes below the root have the same
    tag and none is flagged printed, [export_qpgraph] raises nothing and
    writes the root line, one label line per childless node that is not
    flagged admix, and one edge line per node, from its parent to it, in
    document order: no admix line. *)
Theorem export_without_repeated_tags sha1_hexdigest root_node root_tree :
  NoDup (map tag (findall root_tree)) ->
  (forall x, In x (findall root_tree) -> is_printed x = false) ->
  export_qpgraph sha1_hexdigest root_node root_tree
  = inr ("root" +:+ tab +:+ root_node +:+ eol
         +:+ label_lines root_tree
         +:+ tree_edges sha1_hexdigest root_tree).
Proof.
  intros Hnd Hp. unfold export_qpgraph.
  rewrite (export_plain sha1_hexdigest root_tree Hp).
  - rewrite fold_labels. unfold label_lines.
    rewrite !string_app_assoc. reflexivity.
  - intros t. etransitivity; [apply parents_le_count|].
    apply count_tag_NoDup. exact Hnd.
Qed.

(** ** [export_qpgraph] when no tag has more than two parents *)

Lemma iter_children_at_node_at p q d : forall l i,
  Forall (fun c => forall p, In (q, d) (iter_at p c) ->
                   exists s, q = p ++ s /\ node_at c s = Some d) l ->
  In (q, d) (iter_children_at p i l) ->
  exists j c s, l !! j = Some c /\ q = p ++ (i + j) :: s /\
                node_at c s = Some d.
Proof.
  induction l as [|c l IH]; intros i Hl Hin; [destruct Hin|].
  apply Forall_cons in Hl as [Hc Hl]. simpl in Hin.
  apply in_app_or in Hin as [Hin|Hin].
  - destruct (Hc _ Hin) as (s & -> & Hs).
    exists 0, c, s. rewrite Nat.add_0_r, <- app_assoc.
    repeat split. exact Hs.
  - destruct (IH (S i) Hl Hin) as (j & c' & s & Hj & -> & Hs).
    exists (S j), c', s. repeat split; [exact Hj | | exact Hs].
    do 2 f_equal. lia.
Qed.

Lemma iter_at_node_at q d : forall e p,
  In (q, d) (iter_at p e) -> exists s, q = p ++ s /\ node_at e s = Some d.
Proof.
  induction e as [t a cs IH] using Element_ind'. intros p Hin.
  rewrite iter_at_unfold in Hin. destruct Hin as [[= <- <-]|Hin].
  - exists []. rewrite app_nil_r. split; reflexivity.
  - destruct (iter_children_at_node_at p q d _ _ IH Hin)
      as (j & c & s & Hj & -> & Hs).
    exists (j :: s). split; [reflexivity|]. simpl in *. rewrite Hj. exact Hs.
Qed.

Lemma descendants_node_at root q d :
  In (q, d) (tl (iter_at [] root)) -> q <> [] /\ node_at root q = Some d.
Proof.
  rewrite iter_at_unfold. simpl. intros Hin.
  assert (IH : Forall (fun c => forall p, In (q, d) (iter_at p c) ->
                         exists s, q = p ++ s /\ node_at c s = Some d)
                 (children root)).
  { apply Forall_forall. intros c _ p. apply iter_at_node_at. }
  destruct (iter_children_at_node_at [] q d _ _ IH Hin)
    as (j & c & s & Hj & -> & Hs).
  split; [discriminate|]. simpl. rewrite Hj. exact Hs.
Qed.

Lemma node_at_snoc p j : forall e d,
  node_at e (p ++ [j]) = Some d ->
  exists parent, node_at e p = Some parent /\ children parent !! j = Some d.
Proof.
  induction p as [|i p IH]; intros e d H; simpl in *.
  - exists e. split; [reflexivity|].
    destruct (children e !! j); [exact H | discriminate].
  - destruct (children e !! i) as [c|]; [|discriminate]. apply IH. exact H.
Qed.

Lemma find_child_Some t d : forall l j i,
  l !! j = Some d -> tag d = t -> exists k, find_child t i l = Some k.
Proof.
  induction l as [|c l IH]; intros j i Hj Ht; [discriminate|]. simpl.
  destruct (String.eqb (tag c) t) eqn:E; [eexists; reflexivity|].
  destruct j as [|j]; simpl in Hj.
  - injection Hj as ->. apply String.eqb_neq in E. contradiction.
  - apply (IH j). exact Hj. exact Ht.
Qed.

Lemma first_seen_In x l : forall seen, In x (first_seen seen l) -> In x l.
Proof.
  induction l as [|y l IH]; intros seen H; simpl in *; [exact H|].
  destruct (bool_decide (y ∈ seen)).
  - right. apply (IH seen). exact H.
  - destruct H as [H|H]; [left; exact H | right; apply (IH _ H)].
Qed.

Lemma flag_printed_succeeds t p root_tree :
  In p (parents_of t root_tree) ->
  exists i,
    flag_printed t p root_tree
    = inr (update_at set_printed root_tree (p ++ [i])).
Proof.
  intros H. unfold parents_of in H. apply first_seen_In in H.
  apply in_map_iff in H as ([q d] & <- & H).
  apply List.filter_In in H as [H Ht]. apply String.eqb_eq in Ht.
  apply descendants_node_at in H as [Hq H]. simpl in *.
  rewrite (app_removelast_last 0 Hq) in H.
  apply node_at_snoc in H as (parent & Hparent & Hd).
  destruct (find_child_Some t d _ _ 0 Hd Ht) as (k & Hk).
  exists k. unfold flag_printed. rewrite Hparent, Hk. reflexivity.
Qed.

Lemma place_iter_children_insert (f : Element -> Element) p c c' : forall l i k,
  l !! i = Some c ->
  (forall p, map place (iter_at p c') = map place (iter_at p c)) ->
  map place (iter_children_at p k (<[i := c']> l))
  = map place (iter_children_at p k l).
Proof.
  induction l as [|x l IH]; intros i k Hi Hc; [discriminate|].
  destruct i as [|i]; simpl in *.
  - injection Hi as ->. rewrite !map_app, Hc. reflexivity.
  - rewrite !map_app, (IH i (S k) Hi Hc). reflexivity.
Qed.

Lemma place_update_at (f : Element -> Element) :
  (forall x, tag (f x) = tag x /\ children (f x) = children x) ->
  forall q e p,
    map place (iter_at p (update_at f e q)) = map place (iter_at p e).
Proof.
  intros Hf. induction q as [|i q IH]; intros e p; simpl.
  - rewrite !iter_at_unfold. destruct (Hf e) as [Ht Hc].
    simpl. unfold place at 1 3. simpl. rewrite Ht, Hc. reflexivity.
  - destruct (children e !! i) as [c|] eqn:Hi; [|reflexivity].
    rewrite !iter_at_unfold. simpl. f_equal.
    apply (place_iter_children_insert f p c); [exact Hi|].
    intros p'. apply IH.
Qed.

Lemma parents_of_place t (l l' : list (path * Element)) :
  map place l = map place l' ->
  map (fun pe => removelast (fst pe))
    (List.filter (fun pe => String.eqb (tag (snd pe)) t) l)
  = map (fun pe => removelast (fst pe))
      (List.filter (fun pe => String.eqb (tag (snd pe)) t) l').
Proof.
  revert l'. induction l as [|[q d] l IH]; intros [|[q' d'] l'] H;
    try discriminate; [reflexivity|].
  injection H as Hq Ht Hl. simpl in *. subst q'. rewrite Ht.
  destruct (String.eqb (tag d') t); simpl; rewrite (IH _ Hl); reflexivity.
Qed.

Lemma parents_of_flagged t root_tree q :
  parents_of t (update_at set_printed root_tree q) = parents_of t root_tree.
Proof.
  unfold parents_of. f_equal. apply parents_of_place.
  pose proof (place_update_at set_printed
                (fun x => conj eq_refl eq_refl) q root_tree []) as H.
  destruct (iter_at [] (update_at set_printed root_tree q)),
    (iter_at [] root_tree); simpl in *; congruence.
Qed.

Lemma export_child_returns sha1_hexdigest parent_tag child_tag child_path
    graph root_tree :
  length (parents_of child_tag root_tree) <= 2 ->
  exists graph' root_tree',
    export_child sha1_hexdigest parent_tag child_tag child_path graph
      root_tree = inr (graph', root_tree') /\
    forall t, parents_of t root_tree' = parents_of t root_tree.
Proof.
  intros Hlen. unfold export_child.
  destruct (match node_at root_tree child_path with
            | Some child_node => is_printed child_node
            | None => false
            end); [eexists _, _; split; reflexivity|].
  destruct (parents_of child_tag root_tree) as [|p1 [|p2 [|p3 more]]] eqn:Hp;
    try (eexists _, _; split; reflexivity).
  - destruct (flag_printed_succeeds child_tag p1 root_tree) as (i & Hi);
      [rewrite Hp; left; reflexivity|].
    rewrite Hi.
    destruct (flag_printed_succeeds child_tag p2
                (update_at set_printed root_tree (p1 ++ [i]))) as (k & Hk);
      [rewrite parents_of_flagged, Hp; right; left; reflexivity|].
    rewrite Hk. eexists _, _. split; [reflexivity|].
    intros t. rewrite !parents_of_flagged. reflexivity.
  - simpl in Hlen. lia.
Qed.

Lemma export_returns sha1_hexdigest :
  forall node p root_tree,
    (forall x, In x (findall node) ->
       length (parents_of (tag x) root_tree) <= 2) ->
    exists graph root_tree',
      export_qpgraph_node sha1_hexdigest node p root_tree
      = inr (graph, root_tree') /\
      forall t, parents_of t root_tree' = parents_of t root_tree.
Proof.
  induction node as [t a cs IH] using Element_ind'. intros p root_tree Hle.
  rewrite export_qpgraph_node_unfold. simpl. unfold findall in Hle.
  simpl in Hle. generalize 0, "". revert root_tree Hle.
  induction cs as [|c cs IHcs]; intros root_tree Hle i graph; simpl.
  - eexists _, _. split; reflexivity.
  - apply Forall_cons in IH as [Hc IH].
    destruct (export_child_returns sha1_hexdigest t (tag c) (p ++ [i]) graph
                root_tree) as (g1 & t1 & H1 & P1).
    { apply Hle. simpl. rewrite iter_unfold. left. reflexivity. }
    rewrite H1.
    assert (Hrest : forall tree' g,
              (forall t, parents_of t tree' = parents_of t root_tree) ->
              exists graph' root_tree',
                export_children sha1_hexdigest t p (S i) cs g tree'
                = inr (graph', root_tree') /\
                forall t, parents_of t root_tree' = parents_of t root_tree).
    { intros tree' g P'.
      destruct (IHcs IH tree') with (n := S i) (s := g)
        as (g2 & t2 & H2 & P2).
      - intros x Hx. rewrite P'. apply Hle. simpl.
        apply in_or_app. right. exact Hx.
      - exists g2, t2. split; [exact H2|].
        intros t0. rewrite P2, P'. reflexivity. }
    destruct (children c) eqn:Hcs; [apply Hrest; exact P1|].
    destruct (Hc (p ++ [i]) t1) as (g2 & t2 & H2 & P2).
    { intros x Hx. rewrite P1. apply Hle. simpl.
      apply in_or_app. left. rewrite iter_unfold. right. exact Hx. }
    rewrite H2. apply Hrest. intros t0. rewrite P2, P1. reflexivity.
Qed.

(** X21.  When the tag of no node has more than two parents in the tree,
    [export_qpgraph] raises nothing: neither the unpacking of the parents
    nor the flagging of a printed node fails. *)
Theorem export_returns_for_two_parents sha1_hexdigest root_node root_tree :
  Forall (fun x => length (parents_of (tag x) root_tree) <= 2)
    (findall root_tree) ->
  exists graph, export_qpgraph sha1_hexdigest root_node root_tree = inr graph.
Proof.
  intros H. rewrite Forall_forall in H. unfold export_qpgraph.
  destruct (export_returns sha1_hexdigest root_tree [] root_tree)
    as (g & t' & Hrun & _).
  { intros x Hx. apply H, list_elem_of_In, Hx. }
  rewrite Hrun. eexists. reflexivity.
Qed.

(** ** The trees the search builds can be exported *)

Lemma count_le_occ1 (q : string * gmap string string -> bool) x K :
  (forall k, In k K -> q k = true -> k = x) -> count q K <= occ x K.
Proof.
  induction K as [|k K IH]; intros H; [unfold count, occ; simpl; lia|].
  rewrite count_cons, occ_cons.
  assert (IH' : count q K <= occ x K).
  { apply IH. intros k' Hk'. apply H. right. exact Hk'. }
  destruct (q k) eqn:Hq; [|lia].
  rewrite bool_decide_eq_true_2 by (apply H; [left; reflexivity | exact Hq]).
  lia.
Qed.

Lemma count_le_occ2 (q : string * gmap string string -> bool) x y K :
  x <> y ->
  (forall k, In k K -> q k = true -> k = x \/ k = y) ->
  count q K <= occ x K + occ y K.
Proof.
  intros Hxy. induction K as [|k K IH]; intros H;
    [unfold count, occ; simpl; lia|].
  rewrite count_cons, !occ_cons.
  assert (IH' : count q K <= occ x K + occ y K).
  { apply IH. intros k' Hk'. apply H. right. exact Hk'. }
  destruct (q k) eqn:Hq; [|lia].
  destruct (H k (or_introl eq_refl) Hq) as [-> | ->].
  - rewrite bool_decide_eq_true_2 by reflexivity. lia.
  - rewrite (bool_decide_eq_true_2 (y = y)) by reflexivity. lia.
Qed.

Lemma count_positive {A} (q : A -> bool) l :
  count q l <> 0 -> exists x, In x l /\ q x = true.
Proof.
  induction l as [|x l IH]; [unfold count; simpl; congruence|].
  rewrite count_cons. destruct (q x) eqn:Hq.
  - intros _. exists x. split; [left; reflexivity | exact Hq].
  - intros H. destruct IH as (y & Hy & Hqy); [lia|].
    exists y. split; [right; exact Hy | exact Hqy].
Qed.

Lemma count_eqb_NoDup t (l : list string) :
  NoDup l -> count (fun x => String.eqb x t) l <= 1.
Proof.
  induction l as [|x l IH]; intros H; [unfold count; simpl; lia|].
  apply NoDup_cons in H as [Hx H]. rewrite count_cons.
  destruct (String.eqb x t) eqn:E; [|specialize (IH H); lia].
  apply String.eqb_eq in E. subst x.
  rewrite count_zero; [lia|].
  intros y Hy. apply String.eqb_neq. intros ->.
  apply Hx, list_elem_of_In, Hy.
Qed.

Lemma occ_plain_leaf_labels t tree :
  occ (t, ∅) (keys tree)
  <= count (fun x => String.eqb x t) (leaf_labels tree).
Proof.
  rewrite leaf_labels_keys. induction (keys tree) as [|k K IH];
    [unfold occ, count; simpl; lia|].
  rewrite occ_cons. simpl.
  destruct (bool_decide (k = (t, ∅))) eqn:E.
  - apply bool_decide_eq_true in E. subst k.
    rewrite key_internal_plain. simpl. rewrite count_cons.
    rewrite String.eqb_refl. lia.
  - destruct (negb (key_internal k)); simpl; [rewrite count_cons|]; lia.
Qed.

Lemma plain_key_leaf_label t tree :
  In (t, ∅) (keys tree) -> In t (leaf_labels tree).
Proof.
  intros H. rewrite leaf_labels_keys.
  apply (in_map fst _ (t, ∅)). apply List.filter_In. split; [exact H|].
  rewrite key_internal_plain. reflexivity.
Qed.

Lemma tag_count_built t tree :
  built tree ->
  NoDup (leaf_labels tree) ->
  (forall l j, In l (leaf_labels tree) ->
     l <> "n" +:+ PyStr.format_num j /\ l <> "a" +:+ PyStr.format_num j) ->
  count (fun k => String.eqb (fst k) t) (keys tree) <= 2.
Proof.
  intros Hb Hnd Hgen.
  destruct (built_gen_ok tree Hb) as (_ & Hkind & Hn & Ha).
  set (kn := count key_plain_internal (keys tree)) in *.
  set (ka := count key_admix (keys tree) / 2) in *.
  destruct (Nat.eq_dec (count (fun k => String.eqb (fst k) t) (keys tree)) 0)
    as [Hz|Hz]; [lia|].
  apply count_positive in Hz as ([t0 a0] & Hin0 & Ht0).
  apply String.eqb_eq in Ht0. simpl in Ht0. subst t0.
  assert (Hplain : forall k, In k (keys tree) -> snd k = ∅ ->
                             fst k = t -> In t (leaf_labels tree)).
  { intros [t1 a1] Hk Ha1 Ht1. simpl in *. subst.
    apply plain_key_leaf_label. exact Hk. }
  destruct (Hkind _ Hin0) as [H0 | [(j & Hj & H0) | (j & s & Hj & Hs & H0)]].
  - (* a population label *)
    simpl in H0. subst a0.
    pose proof (plain_key_leaf_label _ _ Hin0) as Hl.
    etransitivity; [apply (count_le_occ1 _ (t, ∅))|].
    + intros [t1 a1] Hk Hq. apply String.eqb_eq in Hq. simpl in Hq. subst t1.
      destruct (Hkind _ Hk) as [H1 | [(j & _ & H1) | (j & s & _ & _ & H1)]].
      * simpl in H1. subst a1. reflexivity.
      * exfalso. apply (f_equal fst) in H1. simpl in H1.
        exact (proj1 (Hgen t j Hl) H1).
      * exfalso. apply (f_equal fst) in H1. simpl in H1.
        exact (proj2 (Hgen t j Hl) H1).
    + etransitivity; [apply occ_plain_leaf_labels|].
      etransitivity; [apply count_eqb_NoDup; exact Hnd|]. lia.
  - (* an intermediate node *)
    pose proof (f_equal fst H0) as Ht. simpl in Ht.
    etransitivity; [apply (count_le_occ1 _ (n_key j))|].
    + intros [t1 a1] Hk Hq. apply String.eqb_eq in Hq. simpl in Hq. subst t1.
      destruct (Hkind _ Hk) as [H1 | [(j' & _ & H1) | (j' & s & _ & _ & H1)]].
      * exfalso. simpl in H1.
        exact (proj1 (Hgen t j (Hplain _ Hk H1 eq_refl)) Ht).
      * rewrite H1. f_equal. apply format_num_inj.
        apply (f_equal fst) in H1. simpl in H1. rewrite Ht in H1.
        injection H1 as H1. symmetry. exact H1.
      * exfalso. apply (f_equal fst) in H1. simpl in H1. rewrite Ht in H1.
        discriminate.
    + rewrite (Hn j Hj). lia.
  - (* an ingress node *)
    pose proof (f_equal fst H0) as Ht. simpl in Ht.
    etransitivity; [apply (count_le_occ2 _ (a_key j "l") (a_key j "r"))|].
    + intros H. apply a_key_inj in H as [_ H]. discriminate.
    + intros [t1 a1] Hk Hq. apply String.eqb_eq in Hq. simpl in Hq. subst t1.
      destruct (Hkind _ Hk) as [H1 | [(j' & _ & H1) | (j' & s' & _ & Hs' & H1)]].
      * exfalso. simpl in H1.
        exact (proj2 (Hgen t j (Hplain _ Hk H1 eq_refl)) Ht).
      * exfalso. apply (f_equal fst) in H1. simpl in H1. rewrite Ht in H1.
        discriminate.
      * assert (j' = j).
        { apply format_num_inj. apply (f_equal fst) in H1. simpl in H1.
          rewrite Ht in H1. injection H1 as H1. symmetry. exact H1. }
        subst j'. rewrite H1. destruct Hs' as [-> | ->]; auto.
    + rewrite (Ha j "l" Hj (or_introl eq_refl)),
        (Ha j "r" Hj (or_intror eq_refl)). lia.
Qed.

Lemma built_exports sha1_hexdigest root_node tree :
  built tree ->
  NoDup (leaf_labels tree) ->
  (forall l j, In l (leaf_labels tree) ->
     l <> "n" +:+ PyStr.format_num j /\ l <> "a" +:+ PyStr.format_num j) ->
  exists graph, export_qpgraph sha1_hexdigest root_node tree = inr graph.
Proof.
  intros Hb Hnd Hgen. unfold export_qpgraph.
  destruct (export_returns sha1_hexdigest tree [] tree)
    as (g & t' & Hrun & _).
  { intros x _. etransitivity; [apply parents_le_count|].
    pose proof (tag_count_built (tag x) tree Hb Hnd Hgen) as Hc.
    unfold keys in Hc. rewrite count_map in Hc. exact Hc. }
  rewrite Hrun. eexists. reflexivity.
Qed.

(** X22.  A tree the search builds whose population labels (the tags of
    the nodes not flagged internal) are distinct and none of the form n<j>
    or a<j> can be exported: no tag has more than two parents, and
    [export_qpgraph] raises nothing. *)
Theorem built_tree_exports sha1_hexdigest root_node tree :
  built tree ->
  NoDup (leaf_labels tree) ->
  (forall l j, In l (leaf_labels tree) ->
     l <> "n" +:+ PyStr.format_num j /\ l <> "a" +:+ PyStr.format_num j) ->
  Forall (fun x => length (parents_of (tag x) tree) <= 2) (findall tree) /\
  exists graph, export_qpgraph sha1_hexdigest root_node tree = inr graph.
Proof.
  intros Hb Hnd Hgen.
  assert (H : forall x, In x (findall tree) ->
                length (parents_of (tag x) tree) <= 2).
  { intros x _. etransitivity; [apply parents_le_count|].
    pose proof (tag_count_built (tag x) tree Hb Hnd Hgen) as Hc.
    unfold keys in Hc. rewrite count_map in Hc. exact Hc. }
  split; [apply Forall_forall; intros x Hx; apply H, list_elem_of_In, Hx|].
  unfold export_qpgraph.
  destruct (export_returns sha1_hexdigest tree [] tree H)
    as (g & t' & Hrun & _).
  rewrite Hrun. eexists. reflexivity.
Qed.

(** ** When [export_qpgraph] fails *)

Lemma erase_unfold e : erase e = Elem (tag e) ∅ (map erase (children e)).
Proof. destruct e. reflexivity. Qed.

Lemma node_at_erase q : forall e,
  node_at (erase e) q = option_map erase (node_at e q).
Proof.
  induction q as [|i q IH]; intros e; [reflexivity|].
  rewrite erase_unfold. simpl. rewrite list_lookup_fmap.
  destruct (children e !! i) as [c|]; simpl; [apply IH | reflexivity].
Qed.

Lemma erase_update_at q : forall e,
  erase (update_at set_printed e q) = erase e.
Proof.
  induction q as [|i q IH]; intros e; simpl.
  - rewrite !erase_unfold. reflexivity.
  - destruct (children e !! i) as [c|] eqn:Hi; [|reflexivity].
    rewrite (erase_unfold e), erase_unfold. simpl. f_equal.
    rewrite list_fmap_insert, IH.
    rewrite <- list_fmap_insert, list_insert_id by exact Hi. reflexivity.
Qed.

Lemma erase_tag e e' : erase e = erase e' -> tag e = tag e'.
Proof. rewrite !erase_unfold. intros [= H _]. exact H. Qed.

(** What a node of the flagged tree was before. *)
Lemma node_at_flagged q0 : forall e q x,
  node_at (update_at set_printed e q0) q = Some x ->
  exists x0, node_at e q = Some x0 /\ tag x = tag x0 /\
             (is_printed x = true -> is_printed x0 = true \/ q = q0).
Proof.
  induction q0 as [|i q0 IH]; intros e q x H; simpl in H.
  - destruct q as [|j q].
    + injection H as <-. exists e. repeat split. intros _. right. reflexivity.
    + exists x. repeat split; [exact H | intros Hp; left; exact Hp].
  - destruct (children e !! i) as [c|] eqn:Hi.
    2: { exists x. repeat split; [exact H | intros Hp; left; exact Hp]. }
    destruct q as [|j q]; simpl in H.
    + injection H as <-. exists e. repeat split. intros Hp. left. exact Hp.
    + destruct (decide (j = i)) as [->|Hne].
      * rewrite list_lookup_insert_eq in H
          by (apply lookup_lt_Some in Hi; exact Hi).
        destruct (IH _ _ _ H) as (x0 & Hx0 & Ht & Hp).
        exists x0. simpl. rewrite Hi. repeat split; [exact Hx0 | exact Ht|].
        intros Hx. destruct (Hp Hx) as [Hp'| ->]; [left; exact Hp'|].
        right. reflexivity.
      * rewrite list_lookup_insert_ne in H by congruence.
        exists x. simpl. repeat split; [exact H | intros Hp; left; exact Hp].
Qed.

Lemma flag_printed_spec t p root_tree root_tree' :
  flag_printed t p root_tree = inr root_tree' ->
  exists i c, root_tree' = update_at set_printed root_tree (p ++ [i]) /\
              node_at root_tree (p ++ [i]) = Some c /\ tag c = t.
Proof.
  unfold flag_printed.
  destruct (node_at root_tree p) as [parent|] eqn:Hp; [|discriminate].
  destruct (find_child t 0 (children parent)) as [i|] eqn:Hi; [|discriminate].
  intros [= <-].
  assert (Hc : forall l k i, find_child t k l = Some i ->
                 exists c, l !! (i - k) = Some c /\ tag c = t /\ k <= i).
  { induction l as [|c l IH]; intros k j H; simpl in H; [discriminate|].
    destruct (String.eqb (tag c) t) eqn:E.
    - injection H as <-. exists c. rewrite Nat.sub_diag.
      apply String.eqb_eq in E. repeat split; [exact E | lia].
    - destruct (IH _ _ H) as (c' & Hc' & Ht & Hle).
      exists c'. replace (j - k) with (S (j - S k)) by lia.
      repeat split; [exact Hc' | exact Ht | lia]. }
  destruct (Hc _ _ _ Hi) as (c & Hc' & Ht & _).
  rewrite Nat.sub_0_r in Hc'.
  exists i, c. repeat split; [|exact Ht].
  rewrite (node_at_app _ _ [i] _ Hp). simpl. rewrite Hc'. reflexivity.
Qed.

Lemma printed_ok_flagged t p root_tree root_tree' :
  length (parents_of t root_tree) <= 2 ->
  flag_printed t p root_tree = inr root_tree' ->
  printed_ok root_tree -> printed_ok root_tree'.
Proof.
  intros Hlen Hflag Hok.
  destruct (flag_printed_spec _ _ _ _ Hflag) as (i & c & -> & Hc & Ht).
  intros q x Hq Hx Hp. rewrite parents_of_flagged.
  destruct (node_at_flagged _ _ _ _ Hx) as (x0 & Hx0 & Htag & Hpr).
  rewrite Htag. destruct (Hpr Hp) as [Hp0 | ->].
  - exact (Hok q x0 Hq Hx0 Hp0).
  - rewrite Hc in Hx0. injection Hx0 as <-. rewrite Ht. exact Hlen.
Qed.

Lemma flag_printed_erase t p root_tree root_tree' :
  flag_printed t p root_tree = inr root_tree' ->
  erase root_tree' = erase root_tree /\
  forall t', parents_of t' root_tree' = parents_of t' root_tree.
Proof.
  intros Hflag.
  destruct (flag_printed_spec _ _ _ _ Hflag) as (i & c & -> & _).
  split; [apply erase_update_at | intros t'; apply parents_of_flagged].
Qed.

(** A child whose lines were written has a tag with at most two parents,
    and the flags stay as they should. *)
Lemma export_child_checked sha1_hexdigest parent_tag child_node child_path
    graph root_tree graph' root_tree' :
  export_child sha1_hexdigest parent_tag (tag child_node) child_path graph
    root_tree = inr (graph', root_tree') ->
  child_path <> [] ->
  node_at (erase root_tree) child_path = Some (erase child_node) ->
  printed_ok root_tree ->
  printed_ok root_tree' /\
  erase root_tree' = erase root_tree /\
  (forall t, parents_of t root_tree' = parents_of t root_tree) /\
  length (parents_of (tag child_node) root_tree) <= 2.
Proof.
  intros H Hne Hpos Hok. unfold export_child in H.
  rewrite node_at_erase in Hpos.
  destruct (node_at root_tree child_path) as [c|] eqn:Hc; [|discriminate].
  simpl in Hpos. injection Hpos as Hpos. apply erase_tag in Hpos.
  destruct (is_printed c) eqn:Hpr.
  - injection H as <- <-. repeat split; [exact Hok|].
    rewrite <- Hpos. exact (Hok _ _ Hne Hc Hpr).
  - destruct (parents_of (tag child_node) root_tree)
      as [|p1 [|p2 [|p3 more]]] eqn:Hp; try discriminate.
    + injection H as <- <-. repeat split; [exact Hok | simpl; lia].
    + injection H as <- <-. repeat split; [exact Hok | simpl; lia].
    + destruct (flag_printed (tag child_node) p1 root_tree) as [e|t1] eqn:H1;
        [discriminate|].
      destruct (flag_printed (tag child_node) p2 t1) as [e|t2] eqn:H2;
        [discriminate|].
      injection H as <- <-.
      destruct (flag_printed_erase _ _ _ _ H1) as [E1 P1].
      destruct (flag_printed_erase _ _ _ _ H2) as [E2 P2].
      assert (Hlen : length (parents_of (tag child_node) root_tree) <= 2)
        by (rewrite Hp; simpl; lia).
      split; [|split; [congruence | split; [|simpl; lia]]].
      * apply (printed_ok_flagged _ _ _ _ (eq_ind_r (fun l => length l <= 2)
                 Hlen (P1 _)) H2).
        apply (printed_ok_flagged _ _ _ _ Hlen H1). exact Hok.
      * intros t. rewrite P2, P1. reflexivity.
Qed.

Lemma export_children_checked sha1_hexdigest parent_tag p : forall l i graph
    root_tree graph' root_tree',
  Forall (fun node => forall p root_tree graph' root_tree',
            export_qpgraph_node sha1_hexdigest node p root_tree
            = inr (graph', root_tree') ->
            node_at (erase root_tree) p = Some (erase node) ->
            printed_ok root_tree ->
            printed_ok root_tree' /\
            erase root_tree' = erase root_tree /\
            (forall t, parents_of t root_tree' = parents_of t root_tree) /\
            forall x, In x (findall node) ->
              length (parents_of (tag x) root_tree) <= 2) l ->
  export_children sha1_hexdigest parent_tag p i l graph root_tree
  = inr (graph', root_tree') ->
  (forall j c, l !! j = Some c ->
     node_at (erase root_tree) (p ++ [i + j]) = Some (erase c)) ->
  printed_ok root_tree ->
  printed_ok root_tree' /\
  erase root_tree' = erase root_tree /\
  (forall t, parents_of t root_tree' = parents_of t root_tree) /\
  forall x, In x (flat_map iter l) ->
    length (parents_of (tag x) root_tree) <= 2.
Proof.
  induction l as [|c l IHl]; intros i graph root_tree graph' root_tree'
    IH H Hpos Hok; simpl in H.
  - injection H as <- <-. repeat split; [exact Hok|]. intros x [].
  - apply Forall_cons in IH as [Hc IH].
    destruct (export_child _ _ _ _ _ _) as [e|[g1 t1]] eqn:H1;
      [discriminate|].
    assert (Hposc : node_at (erase root_tree) (p ++ [i]) = Some (erase c)).
    { rewrite <- (Nat.add_0_r i). apply (Hpos 0 c). reflexivity. }
    destruct (export_child_checked _ _ _ _ _ _ _ _ H1) as (O1 & E1 & P1 & B1);
      [destruct p; discriminate | exact Hposc | exact Hok|].
    assert (Hrest : forall g t2,
              export_children sha1_hexdigest parent_tag p (S i) l g t2
              = inr (graph', root_tree') ->
              printed_ok t2 -> erase t2 = erase root_tree ->
              (forall t, parents_of t t2 = parents_of t root_tree) ->
              printed_ok root_tree' /\
              erase root_tree' = erase root_tree /\
              (forall t, parents_of t root_tree' = parents_of t root_tree) /\
              forall x, In x (flat_map iter l) ->
                length (parents_of (tag x) root_tree) <= 2).
    { intros g t2 H2 O2 E2 P2.
      destruct (IHl _ _ _ _ _ IH H2) as (O3 & E3 & P3 & B3).
      - intros j c' Hj. rewrite E2.
        replace (S i + j) with (i + S j) by lia. apply Hpos. exact Hj.
      - exact O2.
      - repeat split; [exact O3 | congruence | |].
        + intros t. rewrite P3, P2. reflexivity.
        + intros x Hx. rewrite <- P2. apply B3. exact Hx. }
    assert (Hgoal : forall (Bc : forall x, In x (findall c) ->
                               length (parents_of (tag x) root_tree) <= 2),
              (printed_ok root_tree' /\
               erase root_tree' = erase root_tree /\
               (forall t, parents_of t root_tree' = parents_of t root_tree) /\
               forall x, In x (flat_map iter l) ->
                 length (parents_of (tag x) root_tree) <= 2) ->
              printed_ok root_tree' /\
              erase root_tree' = erase root_tree /\
              (forall t, parents_of t root_tree' = parents_of t root_tree) /\
              forall x, In x (flat_map iter (c :: l)) ->
                length (parents_of (tag x) root_tree) <= 2).
    { intros Bc (O & E & P & B). repeat split; [exact O | exact E | exact P|].
      intros x Hx. simpl in Hx. apply in_app_or in Hx as [Hx|Hx];
        [|apply B; exact Hx].
      rewrite iter_unfold in Hx. destruct Hx as [<-|Hx];
        [exact B1 | apply Bc; exact Hx]. }
    destruct (children c) as [|c0 cs0] eqn:Hcs.
    + apply Hgoal; [|apply (Hrest _ _ H O1 E1 P1)].
      unfold findall. rewrite Hcs. intros x [].
    + destruct (export_qpgraph_node sha1_hexdigest c (p ++ [i]) t1)
        as [e|[g2 t2]] eqn:H2; [discriminate|].
      destruct (Hc _ _ _ _ H2) as (O2 & E2 & P2 & B2);
        [rewrite E1; exact Hposc | exact O1|].
      apply Hgoal.
      * intros x Hx. rewrite <- P1. apply B2. exact Hx.
      * apply (Hrest _ _ H O2); [congruence|].
        intros t. rewrite P2, P1. reflexivity.
Qed.

Lemma export_checked sha1_hexdigest : forall node p root_tree graph'
    root_tree',
  export_qpgraph_node sha1_hexdigest node p root_tree
  = inr (graph', root_tree') ->
  node_at (erase root_tree) p = Some (erase node) ->
  printed_ok root_tree ->
  printed_ok root_tree' /\
  erase root_tree' = erase root_tree /\
  (forall t, parents_of t root_tree' = parents_of t root_tree) /\
  forall x, In x (findall node) ->
    length (parents_of (tag x) root_tree) <= 2.
Proof.
  induction node as [t a cs IH] using Element_ind'.
  intros p root_tree graph' root_tree' H Hpos Hok.
  rewrite export_qpgraph_node_unfold in H. simpl in H.
  apply (export_children_checked _ _ _ _ _ _ _ _ _ IH H); [|exact Hok].
  intros j c Hj. simpl.
  rewrite (node_at_app _ _ [j] _ Hpos). simpl.
  rewrite list_lookup_fmap, Hj. reflexivity.
Qed.

Lemma export_child_error sha1_hexdigest parent_tag child_tag child_path
    graph root_tree e :
  export_child sha1_hexdigest parent_tag child_tag child_path graph root_tree
  = inl e -> e = ValueError.
Proof.
  unfold export_child.
  destruct (match node_at root_tree child_path with
            | Some child_node => is_printed child_node
            | None => false
            end); [discriminate|].
  destruct (parents_of child_tag root_tree) as [|p1 [|p2 [|p3 more]]] eqn:Hp;
    try discriminate.
  - destruct (flag_printed_succeeds child_tag p1 root_tree) as (i & Hi);
      [rewrite Hp; left; reflexivity|].
    rewrite Hi.
    destruct (flag_printed_succeeds child_tag p2
                (update_at set_printed root_tree (p1 ++ [i]))) as (k & Hk);
      [rewrite parents_of_flagged, Hp; right; left; reflexivity|].
    rewrite Hk. discriminate.
  - intros [= <-]. reflexivity.
Qed.

Lemma export_error sha1_hexdigest : forall node p root_tree e,
  export_qpgraph_node sha1_hexdigest node p root_tree = inl e ->
  e = ValueError.
Proof.
  induction node as [t a cs IH] using Element_ind'. intros p root_tree e.
  rewrite export_qpgraph_node_unfold. simpl. generalize 0, "", root_tree.
  induction cs as [|c cs IHcs]; intros i graph tree H; simpl in H;
    [discriminate|].
  apply Forall_cons in IH as [Hc IH].
  destruct (export_child _ _ _ _ _ _) as [e1|[g1 t1]] eqn:H1.
  - injection H as <-. exact (export_child_error _ _ _ _ _ _ _ H1).
  - destruct (children c) as [|c0 cs0]; [exact (IHcs IH _ _ _ H)|].
    destruct (export_qpgraph_node sha1_hexdigest c (p ++ [i]) t1)
      as [e2|[g2 t2]] eqn:H2.
    + injection H as <-. exact (Hc _ _ _ H2).
    + exact (IHcs IH _ _ _ H).
Qed.

Lemma export_qpgraph_error sha1_hexdigest root_node root_tree e :
  export_qpgraph sha1_hexdigest root_node root_tree = inl e -> e = ValueError.
Proof.
  unfold export_qpgraph.
  destruct (export_qpgraph_node sha1_hexdigest root_tree [] root_tree)
    as [e'|[g t']] eqn:Hrun; [|discriminate].
  intros [= <-]. exact (export_error _ _ _ _ _ Hrun).
Qed.

(** X23.  For a tree without printed flags, [export_qpgraph] fails
    exactly when the tag of some node has more than two parents in the
    tree, and then with the ValueError of the unpacking; the flagging of
    the printed nodes never fails. *)
Theorem export_fails_iff sha1_hexdigest root_node root_tree :
  (forall x, In x (findall root_tree) -> is_printed x = false) ->
  export_qpgraph sha1_hexdigest root_node root_tree <> inl NoneAttributeError /\
  (export_qpgraph sha1_hexdigest root_node root_tree = inl ValueError <->
   exists x, In x (findall root_tree) /\
             2 < length (parents_of (tag x) root_tree)).
Proof.
  intros Hp. unfold export_qpgraph.
  destruct (export_qpgraph_node sha1_hexdigest root_tree [] root_tree)
    as [e|[g t']] eqn:Hrun.
  - pose proof (export_error _ _ _ _ _ Hrun) as He. subst e.
    split; [discriminate|].
    split; [intros _|reflexivity].
    destruct (decide (Exists
                        (fun x => 2 < length (parents_of (tag x) root_tree))
                        (findall root_tree))) as [Hex|Hno].
    + apply Exists_exists in Hex as (x & Hx & Hlt).
      exists x. split; [apply list_elem_of_In; exact Hx | exact Hlt].
    + exfalso.
      destruct (export_returns sha1_hexdigest root_tree [] root_tree)
        as (g & t' & Hrun' & _); [|congruence].
      intros x Hx. apply Nat.nlt_ge. intros Hlt. apply Hno.
      apply Exists_exists. exists x.
      split; [apply list_elem_of_In; exact Hx | exact Hlt].
  - split; [discriminate|]. split; [discriminate|].
    intros (x & Hx & Hlt). exfalso.
    destruct (export_checked sha1_hexdigest _ _ _ _ _ Hrun) as (_ & _ & _ & B).
    + reflexivity.
    + intros q y Hq Hy Hpr.
      rewrite (Hp y (node_at_In_findall _ _ _ Hq Hy)) in Hpr. discriminate.
    + specialize (B x Hx). lia.
Qed.

(** ** The search: what every step does to the state *)

Section SearchProperties.

Context (World : Type).
Context (qpGraph_log :
           World -> string -> Element ->
           (string * World) + (World * (string -> string * World))).
Context (sha1_hexdigest phylo_ladderize : string -> string).
Context (MAX_OUTLIER_THRESHOLD : nat) (EXHAUSTIVE_SEARCH : bool).

Local Abbreviation run_qpgraph' :=
  (run_qpgraph World qpGraph_log sha1_hexdigest phylo_ladderize).
Local Abbreviation test_trees' :=
  (test_trees World qpGraph_log sha1_hexdigest phylo_ladderize).
Local Abbreviation check_results_loop' :=
  (check_results_loop World MAX_OUTLIER_THRESHOLD).
Local Abbreviation check_results' := (check_results World MAX_OUTLIER_THRESHOLD).
Local Abbreviation try_insertions' :=
  (try_insertions World qpGraph_log sha1_hexdigest phylo_ladderize
     MAX_OUTLIER_THRESHOLD).
Local Abbreviation recurse_tree' :=
  (recurse_tree World qpGraph_log sha1_hexdigest phylo_ladderize
     MAX_OUTLIER_THRESHOLD EXHAUSTIVE_SEARCH).
Local Abbreviation find_graph' :=
  (find_graph World qpGraph_log sha1_hexdigest phylo_ladderize
     MAX_OUTLIER_THRESHOLD EXHAUSTIVE_SEARCH).
Local Abbreviation search_loop' :=
  (search_loop World qpGraph_log sha1_hexdigest phylo_ladderize
     MAX_OUTLIER_THRESHOLD EXHAUSTIVE_SEARCH).
Local Abbreviation permute_qpgraph' :=
  (permute_qpgraph World qpGraph_log sha1_hexdigest phylo_ladderize
     MAX_OUTLIER_THRESHOLD EXHAUSTIVE_SEARCH).
Local Abbreviation ext := (extends MAX_OUTLIER_THRESHOLD).
Local Abbreviation fwd := (forward (World := World) MAX_OUTLIER_THRESHOLD).
Local Abbreviation oracle_ok' := (oracle_ok qpGraph_log).

Implicit Types st : State World.

(** The ways through [run_qpgraph]: the log read back, with and without
    its worst f-stat line; the export failing; the log written by qpGraph,
    with and without the line. *)
Ltac open_run_qpgraph :=
  unfold run_qpgraph;
  destruct (qpGraph_log _ _ _) as [[log w]|[w qpGraph]];
  [|destruct (export_qpgraph _ _ _) as [e|graph];
    [|destruct (qpGraph graph) as [log w']]];
  try (destruct (extract_outliers _) as [outliers worst];
       destruct (List.last _ _));
  simpl;
  repeat match goal with
         | |- context [set_world World (set_world World ?s ?a) ?b] =>
             change (set_world World (set_world World s a) b)
               with (set_world World s b)
         end.

Lemma extends_refl st : ext st st.
Proof.
  constructor; try reflexivity.
  - exists []. rewrite app_nil_r. reflexivity.
  - exists []. rewrite app_nil_r. split; [reflexivity | constructor].
Qed.

Lemma extends_trans st1 st2 st3 : ext st1 st2 -> ext st2 st3 -> ext st1 st3.
Proof.
  intros [h1 n1 o1 r1 [m1 p1] t1 s1 (e1 & tr1 & f1)]
         [h2 n2 o2 r2 [m2 p2] t2 s2 (e2 & tr2 & f2)].
  constructor; try congruence.
  - exists (m1 ++ m2). rewrite p2, p1, app_assoc. reflexivity.
  - set_solver.
  - set_solver.
  - exists (e1 ++ e2). rewrite tr2, tr1, app_assoc. split; [reflexivity|].
    apply Forall_app. split; assumption.
Qed.

Lemma extends_emit st ev :
  search_event MAX_OUTLIER_THRESHOLD ev -> ext st (emit st ev).
Proof.
  intros H. constructor; try reflexivity.
  - exists []. rewrite app_nil_r. reflexivity.
  - exists [ev]. split; [reflexivity|]. constructor; [exact H | constructor].
Qed.

Lemma extends_set_world st w : ext st (set_world World st w).
Proof.
  constructor; try reflexivity.
  - exists []. rewrite app_nil_r. reflexivity.
  - exists []. rewrite app_nil_r. split; [reflexivity | constructor].
Qed.

Lemma extends_set_tested st name :
  ext st (set_tested_graphs World st ({[ name ]} ∪ tested_graphs st)).
Proof.
  constructor; try reflexivity.
  - exists []. rewrite app_nil_r. reflexivity.
  - simpl. set_solver.
  - exists []. rewrite app_nil_r. split; [reflexivity | constructor].
Qed.

Lemma extends_set_solutions st name :
  ext st (set_solutions World st ({[ name ]} ∪ solutions st)).
Proof.
  constructor; try reflexivity.
  - exists []. rewrite app_nil_r. reflexivity.
  - simpl. set_solver.
  - exists []. rewrite app_nil_r. split; [reflexivity | constructor].
Qed.

Lemma extends_set_problem st tag :
  ext st (set_problem_nodes st (problem_nodes st ++ [tag])).
Proof.
  constructor; try reflexivity.
  - exists [tag]. reflexivity.
  - exists []. rewrite app_nil_r. split; [reflexivity | constructor].
Qed.

Lemma forward_ret {A} (a : A) : fwd (ret a).
Proof. intros st. apply extends_refl. Qed.

Lemma forward_raise {A} e : fwd (raise (A := A) e).
Proof. intros st. apply extends_refl. Qed.

Lemma forward_lift {A} (r : Exn + A) : fwd (lift r).
Proof. destruct r; [apply forward_raise | apply forward_ret]. Qed.

Lemma forward_bind {A B} (m : M World A) (k : A -> M World B) :
  fwd m -> (forall a, fwd (k a)) -> fwd (bind m k).
Proof.
  intros Hm Hk st. unfold bind. specialize (Hm st).
  destruct (m st) as [[a | e |] st1]; simpl in *; try exact Hm.
  eapply extends_trans; [exact Hm | apply Hk].
Qed.

Lemma forward_modify (f : State World -> State World) :
  (forall st, ext st (f st)) -> fwd (modify f).
Proof. intros H st. apply H. Qed.

Lemma forward_mapM {A B} (f : A -> M World B) l :
  (forall x, fwd (f x)) -> fwd (mapM f l).
Proof.
  intros Hf. induction l as [|x l IH]; simpl.
  - apply forward_ret.
  - apply forward_bind; [apply Hf|]. intros y.
    apply forward_bind; [exact IH|]. intros ys. apply forward_ret.
Qed.

Lemma forward_run_qpgraph new_tree depth : fwd (run_qpgraph' new_tree depth).
Proof.
  intros st. open_run_qpgraph.
  - eapply extends_trans; [apply extends_set_world|].
    apply (extends_emit _ (Evaluated _ _)). exact I.
  - apply extends_set_world.
  - apply extends_set_world.
  - eapply extends_trans; [apply (extends_set_world _ w')|].
    apply (extends_emit _ (Evaluated _ _)). exact I.
  - apply (extends_set_world _ w').
Qed.

Lemma forward_test_trees new_trees depth : fwd (test_trees' new_trees depth).
Proof. apply forward_mapM. intros t. apply forward_run_qpgraph. Qed.

Lemma forward_regular_trees root_tree targets new_tag :
  fwd (regular_trees World root_tree targets new_tag).
Proof.
  apply forward_mapM. intros t. apply forward_bind; [apply forward_lift|].
  intros r. apply forward_ret.
Qed.

Lemma forward_admix_trees root_tree targets new_tag :
  fwd (admix_trees World root_tree targets new_tag).
Proof. apply forward_mapM. intros t. apply forward_lift. Qed.

Lemma forward_check_results_loop recurse results remaining depth :
  (forall t n r d, fwd (recurse t n r d)) ->
  forall placed,
    fwd (check_results_loop' recurse results remaining depth placed).
Proof.
  intros Hrec. induction results as [|[[new_tree outliers] name] rest IH];
    intros placed; simpl.
  - apply forward_ret.
  - apply forward_bind.
    { apply forward_modify. intros st. apply extends_set_tested. }
    intros _. destruct (Nat.leb (length outliers) MAX_OUTLIER_THRESHOLD) eqn:Hle;
      [|apply IH].
    apply Nat.leb_le in Hle.
    apply forward_bind; [|intros _; apply IH].
    destruct remaining as [|next others].
    + apply forward_modify. intros st.
      eapply extends_trans;
        [apply (extends_emit st (Success new_tree outliers name)); exact Hle|].
      apply (extends_set_solutions (emit st _)).
    + apply forward_bind; [|intros _; apply Hrec].
      apply forward_modify. intros st.
      apply (extends_emit st (Recursed new_tree outliers name)). exact Hle.
Qed.

Lemma forward_try_insertions recurse root_tree new_tag remaining depth :
  (forall t n r d, fwd (recurse t n r d)) ->
  fwd (try_insertions' recurse root_tree new_tag remaining depth).
Proof.
  intros Hrec st0. unfold try_insertions.
  set (targets := List.filter _ _). clearbody targets.
  revert st0. change (fwd
    (bind (regular_trees World root_tree targets new_tag) (fun new_trees =>
     bind (test_trees' new_trees depth) (fun results =>
     bind (check_results' recurse results remaining depth) (fun node_placed =>
     if node_placed then ret true
     else bind (admix_trees World root_tree targets new_tag) (fun admix =>
          bind (test_trees' admix depth) (fun results =>
          check_results' recurse results remaining depth))))))).
  apply forward_bind; [apply forward_regular_trees|]. intros new_trees.
  apply forward_bind; [apply forward_test_trees|]. intros results.
  apply forward_bind; [apply forward_check_results_loop; exact Hrec|].
  intros [|]; [apply forward_ret|].
  apply forward_bind; [apply forward_admix_trees|]. intros admix.
  apply forward_bind; [apply forward_test_trees|]. intros results'.
  apply forward_check_results_loop; exact Hrec.
Qed.

Lemma forward_recurse_tree fuel : forall root_tree new_tag remaining depth,
  fwd (recurse_tree' fuel root_tree new_tag remaining depth).
Proof.
  induction fuel as [|fuel IH]; intros root_tree new_tag remaining depth.
  - intros st. apply extends_refl.
  - simpl. apply forward_bind; [apply forward_try_insertions; exact IH|].
    intros [|]; [apply forward_ret|]. intros st.
    destruct (negb (bool_decide (new_tag ∈ problem_nodes st)) &&
              negb (bool_decide (remaining = [])) && negb EXHAUSTIVE_SEARCH);
      [|apply extends_refl].
    assert (Hst : ext st (set_problem_nodes (emit st (Warning new_tag))
                    (problem_nodes (emit st (Warning new_tag)) ++ [new_tag]))).
    { eapply extends_trans;
        [apply (extends_emit st (Warning new_tag)); exact I|].
      apply extends_set_problem. }
    destruct (remaining ++ [new_tag]) as [|next others]; [exact Hst|].
    eapply extends_trans; [exact Hst | apply IH].
Qed.

(** ** Pruning (C1) *)


(** ** The tested set (C6) *)

Lemma forward_handle_pass
    (recurse : Element -> string -> list string -> nat -> M World unit)
    new_tree outliers name remaining depth :
  (forall t n r d, fwd (recurse t n r d)) ->
  length outliers <= MAX_OUTLIER_THRESHOLD ->
  fwd
    (match remaining with
     | next :: others =>
         bind (modify (fun st => emit st (Recursed new_tree outliers name)))
              (fun _ => recurse new_tree next others (depth + 1))
     | [] =>
         modify (fun st =>
                   set_solutions World
                     (emit st (Success new_tree outliers name))
                     ({[ name ]} ∪ solutions st))
     end).
Proof.
  intros Hrec Hle. destruct remaining as [|next others].
  - apply forward_modify. intros st.
    eapply extends_trans;
      [apply (extends_emit st (Success new_tree outliers name)); exact Hle|].
    apply (extends_set_solutions (emit st _)).
  - apply forward_bind; [|intros _; apply Hrec].
    apply forward_modify. intros st.
    apply (extends_emit st (Recursed new_tree outliers name)). exact Hle.
Qed.

Lemma check_results_loop_tested recurse results remaining depth :
  (forall t n r d, fwd (recurse t n r d)) ->
  forall placed st b st',
    check_results_loop' recurse results remaining depth placed st
    = (Ret b, st') ->
    forall r, In r results -> result_name r ∈ tested_graphs st'.
Proof.
  intros Hrec. induction results as [|[[new_tree outliers] name] rest IH];
    intros placed st b st' Hrun r Hr; [destruct Hr|].
  assert (Hfwd : forall placed st1,
            tested_graphs st1 ⊆
            tested_graphs
              (snd (check_results_loop' recurse rest remaining depth placed st1))).
  { intros p st1.
    apply (ext_tested _ _ _
             (forward_check_results_loop recurse rest remaining depth
                Hrec p st1)). }
  simpl in Hrun. unfold bind at 1 in Hrun. unfold modify at 1 in Hrun.
  set (st1 := set_tested_graphs World st ({[name]} ∪ tested_graphs st)) in Hrun.
  assert (Hname : name ∈ tested_graphs st1) by (simpl; set_solver).
  destruct (Nat.leb (length outliers) MAX_OUTLIER_THRESHOLD) eqn:Hle.
  - apply Nat.leb_le in Hle.
    pose proof (forward_handle_pass recurse new_tree outliers name remaining
                  depth Hrec Hle st1) as Hm.
    unfold bind at 1 in Hrun.
    match type of Hrun with
    | context [match ?m st1 with _ => _ end] =>
        change (ext st1 (snd (m st1))) in Hm;
        destruct (m st1) as [[[]|e|] st2]
    end; try discriminate.
    simpl in Hm. pose proof (ext_tested _ _ _ Hm) as Hsub.
    destruct Hr as [<- | Hr].
    + specialize (Hfwd true st2). rewrite Hrun in Hfwd. simpl in Hfwd.
      unfold result_name. simpl. set_solver.
    + eapply IH; eauto.
  - destruct Hr as [<- | Hr].
    + specialize (Hfwd placed st1). rewrite Hrun in Hfwd. simpl in Hfwd.
      unfold result_name. simpl. set_solver.
    + eapply IH; eauto.
Qed.

(** ** Between attempts: what [find_graph] and the driver loop keep *)

Lemma carries_over_refl st : carries_over st st.
Proof.
  repeat split; try reflexivity. exists []. rewrite app_nil_r. reflexivity.
Qed.

Lemma carries_over_trans st1 st2 st3 :
  carries_over st1 st2 -> carries_over st2 st3 -> carries_over st1 st3.
Proof.
  intros (o1 & [m1 p1] & t1 & s1) (o2 & [m2 p2] & t2 & s2).
  repeat split; try congruence.
  - exists (m1 ++ m2). rewrite p2, p1, app_assoc. reflexivity.
  - etrans; eassumption.
  - etrans; eassumption.
Qed.

Lemma extends_carries_over st st' : ext st st' -> carries_over st st'.
Proof. intros [? ? ? ? ? ? ? ?]. repeat split; assumption. Qed.

(** One attempt: the starting list is announced, then the search runs on
    the state as the earlier attempts left it. *)
Lemma find_graph_extends fuel st :
  ext (emit st (StartingList (default [] (heap st !! nodes st))))
      (snd (find_graph' fuel st)).
Proof.
  unfold find_graph.
  set (self_nodes := default [] (heap st !! nodes st)).
  destruct (self_nodes !! 0) as [first|]; [|apply extends_refl].
  destruct (self_nodes !! 1) as [second|]; [|apply extends_refl].
  apply forward_recurse_tree.
Qed.

Lemma find_graph_carries_over fuel st :
  carries_over st (snd (find_graph' fuel st)).
Proof.
  apply (carries_over_trans _
           (emit st (StartingList (default [] (heap st !! nodes st))))).
  - repeat split; try reflexivity. exists []. rewrite app_nil_r. reflexivity.
  - apply extends_carries_over, find_graph_extends.
Qed.

Lemma search_loop_carries_over fuel work : forall st,
  carries_over st (snd (search_loop' fuel work st)).
Proof.
  induction work as [|order work IH]; intros st; simpl;
    (destruct (bool_decide (solutions st = ∅) || EXHAUSTIVE_SEARCH);
     [|apply carries_over_refl]);
    pose proof (find_graph_carries_over fuel st) as Hfg;
    destruct (find_graph' fuel st) as [r st1]; simpl in Hfg.
  - destruct r as [[]|[]|]; exact Hfg.
  - assert (Hnext : carries_over st
              (snd (search_loop' fuel work
                      (set_heap_nodes st1
                         (<[fresh (dom (heap st1)) := order]> (heap st1))
                         (fresh (dom (heap st1))))))).
    { eapply carries_over_trans; [exact Hfg|].
      eapply carries_over_trans; [|apply IH].
      repeat split; try reflexivity. exists []. rewrite app_nil_r.
      reflexivity. }
    destruct r as [[]|[]|]; try exact Hfg; exact Hnext.
Qed.

(** C6.  Tested-set contents: when [check_results] has gone through a
    batch, the tested set holds the graph name of every candidate of the
    batch, whatever its outlier count; nothing is ever taken out of the set,
    neither by an attempt nor by the driver loop moving to the next starting
    order. *)
Theorem tested_graphs_contents fuel results remaining depth st b st' :
  check_results' (recurse_tree' fuel) results remaining depth st
  = (Ret b, st') ->
  (forall r, In r results -> result_name r ∈ tested_graphs st') /\
  tested_graphs st ⊆ tested_graphs st' /\
  (forall st0, tested_graphs st0 ⊆ tested_graphs (snd (find_graph' fuel st0))) /\
  (forall work st0,
     tested_graphs st0 ⊆ tested_graphs (snd (search_loop' fuel work st0))).
Proof.
  intros Hrun. split; [|split; [|split]].
  - eapply check_results_loop_tested; [apply forward_recurse_tree | exact Hrun].
  - pose proof (forward_check_results_loop (recurse_tree' fuel) results
                  remaining depth (forward_recurse_tree fuel) false st) as H.
    unfold check_results in Hrun. rewrite Hrun in H. exact (ext_tested _ _ _ H).
  - intros st0. apply (find_graph_carries_over fuel st0).
  - intros work st0. apply (search_loop_carries_over fuel work st0).
Qed.

(** ** Deferral (C2) *)

(** C2 (amended).  When the two passes place nothing: if the label is not
    in the problem-node list of the object, the remaining queue is not empty
    and the search is not exhaustive, the label is appended to the list and
    to the queue and the search goes on with the new front of the queue at
    the same depth; otherwise NodeUnplaceable is raised.  The list is the
    one created with the object: neither an attempt nor the driver loop ever
    removes a label from it. *)
Theorem deferral_semantics fuel root_tree new_tag remaining depth st st2 :
  try_insertions' (recurse_tree' fuel) root_tree new_tag remaining depth st
  = (Ret false, st2) ->
  recurse_tree' (S fuel) root_tree new_tag remaining depth st
  = (if negb (bool_decide (new_tag ∈ problem_nodes st2))
        && negb (bool_decide (remaining = []))
        && negb EXHAUSTIVE_SEARCH
     then
       match remaining with
       | next :: others =>
           recurse_tree' fuel root_tree next (others ++ [new_tag]) depth
             (set_problem_nodes (emit st2 (Warning new_tag))
                (problem_nodes st2 ++ [new_tag]))
       | [] => (Raise IndexError, st2)
       end
     else (Raise (NodeUnplaceable new_tag), st2)) /\
  (forall st0, exists more,
     problem_nodes (snd (find_graph' fuel st0)) = problem_nodes st0 ++ more) /\
  (forall work st0, exists more,
     problem_nodes (snd (search_loop' fuel work st0))
     = problem_nodes st0 ++ more).
Proof.
  intros Hrun. split; [|split].
  - simpl. unfold bind at 1. rewrite Hrun.
    destruct (negb (bool_decide (new_tag ∈ problem_nodes st2)));
      [|reflexivity].
    destruct remaining as [|next others]; reflexivity.
  - intros st0. apply (find_graph_carries_over fuel st0).
  - intros work st0. apply (search_loop_carries_over fuel work st0).
Qed.

(** ** Termination of one attempt (C3) *)

Lemma count_le_length {A} (q : A -> bool) l : count q l <= length l.
Proof.
  induction l as [|x l IH]; [reflexivity|].
  rewrite count_cons. simpl. destruct (q x); lia.
Qed.

Lemma undeferred_mono problem more queue :
  undeferred (problem ++ more) queue <= undeferred problem queue.
Proof.
  unfold undeferred. induction queue as [|x queue IH]; [reflexivity|].
  rewrite !count_cons.
  destruct (bool_decide (x ∈ problem)) eqn:Hx; simpl.
  - apply bool_decide_eq_true in Hx.
    rewrite bool_decide_eq_true_2 by (apply elem_of_app; auto). simpl. lia.
  - destruct (bool_decide (x ∈ problem ++ more)); simpl; lia.
Qed.

Lemma undeferred_rotate problem more new_tag next others :
  new_tag ∉ problem ++ more ->
  S (undeferred ((problem ++ more) ++ [new_tag]) (next :: others ++ [new_tag]))
  <= undeferred problem (new_tag :: next :: others).
Proof.
  intros Hnot.
  pose proof (undeferred_mono problem (more ++ [new_tag]) (next :: others)) as H.
  rewrite app_assoc in H. unfold undeferred in *.
  change (next :: others ++ [new_tag]) with ((next :: others) ++ [new_tag]).
  rewrite count_app.
  assert (H0 : count (fun x => negb (bool_decide
                        (x ∈ (problem ++ more) ++ [new_tag]))) [new_tag] = 0).
  { rewrite count_cons.
    rewrite bool_decide_eq_true_2 by (apply elem_of_app; right; constructor).
    reflexivity. }
  assert (H1 : count (fun x => negb (bool_decide (x ∈ problem)))
                 (new_tag :: next :: others)
               = 1 + count (fun x => negb (bool_decide (x ∈ problem)))
                       (next :: others)).
  { rewrite (count_cons _ new_tag).
    rewrite (bool_decide_eq_false_2 (new_tag ∈ problem)); [reflexivity|].
    intros Hp. apply Hnot. apply elem_of_app. auto. }
  rewrite H0, H1. lia.
Qed.

Lemma last_map_Some {A} (l : list A) :
  l <> [] -> exists x, List.last (map Some l) None = Some x.
Proof.
  induction l as [|x l IH]; [congruence|]. intros _.
  destruct l as [|y l]; [exists x; reflexivity|].
  destruct IH as [z Hz]; [discriminate|]. exists z. exact Hz.
Qed.

Lemma combinations2_In {A} (l : list A) a b :
  In (a, b) (combinations2 l) -> In a l /\ In b l.
Proof.
  induction l as [|x l IH]; simpl; [intros []|].
  intros H. apply in_app_iff in H as [H | H].
  - apply in_map_iff in H as (y & [= <- <-] & Hy). auto.
  - destruct (IH H). auto.
Qed.

(** Composition of computations that end well. *)
Lemma ew_ret {A} strict (post : A -> Prop) (a : A) :
  post a -> ends_well (World := World) strict post (ret a).
Proof. intros H st. exact H. Qed.

Lemma ew_bind {A B} strict (P : A -> Prop) (Q : B -> Prop)
    (m : M World A) (k : A -> M World B) :
  ends_well strict P m -> (forall a, P a -> ends_well strict Q (k a)) ->
  ends_well strict Q (bind m k).
Proof.
  intros Hm Hk st. unfold bind. specialize (Hm st).
  destruct (m st) as [[a|e|] st1]; simpl in *.
  - apply Hk. exact Hm.
  - exact Hm.
  - exact Hm.
Qed.

Lemma ew_mapM {A B} strict (P : A -> Prop) (Q : B -> Prop)
    (f : A -> M World B) l :
  (forall x, P x -> ends_well strict Q (f x)) -> Forall P l ->
  ends_well strict (Forall Q) (mapM f l).
Proof.
  intros Hf. induction l as [|x l IH]; intros Hl; simpl.
  - apply ew_ret. constructor.
  - apply Forall_cons in Hl as [Hx Hl].
    apply (ew_bind strict Q); [apply Hf; exact Hx|]. intros y Hy.
    apply (ew_bind strict (Forall Q)); [apply IH; exact Hl|]. intros ys Hys.
    apply ew_ret. constructor; assumption.
Qed.

Lemma ew_run_qpgraph strict new_tree depth :
  oracle_ok' ->
  (strict = true ->
   forall root, exists graph,
     export_qpgraph sha1_hexdigest root new_tree = inr graph) ->
  ends_well strict (fun r => result_tree r = new_tree)
    (run_qpgraph' new_tree depth).
Proof.
  intros Hok Hex st. unfold run_qpgraph.
  specialize (Hok (world st)
                (hash_text sha1_hexdigest
                   (print_newick_tree phylo_ladderize new_tree) 7) new_tree).
  destruct (qpGraph_log _ _ _) as [[log w]|[w qpGraph]].
  - destruct (extract_outliers _) as [outliers worst]. simpl in Hok.
    destruct (last_map_Some worst Hok) as [x Hx]. rewrite Hx. reflexivity.
  - destruct (export_qpgraph _ _ _) as [e|graph] eqn:Hgraph.
    + rewrite (export_qpgraph_error _ _ _ _ Hgraph). simpl.
      destruct strict; [|reflexivity].
      destruct (Hex eq_refl (root_node (set_world World st w))) as [g Hg].
      congruence.
    + specialize (Hok graph).
      destruct (qpGraph graph) as [log w'].
      destruct (extract_outliers _) as [outliers worst]. simpl in Hok.
      destruct (last_map_Some worst Hok) as [x Hx]. rewrite Hx. reflexivity.
Qed.

Section Ends.

(** Whether the labels are known to be such that every tree can be
    exported, and what is known of a tree and of the labels still to be
    placed on it. *)
Variable strict : bool.
Variable Inv : Element -> list string -> Prop.

Hypothesis Inv_rotate : forall t q q', q ≡ₚ q' -> Inv t q -> Inv t q'.
Hypothesis Inv_regular : forall t target new_tag remaining t' n,
  Inv t (new_tag :: remaining) ->
  insert_node t target new_tag ∅ false = inr (t', n) ->
  Inv t' remaining.
Hypothesis Inv_admixture : forall t target1 target2 new_tag remaining t',
  Inv t (new_tag :: remaining) ->
  In target1 (findall t) -> In target2 (findall t) ->
  insert_admixture t target1 target2 new_tag = inr t' ->
  Inv t' remaining.
Hypothesis Inv_exports : forall t q root,
  strict = true -> Inv t q ->
  exists graph, export_qpgraph sha1_hexdigest root t = inr graph.

Lemma ew_test_trees remaining new_trees depth :
  oracle_ok' ->
  Forall (fun t => Inv t remaining) new_trees ->
  ends_well strict (Forall (fun r => Inv (result_tree r) remaining))
    (test_trees' new_trees depth).
Proof.
  intros Hok. unfold test_trees.
  apply (ew_mapM strict (fun t => Inv t remaining)). intros t Ht st.
  pose proof (ew_run_qpgraph strict t depth Hok
                (fun Hs root => Inv_exports t remaining root Hs Ht) st) as H.
  destruct (run_qpgraph' t depth st) as [[r|e|] st1]; simpl in *;
    [subst t; exact Ht | exact H | exact H].
Qed.

Lemma ew_regular_trees root_tree targets new_tag remaining :
  Inv root_tree (new_tag :: remaining) ->
  (forall t, In t targets -> In t (findall root_tree)) ->
  ends_well strict (Forall (fun t => Inv t remaining))
    (regular_trees World root_tree targets new_tag).
Proof.
  intros HI Hin. unfold regular_trees.
  apply (ew_mapM strict (fun t => In t (findall root_tree))).
  - intros t Ht st.
    destruct (insert_node_succeeds_key root_tree t new_tag ∅ false _
                (In_findall_key _ _ Ht) (key_match_self _)) as [[tree' n] E].
    unfold bind. rewrite E. simpl.
    exact (Inv_regular _ _ _ _ _ _ HI E).
  - apply Forall_forall. intros t Ht. apply Hin, list_elem_of_In, Ht.
Qed.

Lemma ew_admix_trees root_tree targets new_tag remaining :
  Inv root_tree (new_tag :: remaining) ->
  (forall t, In t targets -> In t (findall root_tree)) ->
  ends_well strict (Forall (fun t => Inv t remaining))
    (admix_trees World root_tree targets new_tag).
Proof.
  intros HI Hin. unfold admix_trees.
  apply (ew_mapM strict (fun p => In (fst p) (findall root_tree) /\
                                  In (snd p) (findall root_tree))).
  - intros p [H1 H2] st.
    destruct (insert_admixture_steps root_tree (fst p) (snd p) new_tag H1 H2)
      as (t1 & t2 & t3 & _ & _ & _ & E).
    rewrite E. simpl.
    exact (Inv_admixture _ _ _ _ _ _ HI H1 H2 E).
  - apply Forall_forall. intros [t1 t2] Hp. apply list_elem_of_In in Hp.
    apply List.filter_In in Hp as [Hp _].
    apply combinations2_In in Hp as [H1 H2]. split; apply Hin; assumption.
Qed.

Lemma ew_check_results_loop
    (recurse : Element -> string -> list string -> nat -> M World unit)
    results remaining depth :
  (forall t d,
     Inv t remaining ->
     match remaining with
     | next :: others =>
         ends_well strict (fun _ => True) (recurse t next others d)
     | [] => True
     end) ->
  Forall (fun r => Inv (result_tree r) remaining) results ->
  forall placed,
    ends_well strict (fun _ => True)
      (check_results_loop' recurse results remaining depth placed).
Proof.
  intros Hrec. induction results as [|[[new_tree outliers] name] rest IH];
    intros Hres placed; simpl; [apply ew_ret; exact I|].
  apply Forall_cons in Hres as [Ht Hres]. unfold result_tree in Ht.
  simpl in Ht.
  apply (ew_bind strict (fun _ => True)); [intros st; exact I|]. intros _ _.
  destruct (Nat.leb (length outliers) MAX_OUTLIER_THRESHOLD);
    [|apply IH; exact Hres].
  apply (ew_bind strict (fun _ => True)); [|intros _ _; apply IH; exact Hres].
  specialize (Hrec new_tree (depth + 1) Ht).
  destruct remaining as [|next others]; [intros st; exact I|].
  apply (ew_bind strict (fun _ => True)); [intros st; exact I|]. intros _ _.
  exact Hrec.
Qed.

Lemma ew_try_insertions
    (recurse : Element -> string -> list string -> nat -> M World unit)
    root_tree new_tag remaining depth :
  oracle_ok' ->
  Inv root_tree (new_tag :: remaining) ->
  (forall t d,
     Inv t remaining ->
     match remaining with
     | next :: others =>
         ends_well strict (fun _ => True) (recurse t next others d)
     | [] => True
     end) ->
  ends_well strict (fun _ => True)
    (try_insertions' recurse root_tree new_tag remaining depth).
Proof.
  intros Hok HI Hrec st. unfold try_insertions.
  set (targets := List.filter _ (findall root_tree)).
  assert (Hin : forall t, In t targets -> In t (findall root_tree)).
  { intros t Ht. apply List.filter_In in Ht as [Ht _]. exact Ht. }
  clearbody targets. revert st.
  apply (ew_bind strict (Forall (fun t => Inv t remaining)));
    [apply ew_regular_trees; assumption|]. intros new_trees Hnew.
  apply (ew_bind strict (Forall (fun r => Inv (result_tree r) remaining)));
    [apply ew_test_trees; assumption|]. intros results Hres.
  apply (ew_bind strict (fun _ => True));
    [apply ew_check_results_loop; assumption|]. intros placed _.
  destruct placed; [apply ew_ret; exact I|].
  apply (ew_bind strict (Forall (fun t => Inv t remaining)));
    [apply ew_admix_trees; assumption|]. intros admix Hadmix.
  apply (ew_bind strict (Forall (fun r => Inv (result_tree r) remaining)));
    [apply ew_test_trees; assumption|]. intros results' Hres'.
  apply ew_check_results_loop; assumption.
Qed.

(** Enough budget for the nesting of the calls: [recurse_tree] ends. *)
Lemma ew_recurse_tree fuel :
  oracle_ok' ->
  forall root_tree new_tag remaining depth st,
    Inv root_tree (new_tag :: remaining) ->
    depth_bound (length remaining)
    + undeferred (problem_nodes st) (new_tag :: remaining) <= fuel ->
    good strict (fun _ => True)
      (fst (recurse_tree' fuel root_tree new_tag remaining depth st)).
Proof.
  intros Hok. induction fuel as [|fuel IH];
    intros root_tree new_tag remaining depth st HI Hfuel.
  - exfalso. destruct remaining; simpl in Hfuel; lia.
  - assert (Hrec : forall t d,
              Inv t remaining ->
              match remaining with
              | next :: others =>
                  ends_well strict (fun _ => True)
                    (recurse_tree' fuel t next others d)
              | [] => True
              end).
    { intros t d Ht. destruct remaining as [|next others]; [exact I|].
      intros st'. apply IH; [exact Ht|]. simpl in Hfuel.
      pose proof (count_le_length
                    (fun x => negb (bool_decide (x ∈ problem_nodes st')))
                    (next :: others)) as Hle.
      unfold undeferred. simpl length in Hle. lia. }
    pose proof (ew_try_insertions (recurse_tree' fuel) root_tree new_tag
                  remaining depth Hok HI Hrec st) as Hg.
    pose proof (forward_try_insertions (recurse_tree' fuel) root_tree new_tag
                  remaining depth (forward_recurse_tree fuel) st) as Hext.
    simpl. unfold bind at 1.
    destruct (try_insertions' (recurse_tree' fuel) root_tree new_tag remaining
                depth st) as [[placed|e|] st2]; simpl in Hg, Hext |- *;
      try exact Hg.
    destruct placed; [exact I|].
    destruct (bool_decide (new_tag ∈ problem_nodes st2)) eqn:Hprob;
      [exact I|].
    destruct (bool_decide (remaining = [])) eqn:Hrem; [exact I|].
    destruct EXHAUSTIVE_SEARCH; [exact I|]. simpl.
    destruct remaining as [|next others];
      [apply bool_decide_eq_false in Hrem; congruence|].
    simpl. apply IH.
    + apply (Inv_rotate _ (new_tag :: next :: others)); [|exact HI].
      apply (Permutation_cons_append (next :: others) new_tag).
    + simpl problem_nodes.
      apply bool_decide_eq_false in Hprob.
      destruct (ext_problem _ _ _ Hext) as [more Hmore]. rewrite Hmore in *.
      pose proof (undeferred_rotate (problem_nodes st) more new_tag next others
                    Hprob) as Hrot.
      rewrite length_app. simpl length in *. rewrite Nat.add_1_r. lia.
Qed.

Lemma ew_find_graph st order fuel :
  heap st !! nodes st = Some order ->
  2 <= length order ->
  oracle_ok' ->
  depth_bound (length order - 2) + (length order - 1) <= fuel ->
  (forall first second rest,
     order = first :: second :: rest ->
     Inv (SubElement (SubElement (Elem (root_node st) ∅ []) (outgroup st) ∅)
            first ∅)
         (second :: rest)) ->
  good strict (fun _ => True) (fst (find_graph' fuel st)).
Proof.
  intros Hheap Hlen Hok Hfuel HI. unfold find_graph. rewrite Hheap.
  simpl default.
  destruct order as [|first [|second rest]]; simpl in Hlen; try lia.
  simpl lookup. cbv iota. simpl drop. rewrite drop_0.
  apply ew_recurse_tree; [exact Hok | exact (HI _ _ _ eq_refl) |].
  simpl in Hfuel |- *.
  pose proof (count_le_length
                (fun x => negb (bool_decide (x ∈ problem_nodes st)))
                (second :: rest)) as Hle.
  unfold undeferred. simpl length in *. simpl problem_nodes.
  rewrite ?Nat.sub_0_r in *. lia.
Qed.

End Ends.

(** C3 (amended).  Termination of one attempt: for a starting order of
    at least two labels and an oracle whose every log has its worst f-stat
    line, a budget that covers the nesting of the calls is enough for
    [find_graph] to end, and it ends by returning, by raising
    NodeUnplaceable, or with the ValueError that [export_qpgraph] raises
    for a tree in which a tag has more than two parents.  When the
    outgroup and the labels of the order are pairwise distinct and none
    has the form n<j> or a<j> of a generated label, no tree has such a tag:
    the attempt ends by returning or by raising NodeUnplaceable. *)
Theorem find_graph_terminates st order fuel :
  heap st !! nodes st = Some order ->
  2 <= length order ->
  oracle_ok' ->
  depth_bound (length order - 2) + (length order - 1) <= fuel ->
  (exists st',
     find_graph' fuel st = (Ret tt, st') \/
     (exists new_tag,
        find_graph' fuel st = (Raise (NodeUnplaceable new_tag), st')) \/
     find_graph' fuel st = (Raise (ExportError ValueError), st')) /\
  (NoDup (outgroup st :: order) ->
   (forall l j, In l (outgroup st :: order) ->
      l <> "n" +:+ PyStr.format_num j /\ l <> "a" +:+ PyStr.format_num j) ->
   exists st',
     find_graph' fuel st = (Ret tt, st') \/
     exists new_tag,
       find_graph' fuel st = (Raise (NodeUnplaceable new_tag), st')).
Proof.
  intros Hheap Hlen Hok Hfuel. split.
  - assert (Hg : good false (fun _ => True) (fst (find_graph' fuel st))).
    { apply (ew_find_graph false (fun _ _ => True)) with (order := order);
        try assumption; try (intros; exact I).
      intros t q root Hs. discriminate Hs. }
    destruct (find_graph' fuel st) as [[[]|e|] st']; simpl in Hg.
    + exists st'. left. reflexivity.
    + exists st'. right.
      destruct e as [t| | | |[|]]; try contradiction.
      * left. exists t. reflexivity.
      * right. reflexivity.
    + contradiction.
  - intros Hnd Hgen.
    set (all := outgroup st :: order) in *.
    assert (Hg : good true (fun _ => True) (fst (find_graph' fuel st))).
    { apply (ew_find_graph true
               (fun t q => built t /\ leaf_labels t ++ q ≡ₚ all))
        with (order := order); try assumption.
      - intros t q q' Hq [Hb Hp]. split; [exact Hb|].
        rewrite <- Hq. exact Hp.
      - intros t target new_tag remaining t' n [Hb Hp] E.
        split; [exact (built_regular _ _ _ _ _ Hb E)|].
        rewrite (leaf_labels_regular _ _ _ _ _ E), <- Hp. simpl.
        apply Permutation_middle.
      - intros t target1 target2 new_tag remaining t' [Hb Hp] H1 H2 E.
        split; [exact (built_admixture _ _ _ _ _ Hb H1 H2 E)|].
        rewrite (leaf_labels_admixture _ _ _ _ _ H1 H2 E), <- Hp. simpl.
        apply Permutation_middle.
      - intros t q root _ [Hb Hp]. apply built_exports; [exact Hb| |].
        + rewrite <- Hp in Hnd.
          apply NoDup_app in Hnd as [Hnd _]. exact Hnd.
        + intros l j Hl. apply Hgen.
          apply (Permutation_in _ Hp). apply in_or_app. left. exact Hl.
      - intros first second rest ->. split; [apply built_start|].
        reflexivity. }
    destruct (find_graph' fuel st) as [[[]|e|] st']; simpl in Hg.
    + exists st'. left. reflexivity.
    + exists st'. right.
      destruct e as [t| | | |[|]]; try contradiction; try discriminate.
      exists t. reflexivity.
    + contradiction.
Qed.

(** ** The outgroup and the starting orders (C10) *)

Lemma list_remove_once x l :
  occurrences x l <= 1 -> ~ In x (list_remove x l).
Proof.
  unfold occurrences. induction l as [|y l IH]; simpl; [tauto|].
  rewrite count_cons. destruct (String.eqb x y) eqn:Hxy.
  - intros Hc Hin. assert (Hz : count (String.eqb x) l = 0) by lia.
    clear IH Hc. induction l as [|z l IH]; [destruct Hin|].
    rewrite count_cons in Hz. destruct (String.eqb x z) eqn:Hxz; [lia|].
    destruct Hin as [-> | Hin]; [rewrite String.eqb_refl in Hxz; discriminate|].
    apply IH; [exact Hin | lia].
  - intros Hc [-> | Hin]; [rewrite String.eqb_refl in Hxy; discriminate|].
    apply IH; [lia | exact Hin].
Qed.

Lemma In_delete {A} (l : list A) i x : In x (delete i l) -> In x l.
Proof.
  revert i. induction l as [|y l IH]; intros [|i]; simpl; auto.
  intros [-> | H]; eauto.
Qed.

Lemma permutations_n_In {A} n : forall (l order : list A) x,
  In order (permutations_n n l) -> In x order -> In x l.
Proof.
  induction n as [|n IH]; intros l order x; simpl.
  - intros [<- | []] [].
  - intros H Hx. apply in_flat_map in H as (i & _ & H).
    destruct (l !! i) as [y|] eqn:Hy; [|destruct H].
    apply in_map_iff in H as (o & <- & Ho). destruct Hx as [<- | Hx].
    + apply list_elem_of_In. eapply list_elem_of_lookup_2; eauto.
    + eapply In_delete. eapply IH; eauto.
Qed.

Lemma find_graph_starts_without fuel og st :
  ~ In og (default [] (heap st !! nodes st)) ->
  starts_without og st ->
  starts_without og (snd (find_graph' fuel st)) /\
  heap (snd (find_graph' fuel st)) = heap st.
Proof.
  intros Hcur Hst. pose proof (find_graph_extends fuel st) as Hext.
  destruct Hext as [Hh _ _ _ _ _ _ (evs & Htr & Hall)]. split; [|exact Hh].
  intros l Hl. rewrite Htr in Hl. simpl in Hl.
  rewrite !in_app_iff in Hl. destruct Hl as [[Hl | Hl] | Hl].
  - apply Hst. exact Hl.
  - destruct Hl as [[= <-] | []]. exact Hcur.
  - rewrite Forall_forall in Hall. apply list_elem_of_In in Hl.
    destruct (Hall _ Hl).
Qed.

Lemma search_loop_starts_without fuel og work : forall st,
  ~ In og (default [] (heap st !! nodes st)) ->
  (forall order, In order work -> ~ In og order) ->
  starts_without og st ->
  starts_without og (snd (search_loop' fuel work st)).
Proof.
  induction work as [|order work IH]; intros st Hcur Hwork Hst; simpl;
    (destruct (bool_decide (solutions st = ∅) || EXHAUSTIVE_SEARCH);
     [|exact Hst]);
    destruct (find_graph_starts_without fuel og st Hcur Hst) as [Hfg Hheap];
    destruct (find_graph' fuel st) as [r st1]; simpl in Hfg, Hheap.
  - destruct r as [[]|[]|]; exact Hfg.
  - assert (Hnext : starts_without og
              (snd (search_loop' fuel work
                      (set_heap_nodes st1
                         (<[fresh (dom (heap st1)) := order]> (heap st1))
                         (fresh (dom (heap st1))))))).
    { apply IH.
      - simpl. rewrite lookup_insert_eq. simpl.
        apply Hwork. left. reflexivity.
      - intros o Ho. apply Hwork. right. exact Ho.
      - exact Hfg. }
    destruct r as [[]|[]|]; try exact Hfg; exact Hnext.
Qed.

(** C10 (amended).  The constructor takes the first occurrence of the
    outgroup out of the caller's list, in place, and keeps that very list;
    when the outgroup occurs at most once in the list, the list then holds
    no outgroup, no order of the work list the driver builds from it holds
    one, and no attempt starts from a list that holds one. *)
Theorem outgroup_stripped fuel h w loc order og :
  h !! loc = Some order ->
  occurrences og order <= 1 ->
  let qp := init World h w loc og in
  heap qp !! loc = Some (list_remove og order) /\
  nodes qp = loc /\
  ~ In og (list_remove og order) /\
  (forall o, In o (permutations (list_remove og order)) -> ~ In og o) /\
  (forall l,
     In (StartingList l) (trace (snd (permute_qpgraph' fuel h w loc og))) ->
     ~ In og l).
Proof.
  intros Hloc Hocc qp.
  assert (Hheap : heap qp !! loc = Some (list_remove og order)).
  { simpl. rewrite lookup_alter_eq, Hloc. reflexivity. }
  pose proof (list_remove_once og order Hocc) as Hrem.
  assert (Hperm : forall o, In o (permutations (list_remove og order)) ->
                            ~ In og o).
  { intros o Ho Hin. apply Hrem. eapply permutations_n_In; eauto. }
  split; [exact Hheap|]. split; [reflexivity|]. split; [exact Hrem|].
  split; [exact Hperm|].
  unfold permute_qpgraph. fold qp. rewrite Hheap. simpl default.
  assert (Hfinal : starts_without og
            (snd (search_loop' fuel
                    (rev (permutations (list_remove og order))) qp))).
  { apply search_loop_starts_without.
    - change (nodes qp) with loc. rewrite Hheap. exact Hrem.
    - intros o Ho. apply Hperm. apply in_rev. exact Ho.
    - intros l []. }
  destruct (search_loop' fuel (rev (permutations (list_remove og order))) qp)
    as [[[]|e|] st']; exact Hfinal.
Qed.

(** ** The trees the search works on are built trees *)

Lemma kb_ret {A} (Q : A -> Prop) a : Q a -> keeps_built (World := World) Q (ret a).
Proof. intros H st Hst. split; [exact Hst|]. intros a' [= <-]. exact H. Qed.

Lemma kb_lift {A} (Q : A -> Prop) (r : Exn + A) :
  (forall a, r = inr a -> Q a) -> keeps_built (World := World) Q (lift r).
Proof.
  intros H st Hst. destruct r as [e|a]; simpl.
  - split; [exact Hst | discriminate].
  - split; [exact Hst|]. intros a' [= <-]. apply H. reflexivity.
Qed.

Lemma kb_bind {A B} (Q : A -> Prop) (Q' : B -> Prop)
    (m : M World A) (k : A -> M World B) :
  keeps_built Q m -> (forall a, Q a -> keeps_built Q' (k a)) ->
  keeps_built Q' (bind m k).
Proof.
  intros Hm Hk st Hst. unfold bind. destruct (Hm st Hst) as [H1 H2].
  destruct (m st) as [[a|e|] st1]; simpl in *.
  - apply Hk; [apply H2; reflexivity | exact H1].
  - split; [exact H1 | discriminate].
  - split; [exact H1 | discriminate].
Qed.

Lemma kb_modify (Q : unit -> Prop) (f : State World -> State World) :
  (forall st, traced_built st -> traced_built (f st)) -> Q tt ->
  keeps_built Q (modify f).
Proof.
  intros Hf HQ st Hst. split; [apply Hf; exact Hst|].
  intros [] _. exact HQ.
Qed.

Lemma kb_weaken {A} (Q Q' : A -> Prop) (m : M World A) :
  keeps_built Q m -> (forall a, Q a -> Q' a) -> keeps_built Q' m.
Proof.
  intros Hm HQ st Hst. destruct (Hm st Hst) as [H1 H2].
  split; [exact H1|]. intros a Ha. apply HQ, H2, Ha.
Qed.

Lemma kb_mapM {A B} (P : A -> Prop) (Q : B -> Prop) (f : A -> M World B) l :
  (forall x, P x -> keeps_built Q (f x)) -> Forall P l ->
  keeps_built (Forall Q) (mapM f l).
Proof.
  intros Hf. induction l as [|x l IH]; intros Hl; simpl.
  - apply kb_ret. constructor.
  - apply Forall_cons in Hl as [Hx Hl].
    apply (kb_bind Q); [apply Hf; exact Hx|]. intros y Hy.
    apply (kb_bind (Forall Q)); [apply IH; exact Hl|]. intros ys Hys.
    apply kb_ret. constructor; assumption.
Qed.

Lemma traced_built_emit st ev :
  tree_event ev -> traced_built st -> traced_built (emit st ev).
Proof.
  intros Hev Hst. unfold traced_built. simpl. apply Forall_app. split;
    [exact Hst | constructor; [exact Hev | constructor]].
Qed.

Lemma kb_run_qpgraph new_tree depth :
  keeps_built (fun r => result_tree r = new_tree) (run_qpgraph' new_tree depth).
Proof.
  intros st Hst. open_run_qpgraph.
  - split; [|intros a [= <-]; reflexivity].
    apply (traced_built_emit (set_world World st w) (Evaluated _ _) I).
    exact Hst.
  - split; [exact Hst | discriminate].
  - split; [exact Hst | discriminate].
  - split; [|intros a [= <-]; reflexivity].
    apply (traced_built_emit (set_world World st w') (Evaluated _ _) I).
    exact Hst.
  - split; [exact Hst | discriminate].
Qed.

Lemma kb_test_trees new_trees depth :
  Forall built new_trees ->
  keeps_built (Forall (fun r => built (result_tree r)))
    (test_trees' new_trees depth).
Proof.
  intros H. apply (kb_mapM built); [|exact H]. intros t Ht.
  apply (kb_weaken (fun r => result_tree r = t)); [apply kb_run_qpgraph|].
  intros r ->. exact Ht.
Qed.

Lemma kb_regular_trees root_tree targets new_tag :
  built root_tree ->
  keeps_built (Forall built) (regular_trees World root_tree targets new_tag).
Proof.
  intros Hb. apply (kb_mapM (fun _ => True)).
  - intros t _.
    apply (kb_bind (fun r => built (fst r))).
    + apply kb_lift. intros [tree' n] E.
      exact (built_regular _ _ _ _ _ Hb E).
    + intros r Hr. apply kb_ret. exact Hr.
  - apply Forall_forall. intros; exact I.
Qed.

Lemma kb_admix_trees root_tree targets new_tag :
  built root_tree ->
  (forall t, In t targets -> In t (findall root_tree)) ->
  keeps_built (Forall built) (admix_trees World root_tree targets new_tag).
Proof.
  intros Hb Hin.
  apply (kb_mapM (fun p => In (fst p) (findall root_tree) /\
                           In (snd p) (findall root_tree))).
  - intros [t1 t2] [H1 H2]. apply kb_lift. intros tree' E.
    exact (built_admixture _ _ _ _ _ Hb H1 H2 E).
  - apply Forall_forall. intros [t1 t2] Hp. apply list_elem_of_In in Hp.
    apply List.filter_In in Hp as [Hp _].
    apply combinations2_In in Hp as [H1 H2]. split; apply Hin; assumption.
Qed.

Lemma kb_check_results_loop
    (recurse : Element -> string -> list string -> nat -> M World unit)
    results remaining depth :
  (forall t n r d, built t -> keeps_built (fun _ => True) (recurse t n r d)) ->
  Forall (fun r => built (result_tree r)) results ->
  forall placed,
    keeps_built (fun _ => True)
      (check_results_loop' recurse results remaining depth placed).
Proof.
  intros Hrec. induction results as [|[[new_tree outliers] name] rest IH];
    intros Hres placed; simpl.
  - apply kb_ret. exact I.
  - apply Forall_cons in Hres as [Hb Hres]. unfold result_tree in Hb.
    simpl in Hb.
    apply (kb_bind (fun _ => True)).
    { apply kb_modify; [|exact I]. intros st Hst. exact Hst. }
    intros _ _.
    destruct (Nat.leb (length outliers) MAX_OUTLIER_THRESHOLD);
      [|apply IH; exact Hres].
    apply (kb_bind (fun _ => True)); [|intros _ _; apply IH; exact Hres].
    destruct remaining as [|next others].
    + apply kb_modify; [|exact I]. intros st Hst.
      apply (traced_built_emit st (Success new_tree outliers name) Hb Hst).
    + apply (kb_bind (fun _ => True)); [|intros _ _; apply Hrec; exact Hb].
      apply kb_modify; [|exact I]. intros st Hst.
      apply (traced_built_emit st (Recursed new_tree outliers name) Hb Hst).
Qed.

Lemma kb_try_insertions
    (recurse : Element -> string -> list string -> nat -> M World unit)
    root_tree new_tag remaining depth :
  (forall t n r d, built t -> keeps_built (fun _ => True) (recurse t n r d)) ->
  built root_tree ->
  keeps_built (fun _ => True)
    (try_insertions' recurse root_tree new_tag remaining depth).
Proof.
  intros Hrec Hb st0. unfold try_insertions.
  set (targets := List.filter _ (findall root_tree)).
  assert (Hin : forall t, In t targets -> In t (findall root_tree)).
  { intros t Ht. apply List.filter_In in Ht as [Ht _]. exact Ht. }
  clearbody targets. revert st0.
  change (keeps_built (fun _ : bool => True)
    (bind (regular_trees World root_tree targets new_tag) (fun new_trees =>
     bind (test_trees' new_trees depth) (fun results =>
     bind (check_results' recurse results remaining depth) (fun node_placed =>
     if node_placed then ret true
     else bind (admix_trees World root_tree targets new_tag) (fun admix =>
          bind (test_trees' admix depth) (fun results =>
          check_results' recurse results remaining depth))))))).
  apply (kb_bind (Forall built)); [apply kb_regular_trees; exact Hb|].
  intros new_trees Hnew.
  apply (kb_bind (Forall (fun r => built (result_tree r))));
    [apply kb_test_trees; exact Hnew|].
  intros results Hres.
  apply (kb_bind (fun _ => True));
    [apply kb_check_results_loop; assumption|].
  intros [|] _; [apply kb_ret; exact I|].
  apply (kb_bind (Forall built)); [apply kb_admix_trees; assumption|].
  intros admix Hadmix.
  apply (kb_bind (Forall (fun r => built (result_tree r))));
    [apply kb_test_trees; exact Hadmix|].
  intros results' Hres'. apply kb_check_results_loop; assumption.
Qed.

Lemma kb_recurse_tree fuel : forall root_tree new_tag remaining depth,
  built root_tree ->
  keeps_built (fun _ => True)
    (recurse_tree' fuel root_tree new_tag remaining depth).
Proof.
  induction fuel as [|fuel IH]; intros root_tree new_tag remaining depth Hb.
  - intros st Hst. split; [exact Hst | discriminate].
  - simpl. apply (kb_bind (fun _ => True));
      [apply kb_try_insertions; [exact IH | exact Hb]|].
    intros [|] _; [apply kb_ret; exact I|]. intros st Hst.
    destruct (negb (bool_decide (new_tag ∈ problem_nodes st)) &&
              negb (bool_decide (remaining = [])) && negb EXHAUSTIVE_SEARCH);
      [|split; [exact Hst | discriminate]].
    assert (Hst' : traced_built
                     (set_problem_nodes (emit st (Warning new_tag))
                        (problem_nodes (emit st (Warning new_tag)) ++ [new_tag])))
      by exact (traced_built_emit st (Warning new_tag) I Hst).
    destruct (remaining ++ [new_tag]) as [|next others];
      [split; [exact Hst' | discriminate]|].
    apply IH; assumption.
Qed.

(** Every tree [check_results] hands to [recurse_tree] or records as a
    solution in the course of an attempt is a built tree. *)
Lemma find_graph_trees_built fuel st :
  traced_built st -> traced_built (snd (find_graph' fuel st)).
Proof.
  intros Hst. unfold find_graph.
  set (self_nodes := default [] (heap st !! nodes st)).
  assert (Hst' : traced_built (emit st (StartingList self_nodes)))
    by exact (traced_built_emit st (StartingList self_nodes) I Hst).
  destruct (self_nodes !! 0) as [first|]; [|exact Hst'].
  destruct (self_nodes !! 1) as [second|]; [|exact Hst'].
  apply kb_recurse_tree; [|exact Hst'].
  exact (built_start (root_node st) (outgroup st) first).
Qed.

(** ** Properties of the state that the whole run keeps *)

Section Stable.

Variable I : State World -> Prop.
Hypothesis I_stable : stable EXHAUSTIVE_SEARCH I.

Lemma ha_ret {A} (a : A) : holds_after I (ret a).
Proof. intros st H. exact H. Qed.

Lemma ha_lift {A} (r : Exn + A) : holds_after I (lift r).
Proof. intros st H. destruct r; exact H. Qed.

Lemma ha_bind {A B} (m : M World A) (k : A -> M World B) :
  holds_after I m -> (forall a, holds_after I (k a)) ->
  holds_after I (bind m k).
Proof.
  intros Hm Hk st H. unfold bind. specialize (Hm st H).
  destruct (m st) as [[a|e|] st1]; simpl in *; try exact Hm.
  apply Hk. exact Hm.
Qed.

Lemma ha_mapM {A B} (f : A -> M World B) l :
  (forall x, holds_after I (f x)) -> holds_after I (mapM f l).
Proof.
  intros Hf. induction l as [|x l IH]; simpl; [apply ha_ret|].
  apply ha_bind; [apply Hf|]. intros y.
  apply ha_bind; [exact IH|]. intros ys. apply ha_ret.
Qed.

Lemma ha_run_qpgraph new_tree depth :
  holds_after I (run_qpgraph' new_tree depth).
Proof.
  destruct I_stable as (Hw & Hev & _).
  intros st H. open_run_qpgraph; auto.
Qed.

Lemma ha_test_trees new_trees depth :
  holds_after I (test_trees' new_trees depth).
Proof. apply ha_mapM. intros t. apply ha_run_qpgraph. Qed.

Lemma ha_regular_trees root_tree targets new_tag :
  holds_after I (regular_trees World root_tree targets new_tag).
Proof.
  apply ha_mapM. intros t. apply ha_bind; [apply ha_lift|].
  intros r. apply ha_ret.
Qed.

Lemma ha_admix_trees root_tree targets new_tag :
  holds_after I (admix_trees World root_tree targets new_tag).
Proof. apply ha_mapM. intros t. apply ha_lift. Qed.

Lemma ha_check_results_loop
    (recurse : Element -> string -> list string -> nat -> M World unit)
    results remaining depth :
  (forall t n r d, holds_after I (recurse t n r d)) ->
  forall placed,
    holds_after I (check_results_loop' recurse results remaining depth placed).
Proof.
  destruct I_stable as (Hw & Hev & Htested & Hsol & _).
  intros Hrec. induction results as [|[[new_tree outliers] name] rest IH];
    intros placed st H; simpl; [exact H|].
  unfold bind at 1. unfold modify at 1.
  set (st1 := set_tested_graphs World st ({[name]} ∪ tested_graphs st)).
  assert (H1 : I st1) by (apply Htested; exact H).
  assert (Hname : name ∈ tested_graphs st1)
    by (simpl; apply elem_of_union_l, elem_of_singleton; reflexivity).
  destruct (Nat.leb (length outliers) MAX_OUTLIER_THRESHOLD); [|apply IH; exact H1].
  unfold bind at 1. destruct remaining as [|next others].
  - unfold modify. apply IH.
    apply (Hsol (emit st1 (Success new_tree outliers name)) name).
    + apply Hev. exact H1.
    + exact Hname.
  - unfold bind at 1. unfold modify at 1.
    pose proof (Hrec new_tree next others (depth + 1)
                  (emit st1 (Recursed new_tree outliers name))
                  (Hev _ _ H1)) as H2.
    destruct (recurse new_tree next others (depth + 1)
                (emit st1 (Recursed new_tree outliers name)))
      as [[[]|e|] st2]; simpl in H2 |- *; try exact H2.
    apply IH. exact H2.
Qed.

Lemma ha_try_insertions
    (recurse : Element -> string -> list string -> nat -> M World unit)
    root_tree new_tag remaining depth :
  (forall t n r d, holds_after I (recurse t n r d)) ->
  holds_after I (try_insertions' recurse root_tree new_tag remaining depth).
Proof.
  intros Hrec st0. unfold try_insertions.
  set (targets := List.filter _ _). clearbody targets.
  revert st0. change (holds_after I
    (bind (regular_trees World root_tree targets new_tag) (fun new_trees =>
     bind (test_trees' new_trees depth) (fun results =>
     bind (check_results' recurse results remaining depth) (fun node_placed =>
     if node_placed then ret true
     else bind (admix_trees World root_tree targets new_tag) (fun admix =>
          bind (test_trees' admix depth) (fun results =>
          check_results' recurse results remaining depth))))))).
  apply ha_bind; [apply ha_regular_trees|]. intros new_trees.
  apply ha_bind; [apply ha_test_trees|]. intros results.
  apply ha_bind; [apply ha_check_results_loop; exact Hrec|].
  intros [|]; [apply ha_ret|].
  apply ha_bind; [apply ha_admix_trees|]. intros admix.
  apply ha_bind; [apply ha_test_trees|]. intros results'.
  apply ha_check_results_loop; exact Hrec.
Qed.

Lemma ha_recurse_tree fuel : forall root_tree new_tag remaining depth,
  holds_after I (recurse_tree' fuel root_tree new_tag remaining depth).
Proof.
  destruct I_stable as (Hw & Hev & _ & _ & Hprob & _).
  induction fuel as [|fuel IH]; intros root_tree new_tag remaining depth.
  - intros st H. exact H.
  - simpl. apply ha_bind; [apply ha_try_insertions; exact IH|].
    intros [|]; [apply ha_ret|]. intros st H.
    destruct (bool_decide (new_tag ∈ problem_nodes st)) eqn:Hin;
      [exact H|].
    apply bool_decide_eq_false in Hin.
    destruct (negb (bool_decide (remaining = []))) ; [|exact H].
    destruct EXHAUSTIVE_SEARCH eqn:Hmode; [exact H|].
    assert (H' : I (set_problem_nodes (emit st (Warning new_tag))
                      (problem_nodes (emit st (Warning new_tag)) ++ [new_tag]))).
    { apply (Hprob eq_refl (emit st (Warning new_tag)) new_tag);
        [apply Hev; exact H | exact Hin]. }
    destruct (remaining ++ [new_tag]) as [|next others]; [exact H'|].
    apply IH. exact H'.
Qed.

Lemma ha_find_graph fuel : holds_after I (find_graph' fuel).
Proof.
  destruct I_stable as (_ & Hev & _).
  intros st H. unfold find_graph.
  set (self_nodes := default [] (heap st !! nodes st)).
  assert (H' : I (emit st (StartingList self_nodes))) by (apply Hev; exact H).
  destruct (self_nodes !! 0) as [first|]; [|exact H'].
  destruct (self_nodes !! 1) as [second|]; [|exact H'].
  apply ha_recurse_tree. exact H'.
Qed.

Lemma ha_search_loop fuel work : holds_after I (search_loop' fuel work).
Proof.
  destruct I_stable as (_ & _ & _ & _ & _ & Hheap).
  induction work as [|order work IH]; intros st H; simpl;
    (destruct (bool_decide (solutions st = ∅) || EXHAUSTIVE_SEARCH);
     [|exact H]);
    pose proof (ha_find_graph fuel st H) as Hfg;
    destruct (find_graph' fuel st) as [r st1]; simpl in Hfg.
  - destruct r as [[]|[]|]; exact Hfg.
  - assert (Hnext : I (snd (search_loop' fuel work
                              (set_heap_nodes st1
                                 (<[fresh (dom (heap st1)) := order]> (heap st1))
                                 (fresh (dom (heap st1))))))).
    { apply IH. apply Hheap. exact Hfg. }
    destruct r as [[]|[]|]; try exact Hfg; exact Hnext.
Qed.

Lemma ha_permute_qpgraph fuel h w loc og :
  I (init World h w loc og) -> I (snd (permute_qpgraph' fuel h w loc og)).
Proof.
  intros H. unfold permute_qpgraph.
  pose proof (ha_search_loop fuel
                (rev (permutations
                        (default [] (heap (init World h w loc og) !! loc))))
                _ H) as Hl.
  destruct (search_loop' fuel _ (init World h w loc og)) as [[[]|e|] st'];
    exact Hl.
Qed.

End Stable.

Lemma stable_solutions_tested :
  stable EXHAUSTIVE_SEARCH
    (fun st : State World => solutions st ⊆ tested_graphs st).
Proof.
  repeat split; simpl; intros; try assumption; set_solver.
Qed.

Lemma stable_problem_NoDup :
  stable EXHAUSTIVE_SEARCH (fun st : State World => NoDup (problem_nodes st)).
Proof.
  repeat split; simpl; intros; try assumption.
  apply NoDup_app. split; [assumption|]. split.
  - intros x Hx Hx'. apply list_elem_of_singleton in Hx'. subst x.
    contradiction.
  - apply NoDup_singleton.
Qed.

(** X6.  Every solution is a tested graph: an attempt keeps the solutions
    within the tested graphs, and so does the driver loop; at the end of a
    run, whatever its outcome, the solutions are among the tested graphs. *)
Theorem solutions_are_tested fuel :
  (forall st : State World, solutions st ⊆ tested_graphs st ->
     solutions (snd (find_graph' fuel st))
     ⊆ tested_graphs (snd (find_graph' fuel st))) /\
  (forall h w loc og,
     solutions (snd (permute_qpgraph' fuel h w loc og))
     ⊆ tested_graphs (snd (permute_qpgraph' fuel h w loc og))).
Proof.
  split.
  - intros st H.
    exact (ha_find_graph _ stable_solutions_tested fuel st H).
  - intros h w loc og.
    apply (ha_permute_qpgraph _ stable_solutions_tested fuel h w loc og).
    simpl. reflexivity.
Qed.

(** X7.  No label is marked a problem node twice: an attempt that starts
    with a duplicate-free list of problem nodes leaves one, and the list at
    the end of a run, whatever its outcome, has no duplicates. *)
Theorem problem_nodes_never_repeat fuel :
  (forall st : State World, NoDup (problem_nodes st) ->
     NoDup (problem_nodes (snd (find_graph' fuel st)))) /\
  (forall h w loc og,
     NoDup (problem_nodes (snd (permute_qpgraph' fuel h w loc og)))).
Proof.
  split.
  - intros st H. exact (ha_find_graph _ stable_problem_NoDup fuel st H).
  - intros h w loc og.
    apply (ha_permute_qpgraph _ stable_problem_NoDup fuel h w loc og).
    simpl. apply NoDup_nil_2.
Qed.

(** ** What [check_results] returns *)

Lemma check_results_loop_flag
    (recurse : Element -> string -> list string -> nat -> M World unit)
    results remaining depth :
  forall placed st b st',
    check_results_loop' recurse results remaining depth placed st
    = (Ret b, st') ->
    b = placed || existsb (passes MAX_OUTLIER_THRESHOLD) results.
Proof.
  induction results as [|[[new_tree outliers] name] rest IH];
    intros placed st b st' H; simpl in H.
  - injection H as <- _. simpl. rewrite orb_false_r. reflexivity.
  - unfold bind at 1 in H. unfold modify at 1 in H.
    cbn [existsb]. unfold passes at 1. cbn [result_outliers fst snd].
    destruct (Nat.leb (length outliers) MAX_OUTLIER_THRESHOLD).
    + unfold bind at 1 in H.
      destruct remaining as [|next others].
      * unfold modify in H. apply IH in H. rewrite H. simpl.
        rewrite orb_true_r. reflexivity.
      * destruct (bind _ _ _) as [[[]|e|] st2]; try discriminate.
        apply IH in H. rewrite H. simpl. rewrite orb_true_r. reflexivity.
    + apply IH in H. exact H.
Qed.

(** X8.  When [check_results] returns, its flag tells whether some result
    of the batch is within the outlier threshold, whatever the calls to
    [recurse_tree] below it did. *)
Theorem check_results_flag
    (recurse : Element -> string -> list string -> nat -> M World unit)
    results remaining depth st b st' :
  check_results' recurse results remaining depth st = (Ret b, st') ->
  b = existsb (passes MAX_OUTLIER_THRESHOLD) results.
Proof.
  intros H. unfold check_results in H.
  apply check_results_loop_flag in H. exact H.
Qed.

Lemma check_results_loop_last
    (recurse : Element -> string -> list string -> nat -> M World unit)
    results depth :
  forall placed st,
    exists st',
      check_results_loop' recurse results [] depth placed st
      = (Ret (placed || existsb (passes MAX_OUTLIER_THRESHOLD) results), st') /\
      tested_graphs st'
      = list_to_set (map result_name results) ∪ tested_graphs st /\
      solutions st'
      = list_to_set
          (map result_name
             (List.filter (passes MAX_OUTLIER_THRESHOLD) results))
        ∪ solutions st /\
      trace st'
      = trace st
        ++ map success_of (List.filter (passes MAX_OUTLIER_THRESHOLD) results) /\
      problem_nodes st' = problem_nodes st /\
      world st' = world st.
Proof.
  induction results as [|[[new_tree outliers] name] rest IH];
    intros placed st.
  - exists st. simpl. rewrite orb_false_r, app_nil_r.
    split; [reflexivity|]. split; [set_solver|]. split; [set_solver|].
    repeat split; reflexivity.
  - cbn [check_results_loop existsb List.filter].
    unfold bind at 1. unfold modify at 1.
    change (passes MAX_OUTLIER_THRESHOLD (new_tree, outliers, name))
      with (Nat.leb (length outliers) MAX_OUTLIER_THRESHOLD).
    destruct (Nat.leb (length outliers) MAX_OUTLIER_THRESHOLD).
    + unfold bind at 1. unfold modify at 1.
      edestruct (IH true) as (st' & Hrun & Htested & Hsol & Htr & Hp & Hw).
      exists st'. rewrite Hrun. rewrite orb_true_r.
      split; [reflexivity|].
      rewrite Htested, Hsol, Htr, Hp, Hw. simpl.
      rewrite <- app_assoc.
      split; [set_solver|]. split; [set_solver|].
      repeat split; reflexivity.
    + edestruct (IH placed) as (st' & Hrun & Htested & Hsol & Htr & Hp & Hw).
      exists st'. rewrite Hrun. split; [reflexivity|].
      rewrite Htested, Hsol, Htr, Hp, Hw. simpl.
      split; [set_solver|]. split; [set_solver|].
      repeat split; reflexivity.
Qed.

(** X9.  With no label left to place, [check_results] calls nothing and
    raises nothing: every result of the batch joins the tested graphs,
    those within the threshold join the solutions and are announced in the
    order of the batch, and the flag tells whether there is one. *)
Theorem check_results_last_label
    (recurse : Element -> string -> list string -> nat -> M World unit)
    results depth st :
  exists st',
    check_results' recurse results [] depth st
    = (Ret (existsb (passes MAX_OUTLIER_THRESHOLD) results), st') /\
    tested_graphs st'
    = list_to_set (map result_name results) ∪ tested_graphs st /\
    solutions st'
    = list_to_set
        (map result_name (List.filter (passes MAX_OUTLIER_THRESHOLD) results))
      ∪ solutions st /\
    trace st'
    = trace st
      ++ map success_of (List.filter (passes MAX_OUTLIER_THRESHOLD) results).
Proof.
  destruct (check_results_loop_last recurse results depth false st)
    as (st' & Hrun & Htested & Hsol & Htr & _).
  exists st'. repeat split; assumption.
Qed.

(** ** An attempt that returns has found a solution *)

Lemma found_then st st1 st2 : found st st1 -> ext st1 st2 -> found st st2.
Proof.
  intros (evs & t & o & name & Htr & Hin & Hsol) E.
  destruct (ext_trace _ _ _ E) as (evs' & Htr' & _).
  exists (evs ++ evs'), t, o, name. repeat split.
  - rewrite Htr', Htr, app_assoc. reflexivity.
  - apply in_or_app. left. exact Hin.
  - apply (ext_solutions _ _ _ E). exact Hsol.
Qed.

Lemma then_found st st1 st2 : ext st st1 -> found st1 st2 -> found st st2.
Proof.
  intros E (evs & t & o & name & Htr & Hin & Hsol).
  destruct (ext_trace _ _ _ E) as (evs' & Htr' & _).
  exists (evs' ++ evs), t, o, name. repeat split.
  - rewrite Htr, Htr', app_assoc. reflexivity.
  - apply in_or_app. right. exact Hin.
  - exact Hsol.
Qed.

Lemma check_results_loop_found
    (recurse : Element -> string -> list string -> nat -> M World unit)
    results remaining depth :
  (forall t n r d, fwd (recurse t n r d)) ->
  (forall t n r d st st',
     recurse t n r d st = (Ret tt, st') -> found st st') ->
  forall placed st b st',
    check_results_loop' recurse results remaining depth placed st
    = (Ret b, st') ->
    b = true -> placed = true \/ found st st'.
Proof.
  intros Hfwd Hrec.
  induction results as [|[[new_tree outliers] name] rest IH];
    intros placed st b st' H Hb; simpl in H.
  - injection H as <- _. left. exact Hb.
  - unfold bind at 1 in H. unfold modify at 1 in H.
    set (st1 := set_tested_graphs World st ({[name]} ∪ tested_graphs st)) in H.
    assert (E1 : ext st st1) by apply extends_set_tested.
    destruct (Nat.leb (length outliers) MAX_OUTLIER_THRESHOLD) eqn:Hle.
    + right. apply Nat.leb_le in Hle. unfold bind at 1 in H.
      destruct remaining as [|next others].
      * unfold modify in H.
        set (st2 := set_solutions World _ _) in H.
        pose proof (forward_check_results_loop recurse rest [] depth Hfwd
                      true st2) as E2.
        rewrite H in E2. simpl in E2.
        apply (found_then st st2 st'); [|exact E2].
        exists [Success new_tree outliers name], new_tree, outliers, name.
        repeat split.
        -- left. reflexivity.
        -- simpl. apply elem_of_union_l, elem_of_singleton. reflexivity.
      * unfold bind at 1 in H. unfold modify at 1 in H.
        destruct (recurse new_tree next others (depth + 1)
                    (emit st1 (Recursed new_tree outliers name)))
          as [[[]|e|] st2] eqn:Hcall; try discriminate.
        pose proof (forward_check_results_loop recurse rest (next :: others)
                      depth Hfwd true st2) as E2.
        rewrite H in E2. simpl in E2.
        apply (found_then st st2 st'); [|exact E2].
        apply (then_found st (emit st1 (Recursed new_tree outliers name)) st2).
        -- apply (extends_trans _ _ _ E1).
           apply (extends_emit st1 (Recursed new_tree outliers name)).
           exact Hle.
        -- apply (Hrec _ _ _ _ _ _ Hcall).
    + destruct (IH _ _ _ _ H Hb) as [Hp|Hf]; [left; exact Hp|].
      right. apply (then_found st st1 st' E1 Hf).
Qed.

Lemma try_insertions_found
    (recurse : Element -> string -> list string -> nat -> M World unit)
    root_tree new_tag remaining depth st st' :
  (forall t n r d, fwd (recurse t n r d)) ->
  (forall t n r d st st',
     recurse t n r d st = (Ret tt, st') -> found st st') ->
  try_insertions' recurse root_tree new_tag remaining depth st
  = (Ret true, st') ->
  found st st'.
Proof.
  intros Hfwd Hrec H. unfold try_insertions in H.
  set (targets := List.filter _ _) in H. clearbody targets.
  unfold check_results in H.
  unfold bind at 1 in H.
  pose proof (forward_regular_trees root_tree targets new_tag st) as E1.
  destruct (regular_trees World root_tree targets new_tag st)
    as [[new_trees|e|] s1]; try discriminate. simpl in E1.
  unfold bind at 1 in H.
  pose proof (forward_test_trees new_trees depth s1) as E2.
  destruct (test_trees' new_trees depth s1) as [[results|e|] s2];
    try discriminate. simpl in E2.
  unfold bind at 1 in H.
  pose proof (forward_check_results_loop recurse results remaining depth
                Hfwd false s2) as E3.
  destruct (check_results_loop' recurse results remaining depth false s2)
    as [[b|e|] s3] eqn:Hcheck; try discriminate. simpl in E3.
  assert (E : ext st s2) by (apply (extends_trans _ _ _ E1 E2)).
  destruct b.
  - injection H as <-.
    destruct (check_results_loop_found recurse results remaining depth
                Hfwd Hrec _ _ _ _ Hcheck eq_refl) as [Hp|Hf];
      [discriminate|].
    apply (then_found _ _ _ E Hf).
  - unfold bind at 1 in H.
    pose proof (forward_admix_trees root_tree targets new_tag s3) as E4.
    destruct (admix_trees World root_tree targets new_tag s3)
      as [[admix|e|] s4]; try discriminate. simpl in E4.
    unfold bind at 1 in H.
    pose proof (forward_test_trees admix depth s4) as E5.
    destruct (test_trees' admix depth s4) as [[results'|e|] s5];
      try discriminate. simpl in E5.
    destruct (check_results_loop_found recurse results' remaining depth
                Hfwd Hrec _ _ _ _ H eq_refl) as [Hp|Hf];
      [discriminate|].
    apply (then_found st s5 st'); [|exact Hf].
    apply (extends_trans _ _ _ E), (extends_trans _ _ _ E3),
          (extends_trans _ _ _ E4), E5.
Qed.

Lemma recurse_tree_found fuel :
  forall root_tree new_tag remaining depth st st',
    recurse_tree' fuel root_tree new_tag remaining depth st = (Ret tt, st') ->
    found st st'.
Proof.
  induction fuel as [|fuel IH];
    intros root_tree new_tag remaining depth st st' H; simpl in H;
    [discriminate|].
  unfold bind at 1 in H.
  pose proof (forward_try_insertions (recurse_tree' fuel) root_tree new_tag
                remaining depth (forward_recurse_tree fuel) st) as E1.
  destruct (try_insertions' (recurse_tree' fuel) root_tree new_tag remaining
              depth st) as [[b|e|] s1] eqn:Htry; try discriminate.
  simpl in E1. destruct b.
  - injection H as <-.
    apply (try_insertions_found _ _ _ _ _ _ _ (forward_recurse_tree fuel)
             (fun t n r d => IH t n r d) Htry).
  - destruct (negb (bool_decide (new_tag ∈ problem_nodes s1))
              && negb (bool_decide (remaining = []))
              && negb EXHAUSTIVE_SEARCH); [|discriminate].
    destruct (remaining ++ [new_tag]) as [|next others]; [discriminate|].
    apply IH in H. apply (then_found _ _ _ E1).
    refine (then_found _ _ _ _ H).
    apply (extends_trans _ (emit s1 (Warning new_tag))).
    + apply (extends_emit s1 (Warning new_tag)). exact Logic.I.
    + apply (extends_set_problem (emit s1 (Warning new_tag)) new_tag).
Qed.

Lemma find_graph_found fuel st st' :
  find_graph' fuel st = (Ret tt, st') -> found st st'.
Proof.
  intros H. unfold find_graph in H.
  set (self_nodes := default [] (heap st !! nodes st)) in H.
  destruct (self_nodes !! 0) as [first|]; [|discriminate].
  destruct (self_nodes !! 1) as [second|]; [|discriminate].
  apply recurse_tree_found in H.
  destruct H as (evs & t & o & name & Htr & Hin & Hsol).
  exists (StartingList self_nodes :: evs), t, o, name. repeat split.
  - rewrite Htr. simpl. rewrite <- app_assoc. reflexivity.
  - right. exact Hin.
  - exact Hsol.
Qed.

(** X10.  An attempt that returns without an exception has found a
    solution: the output it adds announces a success, and that graph is
    among the solutions afterwards. *)
Theorem attempt_returns_with_solution fuel st st' :
  find_graph' fuel st = (Ret tt, st') -> found st st'.
Proof. intros H. apply find_graph_found in H. exact H. Qed.

(** ** The attempts of the driver *)

Lemma starting_lists_app tr1 tr2 :
  starting_lists (tr1 ++ tr2) = starting_lists tr1 ++ starting_lists tr2.
Proof. unfold starting_lists. apply flat_map_app. Qed.

Lemma starting_lists_search evs :
  Forall (search_event MAX_OUTLIER_THRESHOLD) evs -> starting_lists evs = [].
Proof.
  induction 1 as [|ev evs Hev _ IH]; [reflexivity|].
  destruct ev; simpl in *; try contradiction; exact IH.
Qed.

Lemma find_graph_starting_lists fuel st :
  starting_lists (trace (snd (find_graph' fuel st)))
  = starting_lists (trace st) ++ [default [] (heap st !! nodes st)].
Proof.
  destruct (ext_trace _ _ _ (find_graph_extends fuel st))
    as (evs & Htr & Hevs).
  rewrite Htr. simpl. rewrite !starting_lists_app.
  rewrite (starting_lists_search evs Hevs), app_nil_r. reflexivity.
Qed.

Lemma search_loop_attempts fuel work : forall st st',
  search_loop' fuel work st = (Ret tt, st') ->
  EXHAUSTIVE_SEARCH = true \/ solutions st' = ∅ ->
  starting_lists (trace st')
  = starting_lists (trace st) ++ default [] (heap st !! nodes st) :: work.
Proof.
  induction work as [|order work IH]; intros st st' H Hcond; simpl in H;
    (destruct (bool_decide (solutions st = ∅) || EXHAUSTIVE_SEARCH) eqn:Hc;
     [|injection H as <-; exfalso;
       apply orb_false_elim in Hc; destruct Hc as [Hc1 Hc2];
       destruct Hcond as [Hcond|Hcond];
       [congruence
       |apply bool_decide_eq_false in Hc1; contradiction]]);
    pose proof (find_graph_starting_lists fuel st) as Hfg;
    pose proof (find_graph_extends fuel st) as E;
    destruct (find_graph' fuel st) as [r st1]; simpl in Hfg, E.
  - destruct r as [[]|[]|]; try discriminate; injection H as <-; exact Hfg.
  - assert (Hnext : forall s,
              search_loop' fuel work
                (set_heap_nodes st1 (<[fresh (dom (heap st1)) := order]> (heap st1))
                   (fresh (dom (heap st1)))) = (Ret tt, s) ->
              s = st' ->
              starting_lists (trace st')
              = starting_lists (trace st)
                ++ default [] (heap st !! nodes st) :: order :: work).
    { intros s Hs ->. apply IH in Hs; [|exact Hcond].
      rewrite Hs. simpl. rewrite lookup_insert_eq. simpl.
      rewrite Hfg, <- app_assoc. reflexivity. }
    destruct r as [[]|[]|]; try discriminate;
      apply (Hnext st' H eq_refl).
Qed.

Lemma permutations_n_head {A} n : forall l : list A,
  length l = n -> exists rest, permutations_n n l = l :: rest.
Proof.
  induction n as [|n IH]; intros l Hl.
  - destruct l; [|discriminate]. exists []. reflexivity.
  - destruct l as [|x l]; [discriminate|]. injection Hl as Hl.
    destruct (IH l Hl) as (rest & Hrest).
    cbn [permutations_n length seq flat_map lookup list_lookup delete
         list_delete].
    rewrite Hrest. cbn [map app]. eexists. reflexivity.
Qed.

Lemma permutations_n_length {A} n : forall l : list A,
  length l = n -> length (permutations_n n l) = fact n.
Proof.
  induction n as [|n IH]; intros l Hl; [reflexivity|].
  cbn [permutations_n].
  rewrite flat_map_constant_length with (c := fact n).
  - rewrite length_seq, Hl. reflexivity.
  - intros i Hi. apply in_seq in Hi.
    destruct (lookup_lt_is_Some_2 l i) as (x & Hx); [lia|].
    rewrite Hx, length_map. apply IH.
    rewrite length_delete by (exists x; exact Hx). lia.
Qed.

(** X11.  A run that returns without a solution, or in exhaustive mode,
    has made an attempt on the given order of the labels without the
    outgroup and then on every order of them, the last produced first:
    one more attempt than there are orders, and the given order is both
    the first and the last one tried. *)
Theorem driver_attempts fuel h w loc og order b st' :
  h !! loc = Some order ->
  permute_qpgraph' fuel h w loc og = (Ret b, st') ->
  EXHAUSTIVE_SEARCH = true \/ b = false ->
  starting_lists (trace st')
  = list_remove og order :: rev (permutations (list_remove og order)) /\
  length (starting_lists (trace st'))
  = fact (length (list_remove og order)) + 1 /\
  last (starting_lists (trace st')) = Some (list_remove og order).
Proof.
  intros Hloc H Hcond. unfold permute_qpgraph in H.
  assert (Hl : default [] (heap (init World h w loc og) !! loc)
               = list_remove og order).
  { simpl. rewrite lookup_alter_eq, Hloc. reflexivity. }
  rewrite Hl in H.
  destruct (search_loop' fuel (rev (permutations (list_remove og order)))
              (init World h w loc og)) as [[[]|e|] s] eqn:Hloop;
    try discriminate.
  injection H as Hb <-.
  assert (Hlists : starting_lists (trace s)
                   = list_remove og order
                     :: rev (permutations (list_remove og order))).
  { apply search_loop_attempts in Hloop.
    - rewrite Hloop. simpl. rewrite lookup_alter_eq, Hloc. reflexivity.
    - destruct Hcond as [Hex|Hfalse]; [left; exact Hex|right].
      rewrite Hfalse in Hb. apply negb_false_iff in Hb.
      apply bool_decide_eq_true in Hb. exact Hb. }
  split; [exact Hlists|]. rewrite Hlists. split.
  - simpl. rewrite length_rev. unfold permutations.
    rewrite permutations_n_length by reflexivity. lia.
  - destruct (permutations_n_head (length (list_remove og order))
                (list_remove og order) eq_refl) as (rest & Hrest).
    unfold permutations. rewrite Hrest. simpl.
    rewrite app_comm_cons. apply last_snoc.
Qed.

(** X12.  With fewer than two labels in its list an attempt raises
    [IndexError] right after announcing the list; the driver does not
    catch it, so a run on fewer than two labels besides the outgroup ends
    with this exception and without a tested graph. *)
Theorem too_few_labels fuel :
  (forall st,
     length (default [] (heap st !! nodes st)) < 2 ->
     find_graph' fuel st
     = (Raise IndexError,
        emit st (StartingList (default [] (heap st !! nodes st))))) /\
  (forall h w loc og order,
     h !! loc = Some order ->
     length (list_remove og order) < 2 ->
     fst (permute_qpgraph' fuel h w loc og) = Raise IndexError /\
     tested_graphs (snd (permute_qpgraph' fuel h w loc og)) = ∅).
Proof.
  assert (Hfg : forall st,
            length (default [] (heap st !! nodes st)) < 2 ->
            find_graph' fuel st
            = (Raise IndexError,
               emit st (StartingList (default [] (heap st !! nodes st))))).
  { intros st Hlen. unfold find_graph.
    destruct (default [] (heap st !! nodes st)) as [|x [|y l]];
      simpl in *; try reflexivity; lia. }
  split; [exact Hfg|].
  intros h w loc og order Hloc Hlen. unfold permute_qpgraph.
  assert (Hl : default [] (heap (init World h w loc og)
                           !! nodes (init World h w loc og))
               = list_remove og order).
  { simpl. rewrite lookup_alter_eq, Hloc. reflexivity. }
  specialize (Hfg (init World h w loc og)). rewrite Hl in Hfg.
  specialize (Hfg Hlen).
  destruct (rev (permutations (default [] (heap (init World h w loc og) !! loc))))
    as [|next work]; simpl search_loop; rewrite Hfg; simpl; split; reflexivity.
Qed.

(** ** The labels of the solutions *)

Section Labels.

Variable E : Event -> Prop.

Lemma ad_ret {A} (Q : A -> Prop) a : Q a -> adds (World := World) E Q (ret a).
Proof.
  intros H st. exists []. simpl. rewrite app_nil_r.
  repeat split; [constructor|]. intros a' [= <-]. exact H.
Qed.

Lemma ad_lift {A} (Q : A -> Prop) (r : Exn + A) :
  (forall a, r = inr a -> Q a) -> adds (World := World) E Q (lift r).
Proof.
  intros H st. exists []. destruct r as [e|a]; simpl; rewrite app_nil_r;
    (repeat split; [constructor|]).
  - discriminate.
  - intros a' [= <-]. apply H. reflexivity.
Qed.

Lemma ad_bind {A B} (Q : A -> Prop) (Q' : B -> Prop)
    (m : M World A) (k : A -> M World B) :
  adds E Q m -> (forall a, Q a -> adds E Q' (k a)) -> adds E Q' (bind m k).
Proof.
  intros Hm Hk st. unfold bind.
  destruct (Hm st) as (evs1 & Htr1 & HE1 & HQ).
  destruct (m st) as [[a|e|] st1]; simpl in *.
  - destruct (Hk a (HQ a eq_refl) st1) as (evs2 & Htr2 & HE2 & HQ').
    exists (evs1 ++ evs2). rewrite Htr2, Htr1, app_assoc.
    repeat split; [apply Forall_app; split; assumption | exact HQ'].
  - exists evs1. repeat split; [exact Htr1 | exact HE1 | discriminate].
  - exists evs1. repeat split; [exact Htr1 | exact HE1 | discriminate].
Qed.

Lemma ad_modify (f : State World -> State World) evs :
  (forall st, trace (f st) = trace st ++ evs) -> Forall E evs ->
  adds E (fun _ : unit => True) (modify f).
Proof.
  intros Hf HE st. exists evs. simpl. repeat split; [apply Hf | exact HE].
Qed.

Lemma ad_weaken {A} (Q Q' : A -> Prop) (m : M World A) :
  adds E Q m -> (forall a, Q a -> Q' a) -> adds E Q' m.
Proof.
  intros Hm HQ st. destruct (Hm st) as (evs & Htr & HE & H).
  exists evs. repeat split; [exact Htr | exact HE|].
  intros a Ha. apply HQ, H, Ha.
Qed.

Lemma ad_mapM {A B} (P : A -> Prop) (Q : B -> Prop) (f : A -> M World B) l :
  (forall x, P x -> adds E Q (f x)) -> Forall P l ->
  adds E (Forall Q) (mapM f l).
Proof.
  intros Hf. induction l as [|x l IH]; intros Hl; simpl.
  - apply ad_ret. constructor.
  - apply Forall_cons in Hl as [Hx Hl].
    apply (ad_bind Q); [apply Hf; exact Hx|]. intros y Hy.
    apply (ad_bind (Forall Q)); [apply IH; exact Hl|]. intros ys Hys.
    apply ad_ret. constructor; assumption.
Qed.

End Labels.

Section Complete.

Variable all : list string.

Lemma ad_run_qpgraph new_tree depth :
  adds (complete all) (fun r => result_tree r = new_tree)
    (run_qpgraph' new_tree depth).
Proof.
  intros st. open_run_qpgraph.
  - eexists. repeat split; [repeat constructor|].
    intros a [= <-]. reflexivity.
  - exists []. rewrite app_nil_r. repeat split; [constructor|discriminate].
  - exists []. rewrite app_nil_r. repeat split; [constructor|discriminate].
  - eexists. repeat split; [repeat constructor|].
    intros a [= <-]. reflexivity.
  - exists []. rewrite app_nil_r. repeat split; [constructor|discriminate].
Qed.

Lemma ad_test_trees (P : Element -> Prop) new_trees depth :
  Forall P new_trees ->
  adds (complete all) (Forall (fun r => P (result_tree r)))
    (test_trees' new_trees depth).
Proof.
  intros H. apply (ad_mapM _ P); [|exact H]. intros t Ht.
  apply (ad_weaken _ (fun r => result_tree r = t)); [apply ad_run_qpgraph|].
  intros r ->. exact Ht.
Qed.

Lemma ad_regular_trees root_tree targets new_tag :
  adds (complete all)
    (Forall (fun t => leaf_labels t ≡ₚ new_tag :: leaf_labels root_tree))
    (regular_trees World root_tree targets new_tag).
Proof.
  apply (ad_mapM _ (fun _ => True)).
  - intros t _.
    apply (ad_bind _ (fun r => leaf_labels (fst r)
                               ≡ₚ new_tag :: leaf_labels root_tree)).
    + apply ad_lift. intros [tree' n] Hins.
      exact (leaf_labels_regular _ _ _ _ _ Hins).
    + intros r Hr. apply ad_ret. exact Hr.
  - apply Forall_forall. intros; exact Logic.I.
Qed.

Lemma ad_admix_trees root_tree targets new_tag :
  (forall t, In t targets -> In t (findall root_tree)) ->
  adds (complete all)
    (Forall (fun t => leaf_labels t ≡ₚ new_tag :: leaf_labels root_tree))
    (admix_trees World root_tree targets new_tag).
Proof.
  intros Hin.
  apply (ad_mapM _ (fun p => In (fst p) (findall root_tree) /\
                             In (snd p) (findall root_tree))).
  - intros [t1 t2] [H1 H2]. apply ad_lift. intros tree' Hins.
    exact (leaf_labels_admixture _ _ _ _ _ H1 H2 Hins).
  - apply Forall_forall. intros [t1 t2] Hp. apply list_elem_of_In in Hp.
    apply List.filter_In in Hp as [Hp _].
    apply combinations2_In in Hp as [H1 H2]. split; apply Hin; assumption.
Qed.

Lemma ad_check_results_loop
    (recurse : Element -> string -> list string -> nat -> M World unit)
    results remaining depth :
  (forall t n r d, leaf_labels t ++ n :: r ≡ₚ all ->
     adds (complete all) (fun _ => True) (recurse t n r d)) ->
  Forall (fun r => leaf_labels (result_tree r) ++ remaining ≡ₚ all) results ->
  forall placed,
    adds (complete all) (fun _ => True)
      (check_results_loop' recurse results remaining depth placed).
Proof.
  intros Hrec. induction results as [|[[new_tree outliers] name] rest IH];
    intros Hres placed; simpl.
  - apply ad_ret. exact Logic.I.
  - apply Forall_cons in Hres as [Hb Hres]. unfold result_tree in Hb.
    simpl in Hb.
    apply (ad_bind _ (fun _ => True)).
    { apply (ad_modify _ _ []); [|constructor]. intros st. simpl.
      rewrite app_nil_r. reflexivity. }
    intros _ _.
    destruct (Nat.leb (length outliers) MAX_OUTLIER_THRESHOLD);
      [|apply IH; exact Hres].
    apply (ad_bind _ (fun _ => True)); [|intros _ _; apply IH; exact Hres].
    destruct remaining as [|next others].
    + apply (ad_modify _ _ [Success new_tree outliers name]).
      * intros st. reflexivity.
      * constructor; [|constructor]. simpl. rewrite app_nil_r in Hb.
        exact Hb.
    + apply (ad_bind _ (fun _ => True)); [|intros _ _; apply Hrec; exact Hb].
      apply (ad_modify _ _ [Recursed new_tree outliers name]).
      * intros st. reflexivity.
      * constructor; [exact Logic.I|constructor].
Qed.

Lemma labels_after_insertion root_tree new_tag remaining t :
  leaf_labels root_tree ++ new_tag :: remaining ≡ₚ all ->
  leaf_labels t ≡ₚ new_tag :: leaf_labels root_tree ->
  leaf_labels t ++ remaining ≡ₚ all.
Proof.
  intros Hall Ht. rewrite Ht, <- Hall. simpl.
  apply Permutation_middle.
Qed.

Lemma ad_try_insertions
    (recurse : Element -> string -> list string -> nat -> M World unit)
    root_tree new_tag remaining depth :
  (forall t n r d, leaf_labels t ++ n :: r ≡ₚ all ->
     adds (complete all) (fun _ => True) (recurse t n r d)) ->
  leaf_labels root_tree ++ new_tag :: remaining ≡ₚ all ->
  adds (complete all) (fun _ => True)
    (try_insertions' recurse root_tree new_tag remaining depth).
Proof.
  intros Hrec Hall st0. unfold try_insertions.
  set (targets := List.filter _ (findall root_tree)).
  assert (Hin : forall t, In t targets -> In t (findall root_tree)).
  { intros t Ht. apply List.filter_In in Ht as [Ht _]. exact Ht. }
  clearbody targets. revert st0.
  change (adds (complete all) (fun _ : bool => True)
    (bind (regular_trees World root_tree targets new_tag) (fun new_trees =>
     bind (test_trees' new_trees depth) (fun results =>
     bind (check_results' recurse results remaining depth) (fun node_placed =>
     if node_placed then ret true
     else bind (admix_trees World root_tree targets new_tag) (fun admix =>
          bind (test_trees' admix depth) (fun results =>
          check_results' recurse results remaining depth))))))).
  assert (Hstep : forall trees,
            Forall (fun t => leaf_labels t ≡ₚ new_tag :: leaf_labels root_tree)
              trees ->
            Forall (fun t => leaf_labels t ++ remaining ≡ₚ all) trees).
  { intros trees Htrees. rewrite Forall_forall in Htrees |- *.
    intros t Ht.
    exact (labels_after_insertion _ _ _ _ Hall (Htrees t Ht)). }
  apply (ad_bind _ _ _ _ _ (ad_regular_trees root_tree targets new_tag)).
  intros new_trees Hnew. apply Hstep in Hnew.
  apply (ad_bind _ _ _ _ _ (ad_test_trees _ new_trees depth Hnew)).
  intros results Hres.
  apply (ad_bind _ (fun _ => True));
    [apply ad_check_results_loop; assumption|].
  intros [|] _; [apply ad_ret; exact Logic.I|].
  apply (ad_bind _ _ _ _ _ (ad_admix_trees root_tree targets new_tag Hin)).
  intros admix Hadmix. apply Hstep in Hadmix.
  apply (ad_bind _ _ _ _ _ (ad_test_trees _ admix depth Hadmix)).
  intros results' Hres'. apply ad_check_results_loop; assumption.
Qed.

Lemma ad_recurse_tree fuel : forall root_tree new_tag remaining depth,
  leaf_labels root_tree ++ new_tag :: remaining ≡ₚ all ->
  adds (complete all) (fun _ => True)
    (recurse_tree' fuel root_tree new_tag remaining depth).
Proof.
  induction fuel as [|fuel IH]; intros root_tree new_tag remaining depth Hall.
  - intros st. exists []. simpl. rewrite app_nil_r.
    split; [reflexivity|]. split; [constructor|discriminate].
  - simpl. apply (ad_bind _ (fun _ => True));
      [apply ad_try_insertions; [exact IH | exact Hall]|].
    intros [|] _; [apply ad_ret; exact Logic.I|]. intros st.
    destruct (negb (bool_decide (new_tag ∈ problem_nodes st)) &&
              negb (bool_decide (remaining = [])) && negb EXHAUSTIVE_SEARCH).
    2: { exists []. simpl. rewrite app_nil_r.
         split; [reflexivity|]. split; [constructor|discriminate]. }
    cbv zeta.
    destruct (remaining ++ [new_tag]) as [|next others] eqn:Hq.
    { exists [Warning new_tag]. simpl.
      split; [reflexivity|]. split; [repeat constructor|discriminate]. }
    assert (Hall' : leaf_labels root_tree ++ next :: others ≡ₚ all).
    { rewrite <- Hq, <- Hall. apply Permutation_app_head.
      symmetry. apply Permutation_cons_append. }
    destruct (IH root_tree next others depth Hall'
                (set_problem_nodes (emit st (Warning new_tag))
                   (problem_nodes (emit st (Warning new_tag)) ++ [new_tag])))
      as (evs & Htr & HE & HQ).
    exists (Warning new_tag :: evs). split; [|split; [|exact HQ]].
    + etransitivity; [exact Htr|]. simpl. rewrite <- app_assoc. reflexivity.
    + constructor; [exact Logic.I | exact HE].
Qed.

End Complete.

(** X13.  Every graph an attempt announces as a success holds the
    outgroup and every label of the starting list, each as often as the
    list does, on nodes not marked internal, and nothing else on such
    nodes; the number of nodes printed for it is one more than the length
    of the list. *)
Theorem solutions_hold_every_label fuel st :
  exists evs,
    trace (snd (find_graph' fuel st))
    = trace st ++ StartingList (default [] (heap st !! nodes st)) :: evs /\
    forall new_tree outliers name,
      In (Success new_tree outliers name) evs ->
      leaf_labels new_tree ≡ₚ outgroup st :: default [] (heap st !! nodes st) /\
      num_nodes new_tree = S (length (default [] (heap st !! nodes st))).
Proof.
  unfold find_graph.
  set (self_nodes := default [] (heap st !! nodes st)).
  assert (Hall : forall evs,
            Forall (complete (outgroup st :: self_nodes)) evs ->
            forall new_tree outliers name,
              In (Success new_tree outliers name) evs ->
              leaf_labels new_tree ≡ₚ outgroup st :: self_nodes /\
              num_nodes new_tree = S (length self_nodes)).
  { intros evs HE t o name Hin.
    rewrite Forall_forall in HE. apply list_elem_of_In in Hin.
    specialize (HE _ Hin). simpl in HE. split; [exact HE|].
    unfold num_nodes. apply Permutation_length in HE.
    unfold leaf_labels in HE. rewrite length_map in HE. exact HE. }
  destruct self_nodes as [|first [|second rest]] eqn:Hnodes.
  - exists []. split; [reflexivity|]. intros t o name [].
  - exists []. split; [reflexivity|]. intros t o name [].
  - cbn [lookup list_lookup drop].
    destruct (ad_recurse_tree (outgroup st :: first :: second :: rest) fuel
                (SubElement
                   (SubElement (Elem (root_node st) ∅ []) (outgroup st) ∅)
                   first ∅)
                second rest 0)
      with (st := emit st (StartingList (first :: second :: rest)))
      as (evs & Htr & HE & _).
    { reflexivity. }
    exists evs. split.
    + etransitivity; [exact Htr|]. simpl. rewrite <- app_assoc. reflexivity.
    + apply Hall. exact HE.
Qed.

(** ** When [run_qpgraph] can print its summary *)

(** X15.  What [run_qpgraph] does with the log of a tree.  The log is
    the text of the log file when there is one; without one the tree is
    exported, and when [export_qpgraph] fails, its ValueError ends the
    call once the xml file is written, before qpGraph runs; otherwise the
    log is what qpGraph writes for the exported graph.  The call returns
    its result, after printing the summary, exactly when some line of the
    log holds the words worst f-stat and not the word outliers; for any
    other log the summary line raises [IndexError] and nothing is
    printed. *)
Theorem summary_needs_worst_fstat new_tree depth st :
  let name := hash_text sha1_hexdigest
                (print_newick_tree phylo_ladderize new_tree) 7 in
  let summary (log : string) (w : World) : Res Result * State World :=
    let outliers := fst (extract_outliers (PyStr.splitlines log)) in
    if existsb worst_line (PyStr.splitlines log) then
      (Ret (new_tree, outliers, name),
       emit (set_world World st w) (Evaluated name (length outliers)))
    else (Raise IndexError, set_world World st w) in
  run_qpgraph' new_tree depth st
  = match qpGraph_log (world st) name new_tree with
    | inl (log, w) => summary log w
    | inr (w, qpGraph) =>
        match export_qpgraph sha1_hexdigest (root_node st) new_tree with
        | inl _ => (Raise (ExportError ValueError), set_world World st w)
        | inr graph => summary (fst (qpGraph graph)) (snd (qpGraph graph))
        end
    end.
Proof.
  intros name summary.
  assert (Hsum : forall log w,
            match extract_outliers (PyStr.splitlines log) with
            | (outliers, worst_fstat) =>
                match List.last (map Some worst_fstat) None with
                | None => (Raise IndexError, set_world World st w)
                | Some _ =>
                    (Ret (new_tree, outliers, name),
                     emit (set_world World st w)
                       (Evaluated name (length outliers)))
                end
            end = summary log w).
  { intros log w. unfold summary.
    pose proof (extract_outliers_worst (PyStr.splitlines log)) as Hworst.
    destruct (extract_outliers (PyStr.splitlines log)) as [outliers worst].
    cbn [fst snd] in *.
    destruct (existsb worst_line (PyStr.splitlines log)) eqn:Hex.
    - apply existsb_exists in Hex.
      destruct (last_map_Some worst) as (x & Hx); [apply Hworst; exact Hex|].
      rewrite Hx. reflexivity.
    - destruct worst as [|x worst]; [reflexivity|]. exfalso.
      destruct Hworst as [Hw _].
      destruct Hw as (line & Hin & Hline); [discriminate|].
      assert (existsb worst_line (PyStr.splitlines log) = true)
        by (apply existsb_exists; exists line; split; assumption).
      congruence. }
  unfold run_qpgraph. fold name.
  destruct (qpGraph_log (world st) name new_tree) as [[log w]|[w qpGraph]].
  - exact (Hsum log w).
  - cbn [root_node set_world].
    destruct (export_qpgraph sha1_hexdigest (root_node st) new_tree)
      as [e|graph] eqn:Hgraph.
    + rewrite (export_qpgraph_error _ _ _ _ Hgraph). reflexivity.
    + rewrite <- Hsum. destruct (qpGraph graph) as [log w']. reflexivity.
Qed.

(** ** Exhaustive mode, the end of a run, and the batches *)

Lemma stable_problem_fixed (p : list string) :
  EXHAUSTIVE_SEARCH = true ->
  stable EXHAUSTIVE_SEARCH (fun st : State World => problem_nodes st = p).
Proof.
  intros Hmode. repeat split; simpl; intros; try assumption. congruence.
Qed.

(** X17.  In exhaustive mode no label is ever put off: an attempt leaves
    the list of problem nodes as it found it, and the list is empty at the
    end of a run, whatever its outcome. *)
Theorem exhaustive_never_defers fuel :
  EXHAUSTIVE_SEARCH = true ->
  (forall st : State World,
     problem_nodes (snd (find_graph' fuel st)) = problem_nodes st) /\
  (forall h w loc og,
     problem_nodes (snd (permute_qpgraph' fuel h w loc og)) = []).
Proof.
  intros Hmode. split.
  - intros st.
    exact (ha_find_graph _ (stable_problem_fixed (problem_nodes st) Hmode)
             fuel st eq_refl).
  - intros h w loc og.
    apply (ha_permute_qpgraph _ (stable_problem_fixed [] Hmode)
             fuel h w loc og).
    reflexivity.
Qed.

Lemma found_solutions st st' : found st st' -> solutions st' <> ∅.
Proof.
  intros (evs & t & o & name & _ & _ & Hin) Hempty.
  rewrite Hempty in Hin. apply elem_of_empty in Hin. exact Hin.
Qed.

Lemma search_loop_first_return fuel work st st1 :
  EXHAUSTIVE_SEARCH = false ->
  solutions st = ∅ ->
  find_graph' fuel st = (Ret tt, st1) ->
  exists st',
    search_loop' fuel work st = (Ret tt, st') /\
    trace st' = trace st1 /\
    tested_graphs st' = tested_graphs st1 /\
    solutions st' = solutions st1 /\
    problem_nodes st' = problem_nodes st1 /\
    world st' = world st1.
Proof.
  intros Hmode Hempty Hfg.
  pose proof (found_solutions _ _ (find_graph_found fuel _ _ Hfg)) as Hsol.
  assert (Hstop : forall work' (s : State World),
            solutions s = solutions st1 ->
            search_loop' fuel work' s = (Ret tt, s)).
  { intros work' s Hs. destruct work'; cbn [search_loop];
      rewrite Hmode, bool_decide_eq_false_2 by congruence; reflexivity. }
  destruct work as [|order work]; cbn [search_loop];
    rewrite (bool_decide_eq_true_2 _ Hempty); cbn [orb]; rewrite Hfg.
  - exists st1. repeat split; reflexivity.
  - eexists. split; [apply Hstop; reflexivity|]. repeat split; reflexivity.
Qed.

(** X18.  Outside exhaustive mode the first attempt that returns ends the
    run: the driver takes the next order from its list, makes no further
    attempt and returns True, with the output, the tested graphs, the
    solutions and the problem nodes that attempt left. *)
Theorem first_return_ends_run fuel h w loc og st1 :
  EXHAUSTIVE_SEARCH = false ->
  find_graph' fuel (init World h w loc og) = (Ret tt, st1) ->
  exists st',
    permute_qpgraph' fuel h w loc og = (Ret true, st') /\
    trace st' = trace st1 /\
    tested_graphs st' = tested_graphs st1 /\
    solutions st' = solutions st1 /\
    problem_nodes st' = problem_nodes st1 /\
    world st' = world st1.
Proof.
  intros Hmode Hfg.
  pose proof (found_solutions _ _ (find_graph_found fuel _ _ Hfg)) as Hsol.
  destruct (search_loop_first_return fuel
              (rev (permutations
                      (default [] (heap (init World h w loc og) !! loc))))
              (init World h w loc og) st1 Hmode eq_refl Hfg)
    as (st' & Hloop & Htr & Htested & Hsols & Hrest).
  exists st'. unfold permute_qpgraph. rewrite Hloop.
  split; [|split; [exact Htr|split; [exact Htested|split; [exact Hsols|exact Hrest]]]].
  rewrite bool_decide_eq_false_2 by congruence. reflexivity.
Qed.

(** X19.  [test_trees] returns one result per tree, in the order of the
    trees: the result carries the tree itself and the graph name hashed
    from its printed Newick form. *)
Theorem test_trees_in_order new_trees depth st results st' :
  test_trees' new_trees depth st = (Ret results, st') ->
  map result_tree results = new_trees /\
  map result_name results
  = map (fun t => hash_text sha1_hexdigest
                    (print_newick_tree phylo_ladderize t) 7) new_trees.
Proof.
  unfold test_trees. revert st results st'.
  induction new_trees as [|t new_trees IH]; intros st results st' H.
  - injection H as <- <-. simpl. repeat split.
  - cbn [mapM] in H. unfold bind at 1 in H.
    destruct (run_qpgraph' t depth st) as [[r|e|] st1] eqn:Hrun;
      try discriminate.
    assert (Hr : result_tree r = t /\
                 result_name r
                 = hash_text sha1_hexdigest
                     (print_newick_tree phylo_ladderize t) 7).
    { revert Hrun. open_run_qpgraph; intros [= <- <-] || discriminate;
        split; reflexivity. }
    destruct Hr as [Hr1 Hr2].
    unfold bind at 1 in H.
    destruct (mapM _ new_trees _) as [[rs|e|] st2] eqn:Hrest;
      try discriminate.
    injection H as <- <-.
    apply IH in Hrest as (H1 & H2).
    cbn [map]. rewrite H1, H2, Hr1, Hr2. repeat split.
Qed.

End SearchProperties.

(** * The program on concrete inputs *)

(** ** C8 *)

Lemma insertion_adds_one_leaf_witness :
  In (leaf "A") (findall tree_AB) /\ In (leaf "B") (findall tree_AB) /\
  (exists tree' n,
     insert_node tree_AB (leaf "A") "C" ∅ false = inr (tree', n) /\
     num_nodes tree' = num_nodes tree_AB + 1) /\
  (exists tree',
     insert_admixture tree_AB (leaf "A") (leaf "B") "C" = inr tree' /\
     num_nodes tree' = num_nodes tree_AB + 1).
Proof.
  assert (HA : In (leaf "A") (findall tree_AB)) by (simpl; tauto).
  assert (HB : In (leaf "B") (findall tree_AB)) by (simpl; tauto).
  split; [exact HA|]. split; [exact HB|].
  exact (insertion_adds_one_leaf tree_AB (leaf "A") (leaf "B") "C" HA HB).
Defined.

(** ** C9 *)

Lemma insert_node_accepts_duplicate_witness :
  In (leaf "A") (findall tree_A) /\ 1 <= leaves_tagged "A" tree_A /\
  exists tree' n,
    insert_node tree_A (leaf "A") "A" ∅ false = inr (tree', n) /\
    leaves_tagged "A" tree' = leaves_tagged "A" tree_A + 1 /\
    2 <= leaves_tagged "A" tree'.
Proof.
  assert (HA : In (leaf "A") (findall tree_A)) by (simpl; tauto).
  assert (Hd : 1 <= leaves_tagged "A" tree_A) by (vm_compute; lia).
  split; [exact HA|]. split; [exact Hd|].
  exact (insert_node_accepts_duplicate tree_A (leaf "A") "A" HA Hd).
Defined.

(** C9, counterexample: with the node list [Out; A; A] nothing is raised:
    the second A is inserted next to the first, and the run ends with that
    tree among the solutions. *)
Lemma duplicate_label_not_rejected :
  insert_node tree_A (leaf "A") "A" ∅ false
  = inr (Elem "R" ∅
           [leaf "Out"; Elem "n1" internal_attrs [leaf "A"; leaf "A"]],
         leaf "A") /\
  fst (permute_qpgraph unit oracle_pass same same 0 false 10
         {[ 0 := ["Out"; "A"; "A"] ]} tt 0 "Out") = Ret true.
Proof. split; vm_compute; reflexivity. Qed.

(** ** C5 *)

Lemma tree_AB_built : built tree_AB.
Proof.
  apply (built_regular tree_A (leaf "A") "B" tree_AB (leaf "B")).
  - exact (built_start "R" "Out" "A").
  - vm_compute. reflexivity.
Defined.


(** ** C4 *)

Lemma tree_admix_C_built : built tree_admix_C.
Proof.
  apply (built_admixture tree_AB (leaf "A") (leaf "B") "C" tree_admix_C).
  - exact tree_AB_built.
  - simpl. tauto.
  - simpl. tauto.
  - vm_compute. reflexivity.
Defined.

Lemma newick_label_suppression_witness :
  let node := Elem "a1" (admix_attrs "l") [leaf "C"] in
  built tree_admix_C /\
  tag tree_admix_C = "R" /\
  In node (iter tree_admix_C) /\
  children node <> [] /\
  exists suffix,
    export_newick_tree node =
      "(" +:+
      PyStr.join ","
        (map snd
           (PyStr.sort
              (map (fun child => (tag child, export_newick_tree child))
                   (children node)))) +:+
      ")" +:+ suffix /\
    ((spec_label_suppressed (tag node) = true /\ suffix = "") \/
     (spec_label_suppressed (tag node) = false /\ suffix = tag node /\
      is_admix node = true)).
Proof.
  intros node.
  assert (H2 : tag tree_admix_C = "R") by reflexivity.
  assert (H3 : In node (iter tree_admix_C)) by (simpl; tauto).
  assert (H4 : children node <> []) by discriminate.
  split; [exact tree_admix_C_built|]. split; [exact H2|]. split; [exact H3|].
  split; [exact H4|].
  exact (newick_label_suppression tree_admix_C node tree_admix_C_built
           H2 H3 H4).
Defined.

(** ** C7 *)

Lemma missing_outliers_marker_reads_as_none_witness :
  (forall line, In line ["worst f-stat: A B C D 0.001 0.5"] ->
                PyStr.contains "outliers" line = false) /\
  fst (extract_outliers ["worst f-stat: A B C D 0.001 0.5"]) = [] /\
  Nat.leb (length (fst (extract_outliers ["worst f-stat: A B C D 0.001 0.5"])))
          0 = true.
Proof.
  assert (H : forall line, In line ["worst f-stat: A B C D 0.001 0.5"] ->
                           PyStr.contains "outliers" line = false).
  { intros line [<- | []]. vm_compute. reflexivity. }
  split; [exact H|].
  exact (missing_outliers_marker_reads_as_none
           ["worst f-stat: A B C D 0.001 0.5"] 0 H).
Defined.

(** C7, counterexample: a log without its outliers line gives the very
    result of a log with an empty outliers section; and when the log of one
    tree of a batch of three has neither marker, [run_qpgraph] raises
    IndexError for it, which ends the batch and the whole run. *)
Lemma malformed_log_not_told_apart :
  fst (run_qpgraph unit oracle_without_outliers_line same same tree_AB 0
         (qp_for ["A"; "B"]))
  = fst (run_qpgraph unit oracle_pass same same tree_AB 0 (qp_for ["A"; "B"]))
  /\
  fst (run_qpgraph unit oracle_pass same same tree_AB 0 (qp_for ["A"; "B"]))
  = Ret (tree_AB, [], "(Out,(A") /\
  fst (regular_trees unit tree_AB
         [Elem "n1" internal_attrs [leaf "A"; leaf "B"]; leaf "A"; leaf "B"]
         "C" (qp_for ["A"; "B"; "C"]))
  = Ret batch_C /\
  fst (test_trees unit oracle_one_bad_log same same batch_C 1
         (qp_for ["A"; "B"; "C"]))
  = Raise IndexError /\
  fst (permute_qpgraph unit oracle_one_bad_log same same 0 false 10
         {[ 0 := ["Out"; "A"; "B"; "C"] ]} tt 0 "Out") = Raise IndexError.
Proof. repeat split; vm_compute; reflexivity. Qed.

(** ** C6 *)

Lemma tested_graphs_contents_witness :
  let results : list Result :=
    [(tree_AB, [], "g1"); (tree_A, [["A"; "B"; "C"; "D"; "4.1"]], "g2")] in
  let st' :=
    snd (check_results unit 0 (recurse_tree unit oracle_pass same same 0 false 3)
           results [] 0 (qp_for ["A"; "B"])) in
  check_results unit 0 (recurse_tree unit oracle_pass same same 0 false 3)
    results [] 0 (qp_for ["A"; "B"]) = (Ret true, st') /\
  "g1" ∈ tested_graphs st' /\ "g2" ∈ tested_graphs st'.
Proof.
  intros results st'.
  assert (Hrun : check_results unit 0
                   (recurse_tree unit oracle_pass same same 0 false 3)
                   results [] 0 (qp_for ["A"; "B"]) = (Ret true, st'))
    by (vm_compute; reflexivity).
  split; [exact Hrun|].
  destruct (tested_graphs_contents unit oracle_pass same same 0 false 3
              results [] 0 (qp_for ["A"; "B"]) true st' Hrun)
    as (Hall & _).
  split.
  - apply (Hall (tree_AB, [], "g1")). left. reflexivity.
  - apply (Hall (tree_A, [["A"; "B"; "C"; "D"; "4.1"]], "g2")).
    right. left. reflexivity.
Defined.

(** ** C2 *)

Lemma deferral_semantics_witness :
  let st2 :=
    snd (try_insertions unit oracle_fail same same 0
           (recurse_tree unit oracle_fail same same 0 false 4)
           tree_A "B" ["C"] 0 (qp_for ["A"; "B"; "C"])) in
  try_insertions unit oracle_fail same same 0
    (recurse_tree unit oracle_fail same same 0 false 4)
    tree_A "B" ["C"] 0 (qp_for ["A"; "B"; "C"]) = (Ret false, st2) /\
  recurse_tree unit oracle_fail same same 0 false 5 tree_A "B" ["C"] 0
    (qp_for ["A"; "B"; "C"])
  = recurse_tree unit oracle_fail same same 0 false 4 tree_A "C" ["B"] 0
      (set_problem_nodes (emit st2 (Warning "B")) (problem_nodes st2 ++ ["B"])).
Proof.
  intros st2.
  assert (Hrun : try_insertions unit oracle_fail same same 0
                   (recurse_tree unit oracle_fail same same 0 false 4)
                   tree_A "B" ["C"] 0 (qp_for ["A"; "B"; "C"])
                 = (Ret false, st2))
    by (vm_compute; reflexivity).
  split; [exact Hrun|].
  destruct (deferral_semantics unit oracle_fail same same 0 false 4
              tree_A "B" ["C"] 0 (qp_for ["A"; "B"; "C"]) st2 Hrun)
    as (Hstep & _).
  rewrite Hstep. vm_compute. reflexivity.
Defined.

(** C2, counterexample: every tree has an outlier.  The first attempt,
    on A, B, C, defers B, then C, and fails; it leaves B and C in the list
    of problem nodes.  The second attempt, on C, B, A, cannot place B: the
    queue still holds A, the search is not exhaustive and nothing has been
    deferred in this attempt, yet B is not deferred: NodeUnplaceable is
    raised at once, and the attempt neither prints a warning nor adds to the
    list. *)
Lemma problem_nodes_outlive_attempt :
  let st1 :=
    snd (find_graph unit oracle_fail same same 0 false 10
           (qp_for ["A"; "B"; "C"])) in
  let st2 := set_heap_nodes st1 (<[1 := ["C"; "B"; "A"]]> (heap st1)) 1 in
  let st3 := snd (find_graph unit oracle_fail same same 0 false 10 st2) in
  List.filter is_warning (trace st1) = [Warning "B"; Warning "C"] /\
  problem_nodes st1 = ["B"; "C"] /\
  fst (find_graph unit oracle_fail same same 0 false 10 st2)
  = Raise (NodeUnplaceable "B") /\
  List.filter is_warning (trace st3) = List.filter is_warning (trace st1) /\
  problem_nodes st3 = problem_nodes st1.
Proof. repeat split; vm_compute; reflexivity. Qed.

(** ** C3 *)

Lemma oracle_pass_ok : oracle_ok oracle_pass.
Proof. intros w name tree graph. vm_compute. discriminate. Defined.

Lemma find_graph_terminates_witness :
  heap (qp_for ["A"; "B"; "C"]) !! nodes (qp_for ["A"; "B"; "C"])
  = Some ["A"; "B"; "C"] /\
  2 <= length ["A"; "B"; "C"] /\
  oracle_ok oracle_pass /\
  depth_bound (length ["A"; "B"; "C"] - 2) + (length ["A"; "B"; "C"] - 1) <= 6 /\
  NoDup ["Out"; "A"; "B"; "C"] /\
  (forall l j, In l ["Out"; "A"; "B"; "C"] ->
     l <> "n" +:+ PyStr.format_num j /\ l <> "a" +:+ PyStr.format_num j) /\
  exists st',
    find_graph unit oracle_pass same same 0 false 6 (qp_for ["A"; "B"; "C"])
    = (Ret tt, st') \/
    exists new_tag,
      find_graph unit oracle_pass same same 0 false 6 (qp_for ["A"; "B"; "C"])
      = (Raise (NodeUnplaceable new_tag), st').
Proof.
  assert (H1 : heap (qp_for ["A"; "B"; "C"]) !! nodes (qp_for ["A"; "B"; "C"])
               = Some ["A"; "B"; "C"]) by reflexivity.
  assert (H2 : 2 <= length ["A"; "B"; "C"]) by (simpl; lia).
  assert (H4 : depth_bound (length ["A"; "B"; "C"] - 2)
               + (length ["A"; "B"; "C"] - 1) <= 6) by (simpl; lia).
  assert (H5 : NoDup ["Out"; "A"; "B"; "C"])
    by (apply (bool_decide_unpack _); vm_compute; exact I).
  assert (H6 : forall l j, In l ["Out"; "A"; "B"; "C"] ->
                 l <> "n" +:+ PyStr.format_num j /\
                 l <> "a" +:+ PyStr.format_num j).
  { intros l j Hl.
    destruct Hl as [<-|[<-|[<-|[<-|[]]]]]; split; discriminate. }
  split; [exact H1|]. split; [exact H2|]. split; [exact oracle_pass_ok|].
  split; [exact H4|]. split; [exact H5|]. split; [exact H6|].
  exact (proj2 (find_graph_terminates unit oracle_pass same same 0 false
                  (qp_for ["A"; "B"; "C"]) ["A"; "B"; "C"] 6
                  H1 H2 oracle_pass_ok H4) H5 H6).
Defined.

(** C3, counterexample: two attempts that neither return nor raise
    NodeUnplaceable.  Node list [Out; A]: the constructor leaves the single
    label A, and the attempt ends with IndexError when it reads
    [self.nodes[1]].  Labels A, A, A, A, with an oracle that has a log for
    every graph: the attempt comes to a tree in which the tag A has three
    parents, and ends with the ValueError of [export_qpgraph]. *)
Lemma find_graph_other_exceptions :
  heap (qp_for ["Out"; "A"]) !! nodes (qp_for ["Out"; "A"]) = Some ["A"] /\
  fst (find_graph unit oracle_pass same same 0 false 10 (qp_for ["Out"; "A"]))
  = Raise IndexError /\
  heap (qp_for ["A"; "A"; "A"; "A"]) !! nodes (qp_for ["A"; "A"; "A"; "A"])
  = Some ["A"; "A"; "A"; "A"] /\
  fst (find_graph unit oracle_pass same same 0 false 20
         (qp_for ["A"; "A"; "A"; "A"]))
  = Raise (ExportError ValueError).
Proof. repeat split; vm_compute; reflexivity. Qed.

(** ** C10 *)

Lemma outgroup_stripped_witness :
  let h : gmap nat (list string) := {[ 0 := ["A"; "Out"; "B"] ]} in
  h !! 0 = Some ["A"; "Out"; "B"] /\
  occurrences "Out" ["A"; "Out"; "B"] <= 1 /\
  heap (init unit h tt 0 "Out") !! 0 = Some ["A"; "B"] /\
  nodes (init unit h tt 0 "Out") = 0 /\
  (forall o, In o (permutations ["A"; "B"]) -> ~ In "Out" o) /\
  (forall l,
     In (StartingList l)
        (trace (snd (permute_qpgraph unit oracle_fail same same 0 false 6
                       h tt 0 "Out"))) ->
     ~ In "Out" l).
Proof.
  intros h.
  assert (H1 : h !! 0 = Some ["A"; "Out"; "B"]) by reflexivity.
  assert (H2 : occurrences "Out" ["A"; "Out"; "B"] <= 1)
    by (vm_compute; lia).
  split; [exact H1|]. split; [exact H2|].
  destruct (outgroup_stripped unit oracle_fail same same 0 false 6
              h tt 0 ["A"; "Out"; "B"] "Out" H1 H2)
    as (Ha & Hb & _ & Hd & He).
  split; [exact Ha|]. split; [exact Hb|]. split; [exact Hd | exact He].
Defined.

(** C10, counterexample: node list [Out; A; Out].  Only the first Out
    is removed: the list the object keeps, the orders of the work list and
    the first starting list all hold the outgroup. *)
Lemma second_outgroup_stays :
  let h : gmap nat (list string) := {[ 0 := ["Out"; "A"; "Out"] ]} in
  heap (init unit h tt 0 "Out") !! 0 = Some ["A"; "Out"] /\
  permutations ["A"; "Out"] = [["A"; "Out"]; ["Out"; "A"]] /\
  List.hd_error
    (trace (snd (permute_qpgraph unit oracle_fail same same 0 false 6
                   h tt 0 "Out")))
  = Some (StartingList ["A"; "Out"]).
Proof. repeat split; vm_compute; reflexivity. Qed.

(** ** Further properties: the insertions *)

Lemma insert_node_keeps_every_node_witness :
  insert_node tree_A (leaf "A") "B" ∅ false = inr (tree_AB, leaf "B") /\
  leaf "B" = Elem "B" ∅ [] /\
  tag tree_AB = tag tree_A /\ attrib tree_AB = attrib tree_A /\
  exists extra,
    (extra = [] \/
     (false = false /\ extra = [(new_label tree_A false, internal_attrs)])) /\
    keys tree_AB ≡ₚ ("B", ∅) :: extra ++ keys tree_A.
Proof.
  assert (H : insert_node tree_A (leaf "A") "B" ∅ false
              = inr (tree_AB, leaf "B")) by (vm_compute; reflexivity).
  split; [exact H|].
  exact (insert_node_keeps_every_node tree_A (leaf "A") "B" ∅ false tree_AB
           (leaf "B") H).
Defined.

Lemma admix_count_after_insertion_witness :
  In (leaf "A") (findall tree_AB) /\ In (leaf "B") (findall tree_AB) /\
  (forall tree' n,
     insert_node tree_AB (leaf "A") "C" ∅ false = inr (tree', n) ->
     count is_admix (findall tree') = count is_admix (findall tree_AB) /\
     num_admix tree' = num_admix tree_AB) /\
  (forall tree',
     insert_admixture tree_AB (leaf "A") (leaf "B") "C" = inr tree' ->
     count is_admix (findall tree') = count is_admix (findall tree_AB) + 2 /\
     num_admix tree' = num_admix tree_AB + 1).
Proof.
  assert (HA : In (leaf "A") (findall tree_AB)) by (simpl; tauto).
  assert (HB : In (leaf "B") (findall tree_AB)) by (simpl; tauto).
  split; [exact HA|]. split; [exact HB|].
  exact (admix_count_after_insertion tree_AB (leaf "A") (leaf "B") "C" HA HB).
Defined.


Lemma built_labels_in_order_witness :
  built tree_AB /\
  count is_admix (findall tree_AB) = 2 * num_admix tree_AB /\
  (forall x, In x (findall tree_AB) ->
     attrib x = ∅ \/
     (exists j, 1 <= j <= num_internal tree_AB /\
                tag x = "n" +:+ PyStr.format_num j /\
                attrib x = internal_attrs) \/
     (exists j s, 1 <= j <= num_admix tree_AB /\ (s = "l" \/ s = "r") /\
                  tag x = "a" +:+ PyStr.format_num j /\
                  attrib x = admix_attrs s)) /\
  (forall j, 1 <= j <= num_internal tree_AB ->
     count_key ("n" +:+ PyStr.format_num j) internal_attrs tree_AB = 1) /\
  (forall j s, 1 <= j <= num_admix tree_AB -> s = "l" \/ s = "r" ->
     count_key ("a" +:+ PyStr.format_num j) (admix_attrs s) tree_AB = 1) /\
  (forall x, In x (findall tree_AB) -> attrib x <> ∅ ->
     tag x <> new_label tree_AB false /\ tag x <> new_label tree_AB true).
Proof.
  split; [exact tree_AB_built|].
  exact (built_labels_in_order tree_AB tree_AB_built).
Defined.

(** ** Further properties: the search *)

Lemma check_results_flag_witness :
  let results : list Result :=
    [(tree_A, [["A"; "B"; "C"; "D"; "4.1"]], "g2"); (tree_AB, [], "g1")] in
  let recurse := recurse_tree unit oracle_pass same same 0 false 3 in
  let st' := snd (check_results unit 0 recurse results [] 0 (qp_for ["A"; "B"])) in
  check_results unit 0 recurse results [] 0 (qp_for ["A"; "B"])
  = (Ret true, st') /\
  true = existsb (passes 0) results.
Proof.
  intros results recurse st'.
  assert (Hrun : check_results unit 0 recurse results [] 0 (qp_for ["A"; "B"])
                 = (Ret true, st')) by (vm_compute; reflexivity).
  split; [exact Hrun|].
  exact (check_results_flag unit 0 recurse results [] 0 (qp_for ["A"; "B"])
           true st' Hrun).
Defined.

Lemma attempt_returns_with_solution_witness :
  let st := qp_for ["A"; "B"; "C"] in
  let st' := snd (find_graph unit oracle_pass same same 0 false 6 st) in
  find_graph unit oracle_pass same same 0 false 6 st = (Ret tt, st') /\
  found st st'.
Proof.
  intros st st'.
  assert (Hrun : find_graph unit oracle_pass same same 0 false 6 st
                 = (Ret tt, st')) by (vm_compute; reflexivity).
  split; [exact Hrun|].
  exact (attempt_returns_with_solution unit oracle_pass same same 0 false 6
           st st' Hrun).
Defined.

Lemma driver_attempts_witness :
  let h : gmap nat (list string) := {[ 0 := ["Out"; "A"; "B"] ]} in
  let st' :=
    snd (permute_qpgraph unit oracle_fail same same 0 false 6 h tt 0 "Out") in
  h !! 0 = Some ["Out"; "A"; "B"] /\
  permute_qpgraph unit oracle_fail same same 0 false 6 h tt 0 "Out"
  = (Ret false, st') /\
  (false = true \/ false = false) /\
  starting_lists (trace st')
  = list_remove "Out" ["Out"; "A"; "B"]
    :: rev (permutations (list_remove "Out" ["Out"; "A"; "B"])) /\
  length (starting_lists (trace st'))
  = fact (length (list_remove "Out" ["Out"; "A"; "B"])) + 1 /\
  last (starting_lists (trace st'))
  = Some (list_remove "Out" ["Out"; "A"; "B"]).
Proof.
  intros h st'.
  assert (H1 : h !! 0 = Some ["Out"; "A"; "B"]) by reflexivity.
  assert (H2 : permute_qpgraph unit oracle_fail same same 0 false 6 h tt 0
                 "Out" = (Ret false, st')) by (vm_compute; reflexivity).
  assert (H3 : false = true \/ false = false) by (right; reflexivity).
  split; [exact H1|]. split; [exact H2|]. split; [exact H3|].
  exact (driver_attempts unit oracle_fail same same 0 false 6 h tt 0 "Out"
           ["Out"; "A"; "B"] false st' H1 H2 H3).
Defined.

(** ** Further properties: the log and the canonical form *)

Lemma extract_outliers_sections_witness :
  let before := ["qpGraph: parameter file: simple.par"] in
  let header := "outliers:" in
  let body := ["A B C D 0.02 0.001 4.1"; ""] in
  let worst := "worst f-stat: A B C D 0.02 4.1" in
  let after := ["##end of qpGraph"] in
  Forall (fun line => plain_line line = true) before /\
  PyStr.contains "outliers" header = true /\
  Forall (fun line => plain_line line = true) body /\
  worst_line worst = true /\
  Forall (fun line => plain_line line = true) after /\
  extract_outliers (before ++ header :: body ++ worst :: after)
  = (map PyStr.split (List.filter not_blank body), PyStr.split worst).
Proof.
  intros before header body worst after.
  assert (H1 : Forall (fun line => plain_line line = true) before)
    by (repeat constructor).
  assert (H2 : PyStr.contains "outliers" header = true) by reflexivity.
  assert (H3 : Forall (fun line => plain_line line = true) body)
    by (repeat constructor).
  assert (H4 : worst_line worst = true) by reflexivity.
  assert (H5 : Forall (fun line => plain_line line = true) after)
    by (repeat constructor).
  split; [exact H1|]. split; [exact H2|]. split; [exact H3|].
  split; [exact H4|]. split; [exact H5|].
  exact (extract_outliers_sections before header body worst after
           H1 H2 H3 H4 H5).
Defined.

Lemma newick_ignores_child_order_witness :
  let t' :=
    Elem "R" ∅ [Elem "n1" internal_attrs [leaf "B"; leaf "A"]; leaf "Out"] in
  shuffled tree_AB t' /\
  export_newick_tree tree_AB = export_newick_tree t' /\
  forall (sha1_hexdigest phylo_ladderize : string -> string),
    print_newick_tree phylo_ladderize tree_AB
    = print_newick_tree phylo_ladderize t' /\
    hash_text sha1_hexdigest (print_newick_tree phylo_ladderize tree_AB) 7
    = hash_text sha1_hexdigest (print_newick_tree phylo_ladderize t') 7.
Proof.
  intros t'.
  assert (Hleaf : forall x, shuffled (leaf x) (leaf x)).
  { intros x. apply (shuffled_node x ∅ ∅ [] [] []); constructor. }
  assert (H : shuffled tree_AB t').
  { apply (shuffled_node "R" ∅ ∅ _ _
             [leaf "Out"; Elem "n1" internal_attrs [leaf "B"; leaf "A"]]).
    - constructor; [apply Hleaf|]. constructor; [|constructor].
      apply (shuffled_node "n1" internal_attrs internal_attrs _ _
               [leaf "A"; leaf "B"]).
      + constructor; [apply Hleaf|]. constructor; [apply Hleaf|constructor].
      + apply perm_swap.
    - apply perm_swap. }
  split; [exact H|].
  exact (newick_ignores_child_order tree_AB t' H).
Defined.

(** ** Further properties: the modes of the driver and the batches *)

Lemma exhaustive_never_defers_witness :
  true = true /\
  (forall st : State unit,
     problem_nodes (snd (find_graph unit oracle_fail same same 0 true 6 st))
     = problem_nodes st) /\
  (forall h w loc og,
     problem_nodes
       (snd (permute_qpgraph unit oracle_fail same same 0 true 6 h w loc og))
     = []).
Proof.
  split; [reflexivity|].
  exact (exhaustive_never_defers unit oracle_fail same same 0 true 6 eq_refl).
Defined.

Lemma first_return_ends_run_witness :
  let h : gmap nat (list string) := {[ 0 := ["Out"; "A"; "B"; "C"] ]} in
  let st1 :=
    snd (find_graph unit oracle_pass same same 0 false 6
           (init unit h tt 0 "Out")) in
  false = false /\
  find_graph unit oracle_pass same same 0 false 6 (init unit h tt 0 "Out")
  = (Ret tt, st1) /\
  exists st',
    permute_qpgraph unit oracle_pass same same 0 false 6 h tt 0 "Out"
    = (Ret true, st') /\
    trace st' = trace st1 /\
    tested_graphs st' = tested_graphs st1 /\
    solutions st' = solutions st1 /\
    problem_nodes st' = problem_nodes st1 /\
    world st' = world st1.
Proof.
  intros h st1.
  assert (H : find_graph unit oracle_pass same same 0 false 6
                (init unit h tt 0 "Out") = (Ret tt, st1))
    by (vm_compute; reflexivity).
  split; [reflexivity|]. split; [exact H|].
  exact (first_return_ends_run unit oracle_pass same same 0 false 6 h tt 0
           "Out" st1 eq_refl H).
Defined.

Lemma test_trees_in_order_witness :
  let run :=
    test_trees unit oracle_pass same same [tree_A; tree_AB] 0
      (qp_for ["A"; "B"]) in
  let results := [(tree_A, [], "(A,Out)"); (tree_AB, [], "(Out,(A")] in
  run = (Ret results, snd run) /\
  map result_tree results = [tree_A; tree_AB] /\
  map result_name results
  = map (fun t => hash_text same (print_newick_tree same t) 7)
      [tree_A; tree_AB].
Proof.
  intros run results.
  assert (H : run = (Ret results, snd run)) by (vm_compute; reflexivity).
  split; [exact H|].
  exact (test_trees_in_order unit oracle_pass same same [tree_A; tree_AB] 0
           (qp_for ["A"; "B"]) results (snd run) H).
Defined.

(** ** Further properties: the qpGraph format *)

Lemma export_without_repeated_tags_witness :
  NoDup (map tag (findall tree_AB)) /\
  (forall x, In x (findall tree_AB) -> is_printed x = false) /\
  export_qpgraph same "R" tree_AB
  = inr ("root" +:+ tab +:+ "R" +:+ eol
         +:+ label_lines tree_AB
         +:+ tree_edges same tree_AB).
Proof.
  assert (H1 : NoDup (map tag (findall tree_AB)))
    by (apply (bool_decide_unpack _); vm_compute; exact I).
  assert (H2 : forall x, In x (findall tree_AB) -> is_printed x = false).
  { intros x Hx. simpl in Hx.
    destruct Hx as [<-|[<-|[<-|[<-|[]]]]]; reflexivity. }
  split; [exact H1|]. split; [exact H2|].
  exact (export_without_repeated_tags same "R" tree_AB H1 H2).
Defined.

Lemma export_returns_for_two_parents_witness :
  Forall (fun x => length (parents_of (tag x) tree_admix_C) <= 2)
    (findall tree_admix_C) /\
  exists graph, export_qpgraph same "R" tree_admix_C = inr graph.
Proof.
  assert (H : Forall (fun x => length (parents_of (tag x) tree_admix_C) <= 2)
                (findall tree_admix_C))
    by (apply (bool_decide_unpack _); vm_compute; exact I).
  split; [exact H|].
  exact (export_returns_for_two_parents same "R" tree_admix_C H).
Defined.

Lemma built_tree_exports_witness :
  built tree_admix_C /\
  NoDup (leaf_labels tree_admix_C) /\
  (forall l j, In l (leaf_labels tree_admix_C) ->
     l <> "n" +:+ PyStr.format_num j /\ l <> "a" +:+ PyStr.format_num j) /\
  Forall (fun x => length (parents_of (tag x) tree_admix_C) <= 2)
    (findall tree_admix_C) /\
  exists graph, export_qpgraph same "R" tree_admix_C = inr graph.
Proof.
  assert (H2 : NoDup (leaf_labels tree_admix_C))
    by (apply (bool_decide_unpack _); vm_compute; exact I).
  assert (H3 : forall l j, In l (leaf_labels tree_admix_C) ->
                 l <> "n" +:+ PyStr.format_num j /\
                 l <> "a" +:+ PyStr.format_num j).
  { intros l j Hl. vm_compute in Hl.
    destruct Hl as [<-|[<-|[<-|[<-|[]]]]]; split; discriminate. }
  split; [exact tree_admix_C_built|]. split; [exact H2|]. split; [exact H3|].
  exact (built_tree_exports same "R" tree_admix_C tree_admix_C_built H2 H3).
Defined.

Lemma export_fails_iff_witness :
  (forall x, In x (findall tree_three_A) -> is_printed x = false) /\
  export_qpgraph same "R" tree_three_A <> inl NoneAttributeError /\
  (export_qpgraph same "R" tree_three_A = inl ValueError <->
   exists x, In x (findall tree_three_A) /\
             2 < length (parents_of (tag x) tree_three_A)).
Proof.
  assert (H : forall x, In x (findall tree_three_A) -> is_printed x = false).
  { intros x Hx. simpl in Hx.
    destruct Hx as [<-|[<-|[<-|[<-|[<-|[<-|[<-|[]]]]]]]]; reflexivity. }
  split; [exact H|].
  exact (export_fails_iff same "R" tree_three_A H).
Defined.
